(** * Promise and async utilities of src/config.js

  A shallow embedding of the classes [PromisePool], [AsyncQueue],
  [RetryPolicy], [Timeout], [CachePromise] and [AsyncIterator]
  (src/config.js, lines 847-1113).

  JavaScript runs these classes on one cooperative event loop.  Each
  class is therefore modelled as a state record together with one
  transition per callback that the event loop can run: a call of a public
  method, or the continuation attached to a promise that settles.  Fields
  marked "ghost" do not exist in the source; they record what happened
  (which task started, which handle settled) so that the properties can be
  stated. *)

From stdpp Require Import base list gmap.
From Stdlib Require Import ZArith Lia.
From Equations Require Import Equations.

Local Open Scope Z_scope.

(** ** Promises *)

(** The two ways a promise settles. *)
Inductive outcome (V E : Type) : Type :=
| Fulfilled (v : V)
| Rejected (e : E).
Arguments Fulfilled {V E} v.
Arguments Rejected {V E} e.

(** What the synchronous call [task()] does: it throws, or it returns
  something that [Promise.resolve] wraps and that settles in a later turn
  of the event loop. *)
Inductive call (E : Type) : Type :=
| Throws (e : E)
| Returns.
Arguments Throws {E} e.
Arguments Returns {E}.

(** A queue item [{ task, resolve, reject }].  The pair [resolve]/[reject]
  belongs to the promise that [add] returned; [handle] names that
  promise by the number of [add] calls made before it. *)
Record item (E : Type) : Type := Item { handle : nat; task : call E }.
Arguments Item {E} handle task.
Arguments handle {E} i.
Arguments task {E} i.

(** Ghost history: a task was called, the promise of a handle settled. *)
Inductive entry (V E : Type) : Type :=
| Started (h : nat)
| Settled (h : nat) (o : outcome V E).
Arguments Started {V E} h.
Arguments Settled {V E} h o.

Section History.
Context {V E : Type}.

Definition started_handles (l : list (entry V E)) : list nat :=
  omap (fun x => match x with Started h => Some h | Settled _ _ => None end) l.

Definition settled_handles (l : list (entry V E)) : list nat :=
  omap (fun x => match x with Settled h _ => Some h | Started _ => None end) l.

Definition settlements (l : list (entry V E)) : list (nat * outcome V E) :=
  omap (fun x => match x with Settled h o => Some (h, o) | Started _ => None end) l.

(** [resolve(v)] or [reject(e)] on the promise named [h]: a promise
    settles once, later calls do nothing. *)
Definition settle (h : nat) (o : outcome V E) (l : list (entry V E)) : list (entry V E) :=
  if bool_decide (h ∈ settled_handles l) then l else l ++ [Settled h o].

End History.

(** ** class PromisePool *)

Module PromisePool.
Section Pool.
Context {V E : Type}.

Record pool : Type := Pool {
  concurrency : Z;
  running : Z;
  queue : list (item E);
  next_handle : nat;        (* ghost: number of [add] calls so far *)
  inflight : list nat;      (* ghost: tasks called whose promise is pending *)
  log : list (entry V E);   (* ghost: history *)
  peak : Z                  (* ghost: largest value [running] has held *)
}.

(** [constructor(concurrency = 3)] *)
Definition new (c : Z) : pool :=
  {| concurrency := c; running := 0; queue := []; next_handle := 0%nat;
     inflight := []; log := []; peak := 0 |}.

(** One pass through the body of the [while] of [_process]:
    [this.running++], [this.queue.shift()], [task()].  A task that throws
    leaves the loop with the exception; otherwise the promise chain is
    installed and the loop goes on. *)
Fixpoint process_loop (fuel : nat) (p : pool) : pool * option E :=
  match fuel with
  | O => (p, None)
  | S fuel =>
    match queue p with
    | [] => (p, None)
    | it :: rest =>
      if running p <? concurrency p then
        let p1 := {| concurrency := concurrency p;
                     running := running p + 1;
                     queue := rest;
                     next_handle := next_handle p;
                     inflight := inflight p;
                     log := log p ++ [Started (handle it)];
                     peak := Z.max (peak p) (running p + 1) |} in
        match task it with
        | Throws e => (p1, Some e)
        | Returns =>
          process_loop fuel
            {| concurrency := concurrency p1; running := running p1;
               queue := queue p1; next_handle := next_handle p1;
               inflight := inflight p1 ++ [handle it];
               log := log p1; peak := peak p1 |}
        end
      else (p, None)
    end
  end.

(** [_process()]: every pass removes one item, so the length of the queue
    bounds the number of passes. *)
Definition _process (p : pool) : pool * option E :=
  process_loop (length (queue p)) p.

(** [add(task)]: the executor pushes the item and calls [_process]; an
    exception that escapes the executor rejects the promise being
    created. *)
Definition add (t : call E) (p : pool) : pool :=
  let h := next_handle p in
  let p1 := {| concurrency := concurrency p; running := running p;
               queue := queue p ++ [Item h t];
               next_handle := S h;
               inflight := inflight p; log := log p; peak := peak p |} in
  match _process p1 with
  | (p2, None) => p2
  | (p2, Some e) =>
    {| concurrency := concurrency p2; running := running p2;
       queue := queue p2; next_handle := next_handle p2;
       inflight := inflight p2;
       log := settle h (Rejected e) (log p2); peak := peak p2 |}
  end.

(** The chain [.then(resolve).catch(reject).finally(...)] of the task of
    handle [h], run when the promise of that task settles with [o]: the
    handle settles with [o], then [this.running--] and [_process()].  An
    exception of that [_process] rejects the promise made by [finally],
    which nobody holds.  The reactions of the chain run in successive
    microtasks; a call of [add] that the event loop runs between them finds
    [running] and [queue] as they were before the chain, so it is the event
    [Add] placed before this one. *)
Definition on_settled (h : nat) (o : outcome V E) (p : pool) : pool :=
  if bool_decide (h ∈ inflight p) then
    fst (_process
      {| concurrency := concurrency p; running := running p - 1;
         queue := queue p; next_handle := next_handle p;
         inflight := filter (fun x => x ≠ h) (inflight p);
         log := settle h o (log p); peak := peak p |})
  else p.

Inductive event : Type :=
| Add (t : call E)
| Settle (h : nat) (o : outcome V E).

Definition step (p : pool) (ev : event) : pool :=
  match ev with
  | Add t => add t p
  | Settle h o => on_settled h o p
  end.

Definition run (p : pool) (evs : list event) : pool := foldl step p evs.

(** [Promise.all] over the handles [0 .. n-1], as the language defines it:
    a fulfilled element stores its value at its index and counts down, the
    last one resolves the aggregate with the array of values; a rejected
    element rejects the aggregate.  The aggregate settles once. *)
Record all_state : Type := AllState {
  values : list (option V);
  remaining : nat;
  result : option (outcome (list V) E)
}.

Definition all_init (n : nat) : all_state :=
  {| values := replicate n None;
     remaining := n;
     result := if decide (n = 0%nat) then Some (Fulfilled []) else None |}.

Definition all_step (st : all_state) (s : nat * outcome V E) : all_state :=
  match s with
  | (i, Fulfilled v) =>
    let values' := <[i := Some v]> (values st) in
    let remaining' := (remaining st - 1)%nat in
    {| values := values';
       remaining := remaining';
       result := match result st with
                 | Some r => Some r
                 | None => if decide (remaining' = 0%nat)
                           then Some (Fulfilled (omap id values'))
                           else None
                 end |}
  | (i, Rejected e) =>
    {| values := values st;
       remaining := remaining st;
       result := match result st with
                 | Some r => Some r
                 | None => Some (Rejected e)
                 end |}
  end.

Definition promise_all (n : nat) (observed : list (nat * outcome V E)) : all_state :=
  foldl all_step (all_init n) observed.

(** [static execute(tasks, concurrency = 3)]: [tasks.map] calls [pool.add]
    on every task in turn, before any promise reaction runs. *)
Definition execute (tasks : list (call E)) (c : Z) : pool :=
  foldl (fun p t => add t p) (new c) tasks.

(** The pool of [execute] is local to it: after the calls of [add] the only
    things that happen to it are settlements of its tasks. *)
Definition settle_events (l : list (nat * outcome V E)) : list event :=
  map (fun s => Settle s.1 s.2) l.

(** What the promise returned by [execute] has become once the event loop
    has delivered the settlements [l]: [Promise.all] observes the handles
    in the order in which they settled. *)
Definition execute_result (tasks : list (call E)) (c : Z)
    (l : list (nat * outcome V E)) : option (outcome (list V) E) :=
  result (promise_all (length tasks)
            (settlements (log (run (execute tasks c) (settle_events l))))).

(** *** Invariants of the pool *)

(** The ceiling bounds [running], every value it ever held, and the number
    of pending tasks. *)
Record bounded (p : pool) : Prop := Bounded {
  bounded_running : running p <= concurrency p;
  bounded_peak : peak p <= concurrency p;
  bounded_inflight : Z.of_nat (length (inflight p)) <= running p
}.

(** The pool's bookkeeping, for any ceiling: the handles started so far,
    followed by those waiting, are all the handles in the order of the
    [add] calls; a pending task has been started and its handle has not
    settled; a handle settles at most once. *)
Record linv (p : pool) : Prop := LInv {
  inv_order :
    started_handles (log p) ++ map handle (queue p) = seq 0 (next_handle p);
  inv_count : Z.of_nat (length (inflight p)) <= running p;
  inv_nodup : NoDup (inflight p);
  inv_pending : ∀ h, h ∈ inflight p →
    h ∈ started_handles (log p) ∧ h ∉ settled_handles (log p);
  inv_settled : ∀ h, h ∈ settled_handles (log p) → h ∈ started_handles (log p);
  inv_once : NoDup (settled_handles (log p))
}.

(** No item waits while a slot is free. *)
Definition idle (p : pool) : Prop := running p < concurrency p → queue p = [].

Definition inv (p : pool) : Prop := linv p ∧ idle p.

(** Settlements that the event loop can deliver one after the other: each
    one is of a task that is pending when it is delivered. *)
Fixpoint deliverable (p : pool) (l : list (nat * outcome V E)) : Prop :=
  match l with
  | [] => True
  | s :: l' => s.1 ∈ inflight p ∧ deliverable (on_settled s.1 s.2 p) l'
  end.

(** *** Tasks that return *)

(** An event other than a call of [add] with a task that throws when it is
    called. *)
Definition returns (ev : event) : Prop :=
  match ev with
  | Add (Throws _) => False
  | _ => True
  end.

(** No task has thrown and none of the waiting ones will: every slot taken
    is held by a pending task, and every task started has settled or is
    pending. *)
Record calm (p : pool) : Prop := Calm {
  calm_queue : Forall (fun it => task it = Returns) (queue p);
  calm_running : running p = Z.of_nat (length (inflight p));
  calm_started : ∀ h, h ∈ started_handles (log p) →
    h ∈ settled_handles (log p) ∨ h ∈ inflight p
}.

(** The error of the first rejection among observed settlements. *)
Fixpoint first_rejection (l : list (nat * outcome V E)) : option E :=
  match l with
  | [] => None
  | (_, Rejected e) :: _ => Some e
  | (_, Fulfilled _) :: l => first_rejection l
  end.

End Pool.
Arguments pool : clear implicits.
Arguments event : clear implicits.
Arguments all_state : clear implicits.
End PromisePool.

(** ** class AsyncQueue *)

Module AsyncQueue.
Section Queue.
Context {V E : Type}.

Record queue : Type := Queue {
  tasks : list (item E);
  processing : bool;
  next_handle : nat;        (* ghost: number of [add] calls so far *)
  executing : list nat;     (* ghost: tasks called whose promise is pending *)
  dropped : list nat;       (* ghost: handles whose item [clear] discarded *)
  log : list (entry V E)    (* ghost: history *)
}.

(** [constructor()] *)
Definition new : queue :=
  {| tasks := []; processing := false; next_handle := 0%nat;
     executing := []; dropped := []; log := [] |}.

(** [async _processNext()] up to its suspension.  The guard returns at
    once; otherwise the head is shifted and called.  When the call throws,
    [catch] rejects the handle and [finally] clears the flag and calls
    [_processNext] again, all in the same turn.  When the call returns, the
    function is suspended at [await]. *)
Fixpoint process_next (fuel : nat) (q : queue) : queue :=
  match fuel with
  | O => q
  | S fuel =>
    if processing q then q else
    match tasks q with
    | [] => q
    | it :: rest =>
      let h := handle it in
      match task it with
      | Throws e =>
        process_next fuel
          {| tasks := rest; processing := false;
             next_handle := next_handle q; executing := executing q;
             dropped := dropped q;
             log := settle h (Rejected e) (log q ++ [Started h]) |}
      | Returns =>
        {| tasks := rest; processing := true;
           next_handle := next_handle q; executing := executing q ++ [h];
           dropped := dropped q;
           log := log q ++ [Started h] |}
      end
    end
  end.

(** Every nested call follows a shift, so one more than the number of
    waiting items bounds the depth. *)
Definition _processNext (q : queue) : queue :=
  process_next (S (length (tasks q))) q.

(** [add(task)] *)
Definition add (t : call E) (q : queue) : queue :=
  _processNext
    {| tasks := tasks q ++ [Item (next_handle q) t]; processing := processing q;
       next_handle := S (next_handle q); executing := executing q;
       dropped := dropped q; log := log q |}.

(** [size()] *)
Definition size (q : queue) : nat := length (tasks q).

(** [clear()]: [this.tasks = []] *)
Definition clear (q : queue) : queue :=
  {| tasks := []; processing := processing q;
     next_handle := next_handle q; executing := executing q;
     dropped := dropped q ++ map handle (tasks q); log := log q |}.

(** The condition [waitAll] polls every 10 ms; it returns when it finds
    the condition false. *)
Definition waitAll_waits (q : queue) : bool :=
  bool_decide (0 < length (tasks q))%nat || processing q.

(** The rest of [_processNext] after [await], run when the promise of the
    task of handle [h] settles with [o]: [resolve(result)] or
    [reject(error)], then [finally]. *)
Definition on_settled (h : nat) (o : outcome V E) (q : queue) : queue :=
  if bool_decide (h ∈ executing q) then
    _processNext
      {| tasks := tasks q; processing := false;
         next_handle := next_handle q;
         executing := filter (fun x => x ≠ h) (executing q);
         dropped := dropped q;
         log := settle h o (log q) |}
  else q.

Inductive event : Type :=
| Add (t : call E)
| Clear
| Settle (h : nat) (o : outcome V E).

Definition step (q : queue) (ev : event) : queue :=
  match ev with
  | Add t => add t q
  | Clear => clear q
  | Settle h o => on_settled h o q
  end.

Definition run (q : queue) (evs : list event) : queue := foldl step q evs.

Definition is_clear (ev : event) : bool :=
  match ev with Clear => true | _ => false end.

Definition settle_events (l : list (nat * outcome V E)) : list event :=
  map (fun s => Settle s.1 s.2) l.

(** Settlements that the event loop can deliver one after the other: each
    one is of the task that is being executed when it is delivered. *)
Fixpoint deliverable (q : queue) (l : list (nat * outcome V E)) : Prop :=
  match l with
  | [] => True
  | s :: l' => s.1 ∈ executing q ∧ deliverable (on_settled s.1 s.2 q) l'
  end.

(** *** Invariant of the queue *)

(** The history of tasks run one after the other: each is started and
    settles before the next one is started. *)
Definition serial (done : list (nat * outcome V E)) : list (entry V E) :=
  flat_map (fun s => [Started s.1; Settled s.1 s.2]) done.

(** Between two callbacks: the history is serial, followed by the start of
    the task being awaited, if any; the flag is set exactly when a task is
    being awaited, and nothing waits while it is clear; the handles that
    ran, the one running and those waiting are, in this order, all the
    handles that [clear] has not discarded.  [idle_ok] is false inside
    [_processNext], between [finally] and the nested call. *)
Definition inv_with (idle_ok : bool) (done : list (nat * outcome V E))
    (q : queue) : Prop :=
  log q = serial done ++ (Started <$> executing q)
  ∧ (if processing q then length (executing q) = 1%nat
     else executing q = [] ∧ (idle_ok = true → tasks q = []))
  ∧ done.*1 ++ executing q ++ map handle (tasks q)
      = filter (fun h => h ∉ dropped q) (seq 0 (next_handle q))
  ∧ Forall (fun h => (h < next_handle q)%nat) (dropped q).

Definition inv (q : queue) : Prop := ∃ done, inv_with true done q.

End Queue.
Arguments queue : clear implicits.
Arguments event : clear implicits.
End AsyncQueue.

(** ** class RetryPolicy *)

Module RetryPolicy.
Section Retry.
(** [D] is the type of durations, [mul] its product ([currentDelay *=
    this.backoff]). *)
Context {V E D : Type} (mul : D -> D -> D).

(** [constructor(maxRetries = 3, delay = 1000, backoff = 2)] *)
Record policy : Type := Policy { maxRetries : Z; delay : D; backoff : D }.

(** What a call of [execute] did: how its promise settled ([lastError] is
    [undefined], here [None], when the loop body never ran), how many times
    it called [fn] and which durations it slept, in order (both ghost). *)
Record report : Type := Report {
  settled : outcome V (option E);
  attempts : nat;
  sleeps : list D
}.

(** The [for] loop of [execute] from the test [i <= this.maxRetries] on.
    [fn k] is how the call number [k] of the task settles; a call that
    throws is caught by the same [catch] as one whose promise rejects. *)
Equations? execute_from (p : policy) (fn : nat -> outcome V E)
    (i : Z) (lastError : option E) (currentDelay : D)
    (attempts : nat) (sleeps : list D) : report
    by wf (Z.to_nat (maxRetries p + 1 - i)) lt :=
  execute_from p fn i lastError currentDelay attempts sleeps
    with Z_le_dec i (maxRetries p) => {
    | right _ => Report (Rejected lastError) attempts sleeps
    | left _ with fn attempts => {
      | Fulfilled v => Report (Fulfilled v) (S attempts) sleeps
      | Rejected error with Z_lt_dec i (maxRetries p) => {
        | left _ =>
          execute_from p fn (i + 1) (Some error)
            (mul currentDelay (backoff p)) (S attempts) (sleeps ++ [currentDelay])
        | right _ =>
          execute_from p fn (i + 1) (Some error)
            currentDelay (S attempts) sleeps } } }.
Proof. all: lia. Qed.

(** [async execute(fn)] *)
Definition execute (p : policy) (fn : nat -> outcome V E) : report :=
  execute_from p fn 0 None (delay p) 0%nat [].

(** The durations of [n] successive waits that start at [d] and are
    multiplied by [b] after each wait. *)
Fixpoint backoff_delays (d b : D) (n : nat) : list D :=
  match n with
  | O => []
  | S n => d :: backoff_delays (mul d b) b n
  end.

End Retry.
Arguments policy : clear implicits.
Arguments report : clear implicits.
End RetryPolicy.

(** ** class Timeout *)

Module Timeout.
Section Race.
Context {V E : Type}.

(** The reasons the promise of [Timeout.promise] rejects with: the error of
    the computation, or [new Error('Promise timed out')]. *)
Inductive failure : Type :=
| TimedOut
| Failed (e : E).

(** [setTimeout] is a function of the host, not of the repository.
    [timer_delay ms] is the delay with which the host arms a timer that is
    asked for [ms] milliseconds (Node.js takes [ms] itself from 1 to
    [2^31 - 1] and 1 otherwise).  The host runs the callback of a timer
    once, in its timers phase, and never before the clock reads the time
    of the call plus that delay. *)
Variable timer_delay : Z -> Z.

(** What the event loop does after the call of [Timeout.promise], in the
    order in which it does it.  Each turn carries the reading of the clock,
    in milliseconds. *)
Inductive turn : Type :=
| Settles (now : Z) (o : outcome V E)
    (* the promise passed in settles with [o]; the reaction that
       [Promise.race] attached runs before the turn ends *)
| Timers (now : Z).
    (* the host looks at its timers and runs the callbacks that are due *)

Definition clock (tn : turn) : Z :=
  match tn with
  | Settles now _ => now
  | Timers now => now
  end.

(** The clock does not go back. *)
Fixpoint chronological (l : list turn) : Prop :=
  match l with
  | [] => True
  | tn :: l' => Forall (fun x => clock tn <= clock x) l' ∧ chronological l'
  end.

Definition is_timers (tn : turn) : Prop :=
  match tn with
  | Timers _ => True
  | Settles _ _ => False
  end.

(** How [Promise.race] adopts the outcome of the promise passed in. *)
Definition adopt (o : outcome V E) : outcome V failure :=
  match o with
  | Fulfilled v => Fulfilled v
  | Rejected e => Rejected (Failed e)
  end.

(** One turn seen from the promise that [Promise.race] returned: the first
    of its two inputs to settle settles it, and then it stays as it is.
    The second input is rejected by the callback of the timer, which the
    host runs in the first timers phase at or after [due]. *)
Definition race_step (due : Z) (st : option (outcome V failure)) (tn : turn)
    : option (outcome V failure) :=
  match st with
  | Some r => Some r
  | None =>
    match tn with
    | Settles _ o => Some (adopt o)
    | Timers now => if due <=? now then Some (Rejected TimedOut) else None
    end
  end.

(** [static promise(promise, timeoutMs)], called when the clock reads
    [start], observed after the turns [turns]. *)
Definition promise (start timeoutMs : Z) (turns : list turn)
    : option (outcome V failure) :=
  foldl (race_step (start + timer_delay timeoutMs)) None turns.

End Race.
Arguments failure : clear implicits.
Arguments turn : clear implicits.
End Timeout.

(** ** class CachePromise *)

Module CachePromise.
Section Memo.
Context {K : Type} `{Countable K} {V E : Type}.

(** A stored object [{ value, expiry }]; [expiry] is [null] or a number of
    milliseconds. *)
Record cached : Type := Cached { value : V; expiry : option Z }.

(** The instance: [this.cache], and (ghost) how many times [memoize] has
    called a task. *)
Record state : Type := State { cache : gmap K cached; invocations : nat }.

(** [constructor()] *)
Definition new : state := {| cache := ∅; invocations := 0%nat |}.

(** Truthiness of [null] or a number: [null] and [0] are falsy. *)
Definition truthy (x : option Z) : bool :=
  match x with
  | Some n => negb (n =? 0)
  | None => false
  end.

(** [!cached.expiry || Date.now() < cached.expiry] *)
Definition fresh (now : Z) (c : cached) : bool :=
  negb (truthy (expiry c)) ||
  match expiry c with Some x => now <? x | None => false end.

(** [async memoize(key, fn, ttl = null)].  [now] is [Date.now()] at the
    lookup, [fn] is how the task settles if it is called, and [now'] is
    [Date.now()] after the [await].  The call is taken as a whole: no other
    call on the same instance runs while it awaits its task. *)
Definition memoize (key : K) (fn : outcome V E) (ttl : option Z)
    (now now' : Z) (s : state) : state * outcome V E :=
  let miss (m : gmap K cached) :=
    match fn with
    | Fulfilled v =>
      let expiry := if truthy ttl then (fun t => now' + t) <$> ttl else None in
      ({| cache := <[key := Cached v expiry]> m;
          invocations := S (invocations s) |}, Fulfilled v)
    | Rejected e =>
      ({| cache := m; invocations := S (invocations s) |}, Rejected e)
    end in
  match cache s !! key with
  | Some c =>
    if fresh now c then (s, Fulfilled (value c))
    else miss (delete key (cache s))
  | None => miss (cache s)
  end.

(** Truthiness of a key, as [if (key)] tests it: among the values a key can
    be, [0], [NaN], the empty string, [null], [undefined] and [false] are
    falsy.  Which keys these are depends on the type of the keys. *)
Variable truthy_key : K -> bool.

(** [clear(key)]: [if (key) this.cache.delete(key); else this.cache.clear()].
    [None] is a call without an argument. *)
Definition clear (key : option K) (s : state) : state :=
  match key with
  | Some k =>
    if truthy_key k
    then {| cache := delete k (cache s); invocations := invocations s |}
    else {| cache := ∅; invocations := invocations s |}
  | None => {| cache := ∅; invocations := invocations s |}
  end.

(** [size()] *)
Definition size (s : state) : nat := base.size (cache s).

(** *** The words of the specification *)

(** An entry is usable when it has no expiry or its expiry has not
    passed. *)
Definition unexpired (now : Z) (c : cached) : bool :=
  match expiry c with
  | None => true
  | Some x => now <? x
  end.

(** The expiry of a new entry: the current time plus [ttl], or none when
    [ttl] is absent or zero. *)
Definition expiry_for (ttl : option Z) (now : Z) : option Z :=
  match ttl with
  | Some t => if t =? 0 then None else Some (now + t)
  | None => None
  end.

End Memo.
Arguments cached : clear implicits.
Arguments state K {_ _} V.
End CachePromise.

(** ** class AsyncIterator *)

Module AsyncIterator.
Section Iter.
Context {A : Type}.

(** [static async *fromArray(arr)]: the items it yields. *)
Definition fromArray (arr : list A) : list A := arr.

(** The [for await] loop of [batch] over the items the source yields, with
    the current [batch] array; the result is the sequence of arrays
    yielded.  After a [yield] the variable is bound to a new array, so no
    yielded array is touched again. *)
Fixpoint batch_from (source : list A) (batchSize : Z) (batch : list A)
    : list (list A) :=
  match source with
  | [] => if bool_decide (0 < length batch)%nat then [batch] else []
  | item :: rest =>
    let batch := batch ++ [item] in
    if Z.of_nat (length batch) =? batchSize
    then batch :: batch_from rest batchSize []
    else batch_from rest batchSize batch
  end.

(** [static async *batch(asyncIterable, batchSize)] *)
Definition batch (asyncIterable : list A) (batchSize : Z) : list (list A) :=
  batch_from asyncIterable batchSize [].

End Iter.
End AsyncIterator.

(** ** Traces of a pool *)

Module PoolTrace.
Section Trace.
Context {V E : Type}.

(** The tasks handed to [add], in the order of the calls: the task of
    handle [h] is the one at index [h]. *)
Definition added (evs : list (PromisePool.event V E)) : list (call E) :=
  omap (fun ev => match ev with
                  | PromisePool.Add t => Some t
                  | PromisePool.Settle _ _ => None
                  end) evs.

(** The task at index [h] throws when it is called. *)
Definition throws_at (tasks : list (call E)) (h : nat) : bool :=
  match tasks !! h with
  | Some (Throws _) => true
  | _ => false
  end.

(** How many of the handles [hs] belong to tasks that throw when called. *)
Definition thrown (tasks : list (call E)) (hs : list nat) : nat :=
  length (filter (fun h => throws_at tasks h = true) hs).

(** The running count is the number of pending tasks plus the number of
    tasks called so far that threw, when the waiting items carry the tasks
    that [tasks] lists for their handles. *)
Definition accounted (tasks : list (call E)) (p : PromisePool.pool V E) : Prop :=
  (∀ it, it ∈ PromisePool.queue p → tasks !! handle it = Some (task it))
  ∧ PromisePool.running p
    = Z.of_nat (length (PromisePool.inflight p))
      + Z.of_nat (thrown tasks (started_handles (PromisePool.log p))).

End Trace.
End PoolTrace.

(** ** class TaskQueue (src/config.js, lines 1188-1251) *)

Module TaskQueue.
Section Queue.
(** [nullish e] tells whether the thrown value [e] is [null] or
    [undefined]: reading [error.message] of such a value throws. *)
Context {V E : Type} (nullish : E -> bool).

Inductive status : Type := pending | running_ | completed_ | failed_.

(** A queue item.  [handle] (ghost) is the number of [enqueue] calls made
    before the one that created it; [error] stands for the stored
    [error.message].  The fields [id] and [createdAt], which no method
    reads, are left out. *)
Record item : Type := Item {
  handle : nat;
  task : call E;
  priority : Z;
  state : status;
  error : option E
}.

Definition with_status (st : status) (err : option E) (it : item) : item :=
  {| handle := handle it; task := task it; priority := priority it;
     state := st; error := err |}.

Record taskqueue : Type := TaskQueue {
  queue : list item;
  running : Z;
  concurrency : Z;
  completed : list item;
  failed : list item;
  next_handle : nat;       (* ghost: number of [enqueue] calls so far *)
  executing : list item;   (* ghost: items whose task is awaited *)
  lost : list item         (* ghost: items whose [catch] block threw *)
}.

(** [constructor(concurrency = 3)] *)
Definition new (c : Z) : taskqueue :=
  {| queue := []; running := 0; concurrency := c; completed := [];
     failed := []; next_handle := 0%nat; executing := []; lost := [] |}.

(** [this.queue.sort((a, b) => b.priority - a.priority)].  The sort of
    arrays is stable, so for integer priorities its result is the one of
    any stable sort by decreasing priority; this is insertion sort. *)
Fixpoint insert_by_priority (x : item) (l : list item) : list item :=
  match l with
  | [] => [x]
  | y :: l' =>
    if priority y <=? priority x then x :: y :: l'
    else y :: insert_by_priority x l'
  end.

Definition sort_by_priority (l : list item) : list item :=
  foldr insert_by_priority [] l.

(** [async process()] up to its suspension or return, and the part of it
    that follows [await].  [after_task it o tq] is what happens once the
    task of [it] has thrown or settled: the [try] branch on success, the
    [catch] block on failure, where [error.message] throws for a nullish
    error and so ends the function before [this.running--]; otherwise
    [this.running--] and [this.process()]. *)
Fixpoint process (fuel : nat) (tq : taskqueue) : taskqueue :=
  match fuel with
  | O => tq
  | S fuel =>
    if (concurrency tq <=? running tq) then tq else
    match queue tq with
    | [] => tq
    | it :: rest =>
      let it := with_status running_ None it in
      match task it with
      | Returns =>
        {| queue := rest; running := running tq + 1;
           concurrency := concurrency tq; completed := completed tq;
           failed := failed tq; next_handle := next_handle tq;
           executing := executing tq ++ [it]; lost := lost tq |}
      | Throws e =>
        if nullish e then
          {| queue := rest; running := running tq + 1;
             concurrency := concurrency tq; completed := completed tq;
             failed := failed tq; next_handle := next_handle tq;
             executing := executing tq;
             lost := lost tq ++ [with_status failed_ None it] |}
        else
          process fuel
            {| queue := rest; running := running tq + 1 - 1;
               concurrency := concurrency tq; completed := completed tq;
               failed := failed tq ++ [with_status failed_ (Some e) it];
               next_handle := next_handle tq;
               executing := executing tq; lost := lost tq |}
      end
    end
  end.

(** Every nested call of [process] follows a shift. *)
Definition process_all (tq : taskqueue) : taskqueue :=
  process (S (length (queue tq))) tq.

(** [enqueue(task, priority = 0)] *)
Definition enqueue (t : call E) (prio : Z) (tq : taskqueue) : taskqueue :=
  process_all
    {| queue := sort_by_priority
                  (queue tq ++ [Item (next_handle tq) t prio pending None]);
       running := running tq; concurrency := concurrency tq;
       completed := completed tq; failed := failed tq;
       next_handle := S (next_handle tq);
       executing := executing tq; lost := lost tq |}.

(** The rest of [process] after [await], for the awaited item of handle
    [h] whose task settled with [o]. *)
Definition on_settled (h : nat) (o : outcome V E) (tq : taskqueue) : taskqueue :=
  match list_find (fun it => handle it = h) (executing tq) with
  | None => tq
  | Some (_, it) =>
    let others := filter (fun x => handle x ≠ h) (executing tq) in
    match o with
    | Fulfilled _ =>
      process_all
        {| queue := queue tq; running := running tq - 1;
           concurrency := concurrency tq;
           completed := completed tq ++ [with_status completed_ None it];
           failed := failed tq; next_handle := next_handle tq;
           executing := others; lost := lost tq |}
    | Rejected e =>
      if nullish e then
        {| queue := queue tq; running := running tq;
           concurrency := concurrency tq; completed := completed tq;
           failed := failed tq; next_handle := next_handle tq;
           executing := others;
           lost := lost tq ++ [with_status failed_ None it] |}
      else
        process_all
          {| queue := queue tq; running := running tq - 1;
             concurrency := concurrency tq; completed := completed tq;
             failed := failed tq ++ [with_status failed_ (Some e) it];
             next_handle := next_handle tq;
             executing := others; lost := lost tq |}
    end
  end.

(** [clear()] *)
Definition clear (tq : taskqueue) : taskqueue :=
  {| queue := []; running := running tq; concurrency := concurrency tq;
     completed := completed tq; failed := failed tq;
     next_handle := next_handle tq; executing := executing tq;
     lost := lost tq |}.

(** [getStats()]: pending, running, completed, failed. *)
Definition getStats (tq : taskqueue) : nat * Z * nat * nat :=
  (length (queue tq), running tq, length (completed tq), length (failed tq)).

Inductive event : Type :=
| Enqueue (t : call E) (prio : Z)
| Settle (h : nat) (o : outcome V E)
| Clear.

Definition step (tq : taskqueue) (ev : event) : taskqueue :=
  match ev with
  | Enqueue t prio => enqueue t prio tq
  | Settle h o => on_settled h o tq
  | Clear => clear tq
  end.

Definition run (tq : taskqueue) (evs : list event) : taskqueue :=
  foldl step tq evs.

(** [a] is served before [b]: higher priority first, and the earlier
    [enqueue] first among equal priorities. *)
Definition before (a b : item) : Prop :=
  priority b < priority a
  ∨ (priority a = priority b ∧ (handle a < handle b)%nat).

(** Every item is served before all the items behind it. *)
Fixpoint in_service_order (l : list item) : Prop :=
  match l with
  | [] => True
  | x :: l' => Forall (before x) l' ∧ in_service_order l'
  end.

(** *** Invariant of the task queue *)

Record linv (tq : taskqueue) : Prop := LInv {
  inv_sorted : in_service_order (queue tq);
  inv_handles : NoDup (map handle (queue tq ++ executing tq));
  inv_fresh : ∀ it, it ∈ queue tq ++ executing tq →
                    (handle it < next_handle tq)%nat;
  inv_running : running tq = Z.of_nat (length (executing tq))
                             + Z.of_nat (length (lost tq))
}.

(** The number of items the task queue holds, in any list. *)
Definition held (tq : taskqueue) : nat :=
  (length (queue tq) + length (executing tq) + length (lost tq)
   + length (completed tq) + length (failed tq))%nat.

(** No item waits while a slot is free. *)
Definition idle (tq : taskqueue) : Prop :=
  running tq < concurrency tq → queue tq = [].

Definition inv (tq : taskqueue) : Prop := linv tq ∧ idle tq.

Definition is_clear (ev : event) : bool :=
  match ev with Clear => true | _ => false end.

(** The number of [enqueue] calls in a trace. *)
Fixpoint enqueues (evs : list event) : nat :=
  match evs with
  | [] => 0
  | Enqueue _ _ :: evs => S (enqueues evs)
  | _ :: evs => enqueues evs
  end.

End Queue.
Arguments item : clear implicits.
Arguments taskqueue : clear implicits.
Arguments event : clear implicits.
End TaskQueue.

(** ** class CacheEntry, class Cache (src/config.js, lines 602-844) *)

(** [Date.now()] is the clock of the environment: every reading that a
    method makes is an argument of its model, in the order of the readings.
    Values are the values other than [undefined], which [get] uses for
    "no value". *)

Module CacheEntry.
Section Entry.
Context {K V : Type}.

Record entry : Type := Entry {
  key : K;
  value : V;
  createdAt : Z;
  accessedAt : Z;
  ttl : option Z;      (* [null] or a number *)
  hits : nat
}.

(** [constructor(key, value, ttl = null)], which reads the clock twice. *)
Definition new (k : K) (v : V) (t : option Z) (created accessed : Z) : entry :=
  {| key := k; value := v; createdAt := created; accessedAt := accessed;
     ttl := t; hits := 0 |}.

(** [isExpired()]: [if (!this.ttl) return false;
    return Date.now() - this.createdAt > this.ttl] *)
Definition isExpired (now : Z) (e : entry) : bool :=
  match ttl e with
  | None => false
  | Some t => if t =? 0 then false else t <? now - createdAt e
  end.

(** [touch()] *)
Definition touch (now : Z) (e : entry) : entry :=
  {| key := key e; value := value e; createdAt := createdAt e;
     accessedAt := now; ttl := ttl e; hits := S (hits e) |}.

End Entry.
Arguments entry : clear implicits.
End CacheEntry.

Module Cache.
Section LRU.
Context {K V : Type} `{EqDecision K}.

Let entry : Type := CacheEntry.entry K V.

Record statistics : Type := Stats {
  hits : nat; misses : nat; evictions : nat; expirations : nat
}.

(** [this.entries] is a [Map]: its keys are distinct and it iterates in
    the order of insertion; here a list of pairs in that order. *)
Record cache : Type := Cache {
  maxSize : Z;
  defaultTTL : option Z;
  entries : list (K * entry);
  stats : statistics
}.

(** [Map.prototype.get], [delete], [has]; [map_touch] is the update in
    place that [entry.touch()] makes to the stored object. *)
Definition map_get (k : K) (m : list (K * entry)) : option entry :=
  match list_find (fun p => p.1 = k) m with
  | Some (_, p) => Some p.2
  | None => None
  end.

Definition map_delete (k : K) (m : list (K * entry)) : list (K * entry) :=
  filter (fun p => p.1 ≠ k) m.

Definition map_has (k : K) (m : list (K * entry)) : bool :=
  bool_decide (k ∈ m.*1).

Definition map_touch (k : K) (now : Z) (m : list (K * entry))
    : list (K * entry) :=
  (fun p => if decide (p.1 = k) then (p.1, CacheEntry.touch now p.2) else p)
    <$> m.

(** [constructor(maxSize = 100, defaultTTL = null)] *)
Definition new (size : Z) (default : option Z) : cache :=
  {| maxSize := size; defaultTTL := default; entries := [];
     stats := Stats 0 0 0 0 |}.

(** [get(key)]: [isExpired()] reads the clock at [now], [touch()] at
    [touched]. *)
Definition get (k : K) (now touched : Z) (c : cache) : cache * option V :=
  match map_get k (entries c) with
  | None =>
    ({| maxSize := maxSize c; defaultTTL := defaultTTL c;
        entries := entries c;
        stats := Stats (hits (stats c)) (S (misses (stats c)))
                   (evictions (stats c)) (expirations (stats c)) |}, None)
  | Some e =>
    if CacheEntry.isExpired now e then
      ({| maxSize := maxSize c; defaultTTL := defaultTTL c;
          entries := map_delete k (entries c);
          stats := Stats (hits (stats c)) (S (misses (stats c)))
                     (evictions (stats c)) (S (expirations (stats c))) |},
       None)
    else
      ({| maxSize := maxSize c; defaultTTL := defaultTTL c;
          entries := map_touch k touched (entries c);
          stats := Stats (S (hits (stats c))) (misses (stats c))
                     (evictions (stats c)) (expirations (stats c)) |},
       Some (CacheEntry.value e))
  end.

(** [_getLRUKey()]: the loop, with [lruTime = Infinity] as [None]. *)
Fixpoint lru_from (m : list (K * entry)) (lruKey : option K)
    (lruTime : option Z) : option K :=
  match m with
  | [] => lruKey
  | (k, e) :: m' =>
    if match lruTime with
       | None => true
       | Some t => CacheEntry.accessedAt e <? t
       end
    then lru_from m' (Some k) (Some (CacheEntry.accessedAt e))
    else lru_from m' lruKey lruTime
  end.

Definition _getLRUKey (c : cache) : option K := lru_from (entries c) None None.

(** [set(key, value, ttl = this.defaultTTL)]; [ttl] is [None] when the
    argument is left out.  [this.entries.delete(null)], which the code
    calls when the map is empty, removes nothing. *)
Definition set (k : K) (v : V) (ttl : option (option Z))
    (created accessed : Z) (c : cache) : cache :=
  let ttl := match ttl with Some t => t | None => defaultTTL c end in
  let m1 := if map_has k (entries c) then map_delete k (entries c)
            else entries c in
  let evict := maxSize c <=? Z.of_nat (length m1) in
  let m2 := if evict then
              match lru_from m1 None None with
              | Some lruKey => map_delete lruKey m1
              | None => m1
              end
            else m1 in
  {| maxSize := maxSize c; defaultTTL := defaultTTL c;
     entries := m2 ++ [(k, CacheEntry.new k v ttl created accessed)];
     stats := if evict
              then Stats (hits (stats c)) (misses (stats c))
                     (S (evictions (stats c))) (expirations (stats c))
              else stats c |}.

(** [has(key)] *)
Definition has (k : K) (now : Z) (c : cache) : cache * bool :=
  match map_get k (entries c) with
  | None => (c, false)
  | Some e =>
    if CacheEntry.isExpired now e then
      ({| maxSize := maxSize c; defaultTTL := defaultTTL c;
          entries := map_delete k (entries c); stats := stats c |}, false)
    else (c, true)
  end.

(** [delete(key)] *)
Definition delete (k : K) (c : cache) : cache * bool :=
  ({| maxSize := maxSize c; defaultTTL := defaultTTL c;
      entries := map_delete k (entries c); stats := stats c |},
   map_has k (entries c)).

(** [clear()] *)
Definition clear (c : cache) : cache :=
  {| maxSize := maxSize c; defaultTTL := defaultTTL c; entries := [];
     stats := stats c |}.

(** [size()], [keys()] *)
Definition size (c : cache) : nat := length (entries c).

Definition keys (c : cache) : list K := (entries c).*1.

(** [resetStats()] *)
Definition resetStats (c : cache) : cache :=
  {| maxSize := maxSize c; defaultTTL := defaultTTL c; entries := entries c;
     stats := Stats 0 0 0 0 |}.

(** [getOrCompute(key, computeFunc, ttl = this.defaultTTL)]; [computed] is
    what [computeFunc()] returns if it is called.  (If [computeFunc()]
    throws, the call has done what [get(key)] does.) *)
Definition getOrCompute (k : K) (computed : V) (ttl : option (option Z))
    (now touched created accessed : Z) (c : cache) : cache * V :=
  match get k now touched c with
  | (c', Some cached) => (c', cached)
  | (c', None) => (set k computed ttl created accessed c', computed)
  end.

(** The first loop of [evictExpired()], at the entry number [i] in the
    order of iteration; [clock i] is the reading that [isExpired()] makes
    for that entry. *)
Fixpoint expired_from (clock : nat -> Z) (i : nat) (m : list (K * entry))
    : list K :=
  match m with
  | [] => []
  | p :: m' =>
    if CacheEntry.isExpired (clock i) p.2
    then p.1 :: expired_from clock (S i) m'
    else expired_from clock (S i) m'
  end.

(** [evictExpired()] *)
Definition evictExpired (clock : nat -> Z) (c : cache) : cache * nat :=
  let keysToDelete := expired_from clock 0 (entries c) in
  ({| maxSize := maxSize c; defaultTTL := defaultTTL c;
      entries := foldl (fun m k => map_delete k m) (entries c) keysToDelete;
      stats := Stats (hits (stats c)) (misses (stats c)) (evictions (stats c))
                 (expirations (stats c) + length keysToDelete) |},
   length keysToDelete).

Inductive op : Type :=
| Get (k : K) (now touched : Z)
| Set_ (k : K) (v : V) (ttl : option (option Z)) (created accessed : Z)
| Has (k : K) (now : Z)
| Delete (k : K)
| Clear
| ResetStats
| GetOrCompute (k : K) (computed : V) (ttl : option (option Z))
    (now touched created accessed : Z)
| EvictExpired (clock : nat -> Z).

Definition step (c : cache) (o : op) : cache :=
  match o with
  | Get k now touched => (get k now touched c).1
  | Set_ k v ttl created accessed => set k v ttl created accessed c
  | Has k now => (has k now c).1
  | Delete k => (delete k c).1
  | Clear => clear c
  | ResetStats => resetStats c
  | GetOrCompute k v ttl now touched created accessed =>
    (getOrCompute k v ttl now touched created accessed c).1
  | EvictExpired clock => (evictExpired clock c).1
  end.

Definition run (c : cache) (ops : list op) : cache := foldl step c ops.

(** The number of calls of [get] that a sequence of operations makes. *)
Fixpoint gets (ops : list op) : nat :=
  match ops with
  | [] => 0
  | (Get _ _ _ | GetOrCompute _ _ _ _ _ _ _) :: ops => S (gets ops)
  | _ :: ops => gets ops
  end.

Definition is_resetStats (o : op) : bool :=
  match o with ResetStats => true | _ => false end.

(** The keys of the map are distinct and the map holds at most [maxSize]
    entries. *)
Definition bounded (c : cache) : Prop :=
  NoDup (entries c).*1 ∧ Z.of_nat (length (entries c)) <= maxSize c.

End LRU.
Arguments cache : clear implicits.
Arguments cache K V : clear implicits.
Arguments op : clear implicits.
Arguments op K V : clear implicits.
End Cache.

(** ** MathUtils (src/config.js, lines 250-597)

  JavaScript numbers that hold integers are modelled by [Z].  On such
  numbers [a % b] is exact and is the remainder of the division that
  truncates towards zero, [Z.rem]; [+] and [*] are exact up to [2^53]. *)
Module MathUtils.

(** [static gcd(a, b)] *)
Equations? gcd (a b : Z) : Z by wf (Z.abs_nat b) lt :=
  gcd a b with Z.eq_dec b 0 => {
    | left _ => a
    | right _ => gcd b (Z.rem a b) }.
Proof.
  pose proof (Z.rem_bound_abs a b). lia.
Qed.

(** The [for] loop of [isPrime], entered with the value [i] of its
    counter. *)
Equations? isPrime_from (n i : Z) : bool by wf (Z.to_nat (n + 1 - i)) lt :=
  isPrime_from n i with Z_le_dec (i * i) n => {
    | right _ => true
    | left _ =>
      if (Z.rem n i =? 0) || (Z.rem n (i + 2) =? 0) then false
      else isPrime_from n (i + 6) }.
Proof. nia. Qed.

(** [static isPrime(n)] *)
Definition isPrime (n : Z) : bool :=
  if n <=? 1 then false
  else if n <=? 3 then true
  else if (Z.rem n 2 =? 0) || (Z.rem n 3 =? 0) then false
  else isPrime_from n 5.

End MathUtils.


(** * Properties *)

(** ** The ghost history *)

(** Membership in lists built with [++] and [::]. *)
Ltac mem :=
  repeat match goal with
  | H : _ ∈ [] |- _ => by apply elem_of_nil in H
  | H : _ ∈ _ ++ _ |- _ => apply elem_of_app in H
  | H : _ ∈ _ :: _ |- _ => apply elem_of_cons in H
  end;
  repeat (rewrite elem_of_app || rewrite list_elem_of_singleton
          || rewrite elem_of_cons || rewrite elem_of_nil);
  first [tauto | naive_solver].

Section HistoryFacts.
Context {V E : Type}.
Implicit Types l : list (entry V E).

Lemma started_handles_app l1 l2 :
  started_handles (l1 ++ l2) = started_handles l1 ++ started_handles l2.
Proof. apply omap_app. Qed.

Lemma settled_handles_app l1 l2 :
  settled_handles (l1 ++ l2) = settled_handles l1 ++ settled_handles l2.
Proof. apply omap_app. Qed.

Lemma settlements_app l1 l2 :
  settlements (l1 ++ l2) = settlements l1 ++ settlements l2.
Proof. apply omap_app. Qed.

Lemma settled_handles_settlements l :
  settled_handles l = (settlements l).*1.
Proof.
  induction l as [|[h|h o] l IH]; simpl; [done|done|].
  unfold settled_handles, settlements in *. simpl. by rewrite IH.
Qed.

Lemma started_handles_snoc l h :
  started_handles (l ++ [Started h]) = started_handles l ++ [h].
Proof. by rewrite started_handles_app. Qed.

Lemma settled_handles_snoc_started l h :
  settled_handles (l ++ [Started h]) = settled_handles l.
Proof. rewrite settled_handles_app. simpl. by rewrite app_nil_r. Qed.

Lemma settlements_snoc_started l h :
  settlements (l ++ [Started h]) = settlements l.
Proof. rewrite settlements_app. simpl. by rewrite app_nil_r. Qed.

Lemma started_handles_settle h o l :
  started_handles (settle h o l) = started_handles l.
Proof.
  unfold settle. case_bool_decide; [done|].
  rewrite started_handles_app. simpl. by rewrite app_nil_r.
Qed.

Lemma settle_fresh h o l :
  h ∉ settled_handles l → settle h o l = l ++ [Settled h o].
Proof. intros Hn. unfold settle. by rewrite bool_decide_eq_false_2. Qed.

Lemma settled_handles_settle h o l h' :
  h' ∈ settled_handles (settle h o l) ↔ h' = h ∨ h' ∈ settled_handles l.
Proof.
  unfold settle. case_bool_decide as Hin.
  - split; [by right|]. intros [->|?]; done.
  - rewrite settled_handles_app. simpl. mem.
Qed.

Lemma settle_NoDup h o l :
  NoDup (settled_handles l) → NoDup (settled_handles (settle h o l)).
Proof.
  intros Hnd. unfold settle. case_bool_decide as Hin; [done|].
  rewrite settled_handles_app. simpl. apply NoDup_app. split_and!; [done| |].
  - intros x Hx ->%list_elem_of_singleton. done.
  - apply NoDup_singleton.
Qed.

Lemma settle_prefix h o l : l `prefix_of` settle h o l.
Proof.
  unfold settle. case_bool_decide; [done|]. by apply prefix_app_r.
Qed.
End HistoryFacts.

(** ** PromisePool *)

Module PromisePoolSpec.
Import PromisePool.
Section PoolFacts.
Context {V E : Type}.
Implicit Types p : pool V E.

Lemma process_loop_concurrency fuel p :
  concurrency (process_loop fuel p).1 = concurrency p.
Proof.
  revert p. induction fuel as [|fuel IH]; intros p; simpl; [done|].
  destruct (queue p) as [|it rest]; [done|].
  destruct (running p <? concurrency p); [|done].
  destruct (task it); [done|]. by rewrite IH.
Qed.

Lemma process_loop_next_handle fuel p :
  next_handle (process_loop fuel p).1 = next_handle p.
Proof.
  revert p. induction fuel as [|fuel IH]; intros p; simpl; [done|].
  destruct (queue p) as [|it rest]; [done|].
  destruct (running p <? concurrency p); [|done].
  destruct (task it); [done|]. by rewrite IH.
Qed.

(** The loop keeps the bound whatever the number of passes: the bound holds
    between any two passes, not only when the loop is left. *)
Lemma process_loop_bounded fuel p :
  bounded p → bounded (process_loop fuel p).1.
Proof.
  revert p. induction fuel as [|fuel IH]; intros p Hb; simpl; [done|].
  destruct (queue p) as [|it rest]; [done|].
  destruct (running p <? concurrency p) eqn:Hlt; [|done].
  apply Z.ltb_lt in Hlt. destruct Hb as [Hr Hp Hi].
  destruct (task it).
  - simpl. split; simpl; lia.
  - apply IH. split; simpl; [lia|lia|]. rewrite length_app. simpl. lia.
Qed.

Lemma add_bounded t p : bounded p → bounded (add t p).
Proof.
  intros Hb. unfold add, _process.
  match goal with |- context [process_loop ?f ?q] =>
    pose proof (process_loop_bounded f q) as Hl;
    destruct (process_loop f q) as [p2 [e|]] end;
  simpl in Hl; (destruct Hl as [? ? ?]; [by destruct Hb|]); by split.
Qed.

Lemma on_settled_bounded h o p : bounded p → bounded (on_settled h o p).
Proof.
  intros [Hr Hp Hi]. unfold on_settled. case_bool_decide as Hin; [|done].
  apply process_loop_bounded. split; simpl; [lia|lia|].
  pose proof (length_filter_lt (fun x => x ≠ h) (inflight p) h Hin) as Hlen.
  lapply Hlen; [lia|]. by intros ?.
Qed.

Lemma step_bounded p ev : bounded p → bounded (step p ev).
Proof. destruct ev; [apply add_bounded|apply on_settled_bounded]. Qed.

Lemma run_bounded evs p : bounded p → bounded (run p evs).
Proof.
  revert p. induction evs as [|ev evs IH]; intros p Hb; [done|].
  apply IH, step_bounded, Hb.
Qed.

Lemma run_app p evs1 evs2 : run p (evs1 ++ evs2) = run (run p evs1) evs2.
Proof. apply foldl_app. Qed.

Lemma run_snoc p evs ev : run p (evs ++ [ev]) = step (run p evs) ev.
Proof. by rewrite run_app. Qed.

(** Why [_process] may stop after [length (queue p)] passes: it is left by
    an exception, or with the condition of the [while] false. *)
Lemma process_loop_done fuel p :
  (length (queue p) <= fuel)%nat →
  (process_loop fuel p).2 = None →
  (running (process_loop fuel p).1 <? concurrency (process_loop fuel p).1) = false
  ∨ queue (process_loop fuel p).1 = [].
Proof.
  revert p. induction fuel as [|fuel IH]; intros p Hf; simpl.
  - right. destruct (queue p); [done|simpl in Hf; lia].
  - destruct (queue p) as [|it rest] eqn:Hq; [by right|].
    destruct (running p <? concurrency p) eqn:Hlt; [|by left].
    destruct (task it); [done|]. apply IH. simpl in *. lia.
Qed.

Lemma process_loop_S fuel p :
  process_loop (S fuel) p =
    match queue p with
    | [] => (p, None)
    | it :: rest =>
      if running p <? concurrency p then
        match task it with
        | Throws e =>
          ({| concurrency := concurrency p; running := running p + 1;
              queue := rest; next_handle := next_handle p;
              inflight := inflight p;
              log := log p ++ [Started (handle it)];
              peak := Z.max (peak p) (running p + 1) |}, Some e)
        | Returns =>
          process_loop fuel
            {| concurrency := concurrency p; running := running p + 1;
               queue := rest; next_handle := next_handle p;
               inflight := inflight p ++ [handle it];
               log := log p ++ [Started (handle it)];
               peak := Z.max (peak p) (running p + 1) |}
        end
      else (p, None)
    end.
Proof.
  simpl. destruct (queue p) as [|it rest]; [done|].
  destruct (running p <? concurrency p); [|done]. by destruct (task it).
Qed.

(** More passes than [_process] allows itself change nothing. *)
Lemma process_loop_more fuel p :
  (length (queue p) <= fuel)%nat →
  process_loop (S fuel) p = process_loop fuel p.
Proof.
  revert p. induction fuel as [|fuel IH]; intros p Hf.
  - rewrite process_loop_S. simpl.
    destruct (queue p); [done|simpl in Hf; lia].
  - rewrite (process_loop_S (S fuel)), (process_loop_S fuel).
    destruct (queue p) as [|it rest]; [done|].
    destruct (running p <? concurrency p); [|done].
    destruct (task it); [done|]. apply IH. simpl in *. lia.
Qed.

Lemma process_loop_full fuel p :
  ¬ running p < concurrency p → process_loop fuel p = (p, None).
Proof.
  intros Hn. destruct fuel; simpl; [done|].
  destruct (queue p); [done|].
  destruct (Z.ltb_spec (running p) (concurrency p)); [lia|done].
Qed.

Lemma order_started_lt p h :
  started_handles (log p) ++ map handle (queue p) = seq 0 (next_handle p) →
  h ∈ started_handles (log p) → (h < next_handle p)%nat.
Proof.
  intros Ho Hin.
  assert (h ∈ seq 0 (next_handle p)) as Hs by (rewrite <- Ho; mem).
  apply elem_of_seq in Hs. lia.
Qed.

Lemma order_head_fresh p it rest :
  started_handles (log p) ++ map handle (queue p) = seq 0 (next_handle p) →
  queue p = it :: rest → handle it ∉ started_handles (log p).
Proof.
  intros Ho Hq Hin. rewrite Hq in Ho. simpl in Ho.
  pose proof (NoDup_seq 0 (next_handle p)) as Hnd. rewrite <- Ho in Hnd.
  apply NoDup_app in Hnd as (_ & Hdis & _). apply (Hdis _ Hin). mem.
Qed.

Lemma process_loop_linv fuel p : linv p → linv (process_loop fuel p).1.
Proof.
  revert p. induction fuel as [|fuel IH]; intros p Hi; simpl; [done|].
  destruct (queue p) as [|it rest] eqn:Hq; [done|].
  destruct (running p <? concurrency p) eqn:Hlt; [|done].
  pose proof (order_head_fresh p it rest (inv_order p Hi) Hq) as Hfresh.
  destruct Hi as [Ho Hc Hnd Hp Hs Hon]. rewrite Hq in Ho. simpl in Ho.
  assert (linv {| concurrency := concurrency p; running := running p + 1;
                  queue := rest; next_handle := next_handle p;
                  inflight := inflight p;
                  log := log p ++ [Started (handle it)];
                  peak := Z.max (peak p) (running p + 1) |}) as Hi1.
  { split; simpl.
    - rewrite started_handles_snoc, <- app_assoc. done.
    - lia.
    - done.
    - intros h Hh. rewrite started_handles_snoc, settled_handles_snoc_started.
      destruct (Hp h Hh). split; [mem|done].
    - intros h. rewrite started_handles_snoc, settled_handles_snoc_started.
      intros Hh. apply Hs in Hh. mem.
    - by rewrite settled_handles_snoc_started. }
  destruct (task it); [done|].
  apply IH. destruct Hi1 as [Ho1 Hc1 Hnd1 Hp1 Hs1 Hon1]. simpl in *.
  split; simpl; try done.
  - rewrite length_app. simpl. lia.
  - apply NoDup_app. split_and!; [done| |apply NoDup_singleton].
    intros x Hx ->%list_elem_of_singleton. by apply Hp in Hx as [? _].
  - intros h [Hh| ->%list_elem_of_singleton]%elem_of_app; [by apply Hp1|].
    rewrite started_handles_snoc, settled_handles_snoc_started.
    split; [mem|]. intros Hh. by apply Hs in Hh.
Qed.

Lemma process_loop_idle fuel p :
  (length (queue p) <= fuel)%nat →
  (running p + 1 < concurrency p → (length (queue p) <= 1)%nat) →
  idle (process_loop fuel p).1.
Proof.
  revert p. induction fuel as [|fuel IH]; intros p Hf Hquasi; simpl.
  - intros _. destruct (queue p); [done|simpl in Hf; lia].
  - destruct (queue p) as [|it rest] eqn:Hq; [intros _; done|].
    destruct (Z.ltb_spec (running p) (concurrency p)) as [Hlt|Hge];
      [|unfold idle; simpl; intros ?; lia].
    simpl in Hf, Hquasi. destruct (task it).
    + unfold idle. simpl. intros Hlt'. destruct rest; [done|simpl in *; lia].
    + apply IH; simpl; [lia|]. intros Hlt'. destruct rest; simpl in *; lia.
Qed.

Lemma new_inv c : inv (@new V E c).
Proof.
  split; [split; simpl; try done; try apply NoDup_nil_2|done];
    intros h Hh; by apply elem_of_nil in Hh.
Qed.

Lemma add_busy t p :
  ¬ running p < concurrency p →
  add t p = {| concurrency := concurrency p; running := running p;
               queue := queue p ++ [Item (next_handle p) t];
               next_handle := S (next_handle p);
               inflight := inflight p; log := log p; peak := peak p |}.
Proof. intros Hn. unfold add, _process. by rewrite process_loop_full. Qed.

Lemma add_free t p :
  running p < concurrency p → queue p = [] →
  add t p =
    match t with
    | Throws e =>
      {| concurrency := concurrency p; running := running p + 1;
         queue := []; next_handle := S (next_handle p);
         inflight := inflight p;
         log := settle (next_handle p) (Rejected e)
                  (log p ++ [Started (next_handle p)]);
         peak := Z.max (peak p) (running p + 1) |}
    | Returns =>
      {| concurrency := concurrency p; running := running p + 1;
         queue := []; next_handle := S (next_handle p);
         inflight := inflight p ++ [next_handle p];
         log := log p ++ [Started (next_handle p)];
         peak := Z.max (peak p) (running p + 1) |}
    end.
Proof.
  intros Hlt Hq. apply Z.ltb_lt in Hlt. unfold add, _process. rewrite Hq.
  simpl. rewrite Hlt. by destruct t.
Qed.

Lemma add_inv t p : inv p → inv (add t p).
Proof.
  intros [[Ho Hc Hnd Hp Hs Hon] Hidle].
  destruct (decide (running p < concurrency p)) as [Hlt|Hge].
  - pose proof (Hidle Hlt) as Hq. rewrite (add_free t p Hlt Hq).
    rewrite Hq, app_nil_r in Ho.
    assert (∀ h, h ∈ started_handles (log p) → h ≠ next_handle p) as Hne.
    { intros h Hh. rewrite Ho in Hh. apply elem_of_seq in Hh. lia. }
    destruct t as [e|]; (split; [split|intros ?]); simpl; try done.
    + rewrite started_handles_settle, started_handles_snoc, app_nil_r, Ho.
      symmetry. exact (seq_S (next_handle p) 0).
    + lia.
    + intros h Hh. destruct (Hp h Hh) as [H1 H2].
      rewrite started_handles_settle, started_handles_snoc.
      split; [mem|].
      rewrite settled_handles_settle, settled_handles_snoc_started.
      intros [->|?]; [by apply (Hne _ H1)|done].
    + intros h. rewrite started_handles_settle, started_handles_snoc.
      rewrite settled_handles_settle, settled_handles_snoc_started.
      intros [->|Hh]; [mem|]. apply Hs in Hh. mem.
    + apply settle_NoDup. by rewrite settled_handles_snoc_started.
    + rewrite started_handles_snoc, app_nil_r, Ho.
      symmetry. exact (seq_S (next_handle p) 0).
    + rewrite length_app. simpl. lia.
    + apply NoDup_app. split_and!; [done| |apply NoDup_singleton].
      intros x Hx ->%list_elem_of_singleton. apply Hp in Hx as [Hx _].
      by apply (Hne _ Hx).
    + intros h. rewrite started_handles_snoc, settled_handles_snoc_started.
      intros [Hh| ->%list_elem_of_singleton]%elem_of_app.
      * destruct (Hp h Hh). split; [mem|done].
      * split; [mem|]. intros Hh%Hs. by apply (Hne _ Hh).
    + intros h. rewrite started_handles_snoc, settled_handles_snoc_started.
      intros Hh%Hs. mem.
    + by rewrite settled_handles_snoc_started.
  - rewrite (add_busy t p Hge). split; [split|intros ?]; simpl; try done; try lia.
    rewrite map_app, app_assoc, Ho. symmetry. exact (seq_S (next_handle p) 0).
Qed.

Lemma on_settled_inv h o p : inv p → inv (on_settled h o p).
Proof.
  intros [Hi Hidle]. unfold on_settled. case_bool_decide as Hin; [|done].
  destruct Hi as [Ho Hc Hnd Hp Hs Hon].
  destruct (Hp h Hin) as [Hst Hnot]. unfold _process. split.
  - apply process_loop_linv. rewrite (settle_fresh h o _ Hnot).
    split; simpl.
    + rewrite started_handles_app. simpl. by rewrite app_nil_r.
    + pose proof (length_filter_lt (fun x => x ≠ h) (inflight p) h Hin) as Hl.
      lapply Hl; [lia|]. by intros ?.
    + by apply NoDup_filter.
    + intros h' [Hne Hh']%list_elem_of_filter. destruct (Hp h' Hh').
      rewrite started_handles_app, settled_handles_app. simpl.
      rewrite app_nil_r. split; [done|]. mem.
    + intros h'. rewrite started_handles_app, settled_handles_app. simpl.
      rewrite app_nil_r. intros [Hh'| ->%list_elem_of_singleton]%elem_of_app;
        [by apply Hs|done].
    + rewrite settled_handles_app. simpl. apply NoDup_app.
      split_and!; [done| |apply NoDup_singleton].
      intros x Hx ->%list_elem_of_singleton. done.
  - apply process_loop_idle; simpl; [done|].
    intros Hlt. rewrite Hidle; [simpl; lia|lia].
Qed.

Lemma step_inv p ev : inv p → inv (step p ev).
Proof. destruct ev; [apply add_inv|apply on_settled_inv]. Qed.

Lemma run_inv evs p : inv p → inv (run p evs).
Proof.
  revert p. induction evs as [|ev evs IH]; intros p Hi; [done|].
  apply IH, step_inv, Hi.
Qed.

Lemma step_concurrency p ev : concurrency (step p ev) = concurrency p.
Proof.
  destruct ev as [t|h o]; simpl.
  - unfold add, _process.
    match goal with |- context [process_loop ?f ?q] =>
      pose proof (process_loop_concurrency f q) as Hl;
      destruct (process_loop f q) as [p2 [e|]] end; done.
  - unfold on_settled, _process. case_bool_decide; [|done].
    by rewrite process_loop_concurrency.
Qed.

Lemma run_concurrency evs p : concurrency (run p evs) = concurrency p.
Proof.
  revert p. induction evs as [|ev evs IH]; intros p; [done|].
  simpl. by rewrite IH, step_concurrency.
Qed.

(** C1. For a pool made with concurrency [c >= 1], after any sequence of
    [add] calls and task settlements the running count is at most [c]; so
    is every value the count has held on the way ([peak]), and so is the
    number of tasks that were started and have not settled. *)
Theorem running_never_exceeds_concurrency (c : Z) (evs : list (event V E)) :
  1 <= c →
  running (run (new c) evs) <= c
  ∧ peak (run (new c) evs) <= c
  ∧ Z.of_nat (length (inflight (run (new c) evs))) <= c.
Proof.
  intros Hc.
  assert (bounded (@new V E c)) as Hb by (split; simpl; lia).
  apply (run_bounded evs) in Hb as [Hr Hp Hi].
  rewrite run_concurrency in Hr, Hp. simpl in Hr, Hp. lia.
Qed.

(** C8. Handles are numbered by the order of the [add] calls.  If the task
    of handle [b] is the [i]-th task the pool has started, then every task
    added earlier (handle [a < b]) was started at an earlier position
    [j < i]: the pool never starts a task before one that was added before
    it. *)
Theorem starts_in_submission_order (c : Z) (evs : list (event V E))
    (a b i : nat) :
  (a < b)%nat →
  started_handles (log (run (new c) evs)) !! i = Some b →
  ∃ j, (j < i)%nat ∧ started_handles (log (run (new c) evs)) !! j = Some a.
Proof.
  intros Hab Hi.
  destruct (run_inv evs _ (new_inv c)) as [[Ho _ _ _ _ _] _].
  set (p := run (new c) evs) in *.
  assert (∀ k h, started_handles (log p) !! k = Some h → h = k) as Hidx.
  { intros k h Hk.
    pose proof (lookup_app_l_Some _ (map handle (queue p)) _ _ Hk) as Hk'.
    rewrite Ho in Hk'. apply lookup_seq in Hk' as [-> _]. done. }
  pose proof (Hidx _ _ Hi) as ->.
  pose proof (lookup_lt_Some _ _ _ Hi) as Hlen.
  destruct (lookup_lt_is_Some_2 (started_handles (log p)) a) as [h Hh]; [lia|].
  exists a. split; [done|]. by rewrite Hh, (Hidx _ _ Hh).
Qed.

(** *** [Promise.all] and [execute] *)

Lemma first_rejection_app (l1 l2 : list (nat * outcome V E)) :
  first_rejection (l1 ++ l2) =
    match first_rejection l1 with
    | Some e => Some e
    | None => first_rejection l2
    end.
Proof. induction l1 as [|[i [v|e]] l1 IH]; simpl; done. Qed.

Lemma first_rejection_None (l : list (nat * outcome V E)) i e :
  first_rejection l = None → (i, Rejected e) ∉ l.
Proof.
  induction l as [|[j [v|e']] l IH]; simpl; intros Hf Hin; [mem| |done].
  apply elem_of_cons in Hin as [?|?]; [done|by apply IH].
Qed.

Lemma handles_length (l : list nat) n :
  NoDup l → (∀ i, i ∈ l → (i < n)%nat) → (length l <= n)%nat.
Proof.
  intros Hnd Hlt.
  assert (l ⊆+ seq 0 n) as Hsub.
  { apply NoDup_submseteq; [done|]. intros i Hi. apply elem_of_seq.
    specialize (Hlt i Hi). lia. }
  apply submseteq_length in Hsub. by rewrite length_seq in Hsub.
Qed.

Lemma omap_id_all_Some (xs : list (option V)) :
  (∀ i, (i < length xs)%nat → ∃ v, xs !! i = Some (Some v)) →
  Some <$> omap id xs = xs.
Proof.
  induction xs as [|x xs IH]; intros Hall; [done|].
  destruct (Hall 0%nat) as [v Hv]; [simpl; lia|]. simpl in Hv.
  injection Hv as ->. simpl. f_equal. apply IH.
  intros i Hi. apply (Hall (S i)). simpl. lia.
Qed.

(** What [Promise.all] has stored and decided after the settlements [l] of
    distinct handles below [n]. *)
Lemma promise_all_spec n (l : list (nat * outcome V E)) :
  NoDup l.*1 → (∀ i, i ∈ l.*1 → (i < n)%nat) →
  length (values (promise_all n l)) = n
  ∧ (∀ i v, values (promise_all n l) !! i = Some (Some v) ↔ (i, Fulfilled v) ∈ l)
  ∧ (first_rejection l = None → (remaining (promise_all n l) + length l)%nat = n)
  ∧ result (promise_all n l) =
      match first_rejection l with
      | Some e => Some (Rejected e)
      | None => if decide (length l = n)
                then Some (Fulfilled (omap id (values (promise_all n l))))
                else None
      end.
Proof.
  induction l as [|[i o] l IH] using rev_ind; intros Hnd Hlt.
  - unfold promise_all. simpl. split_and!.
    + by rewrite length_replicate.
    + intros i v. rewrite lookup_replicate. split; [|mem].
      by intros [[=] _].
    + intros _. lia.
    + destruct n; simpl; [|done]. done.
  - rewrite fmap_app in Hnd, Hlt. simpl in Hnd, Hlt.
    apply NoDup_app in Hnd as (Hnd & Hdis & _).
    assert (i ∉ l.*1) as Hi by (intros Hin; apply (Hdis _ Hin); mem).
    assert (i < n)%nat as Hin by (apply Hlt; mem).
    assert (length l < n)%nat as Hlen.
    { pose proof (handles_length (l.*1 ++ [i]) n) as Hh.
      rewrite length_app, length_fmap in Hh. simpl in Hh.
      lapply Hh; [intros Hh'; lapply Hh'; [lia|done]|].
      apply NoDup_app. split_and!; [done| |apply NoDup_singleton].
      intros x Hx ->%list_elem_of_singleton. done. }
    destruct IH as (IHlen & IHval & IHrem & IHres);
      [done|intros j Hj; apply Hlt; mem|].
    unfold promise_all in *. rewrite foldl_app. simpl.
    set (st := foldl all_step (all_init n) l) in *.
    rewrite first_rejection_app, length_app. simpl.
    destruct o as [v|e]; simpl.
    + split_and!.
      * by rewrite length_insert.
      * intros j w. rewrite elem_of_app, list_elem_of_singleton.
        destruct (decide (i = j)) as [->|Hne].
        -- rewrite list_lookup_insert_eq by lia. split.
           ++ intros [= ->]. by right.
           ++ intros [Hjl|[= ->]]; [|done]. exfalso. apply Hi.
              apply list_elem_of_fmap. by exists (j, Fulfilled w).
        -- rewrite list_lookup_insert_ne by done. rewrite IHval.
           split; [by left|]. intros [?|[= ? ?]]; done.
      * destruct (first_rejection l); [done|]. intros _.
        specialize (IHrem eq_refl). lia.
      * rewrite IHres. destruct (first_rejection l) as [e|] eqn:Hf; [done|].
        specialize (IHrem eq_refl).
        destruct (decide (length l = n)); [lia|].
        repeat case_decide; try done; lia.
    + split_and!.
      * done.
      * intros j w. rewrite elem_of_app, list_elem_of_singleton, IHval.
        split; [by left|]. intros [?|[=]]; done.
      * destruct (first_rejection l); done.
      * rewrite IHres. destruct (first_rejection l) as [e'|]; [done|].
        destruct (decide (length l = n)); [lia|done].
Qed.

Lemma first_rejection_Some (l : list (nat * outcome V E)) e :
  first_rejection l = Some e → ∃ i, (i, Rejected e) ∈ l.
Proof.
  induction l as [|[j [v|e']] l IH]; simpl; intros Hf; [done| |].
  - destruct (IH Hf) as [i Hi]. exists i. by right.
  - injection Hf as ->. exists j. by left.
Qed.

Lemma settlement_unique (l : list (nat * outcome V E)) i o1 o2 :
  NoDup l.*1 → (i, o1) ∈ l → (i, o2) ∈ l → o1 = o2.
Proof.
  induction l as [|[j o] l IH]; simpl; intros Hnd H1 H2; [mem|].
  apply NoDup_cons in Hnd as [Hj Hnd].
  assert (∀ o', (j, o') ∉ l) as Hout.
  { intros o' Hin. apply Hj, list_elem_of_fmap. by exists (j, o'). }
  apply elem_of_cons in H1 as [H1|H1]; apply elem_of_cons in H2 as [H2|H2].
  - congruence.
  - injection H1 as -> ->. by apply Hout in H2.
  - injection H2 as -> ->. by apply Hout in H1.
  - by apply IH.
Qed.

Lemma process_loop_log_prefix fuel p :
  log p `prefix_of` log (process_loop fuel p).1.
Proof.
  revert p. induction fuel as [|fuel IH]; intros p; simpl; [done|].
  destruct (queue p) as [|it rest]; [done|].
  destruct (running p <? concurrency p); [|done].
  destruct (task it); simpl.
  - by apply prefix_app_r.
  - etrans; [|apply IH]. simpl. by apply prefix_app_r.
Qed.

Lemma step_next_handle p ev :
  next_handle (step p ev) =
    match ev with Add _ => S (next_handle p) | Settle _ _ => next_handle p end.
Proof.
  destruct ev as [t|h o]; simpl.
  - unfold add, _process.
    match goal with |- context [process_loop ?f ?q] =>
      pose proof (process_loop_next_handle f q) as Hl;
      destruct (process_loop f q) as [p2 [e|]] end; done.
  - unfold on_settled, _process. case_bool_decide; [|done].
    by rewrite process_loop_next_handle.
Qed.

Lemma run_settle_events_next_handle (l : list (nat * outcome V E)) p :
  next_handle (run p (settle_events l)) = next_handle p.
Proof.
  revert p. induction l as [|[h o] l IH]; intros p; [done|].
  simpl. rewrite IH. apply (step_next_handle p (Settle h o)).
Qed.

Lemma execute_run (tasks : list (call E)) c :
  @execute V E tasks c = run (new c) (Add <$> tasks).
Proof.
  unfold execute, run. generalize (@new V E c).
  induction tasks as [|t tasks IH]; intros p; [done|]. simpl. apply IH.
Qed.

Lemma execute_next_handle (tasks : list (call E)) c :
  next_handle (@execute V E tasks c) = length tasks.
Proof.
  rewrite execute_run.
  assert (∀ p : pool V E,
    next_handle (run p (Add <$> tasks)) = (next_handle p + length tasks)%nat)
    as Hgen.
  { induction tasks as [|t tasks IH]; intros p; simpl; [lia|].
    rewrite IH. pose proof (step_next_handle p (Add t)) as Hs.
    simpl in Hs. rewrite Hs. lia. }
  by rewrite Hgen.
Qed.

Lemma execute_inv (tasks : list (call E)) c
    (l : list (nat * outcome V E)) :
  inv (run (execute tasks c) (settle_events l)).
Proof. rewrite execute_run. apply run_inv, run_inv, new_inv. Qed.

(** A task that is pending when its promise settles gets its handle
    settled with the same outcome. *)
Lemma on_settled_records h o p :
  inv p → h ∈ inflight p → (h, o) ∈ settlements (log (on_settled h o p)).
Proof.
  intros [Hi _] Hin. destruct (inv_pending p Hi h Hin) as [_ Hnot].
  unfold on_settled, _process. rewrite bool_decide_eq_true_2 by done.
  match goal with |- context [process_loop ?f ?q] =>
    destruct (process_loop_log_prefix f q) as [k ->] end.
  simpl. rewrite (settle_fresh h o _ Hnot), !settlements_app. simpl.
  mem.
Qed.

(** When a pending task settles while items wait and the ceiling bounds
    [running], the head of the waiting queue is started in the same
    callback. *)
Lemma on_settled_starts_head h o p it rest :
  inv p → running p <= concurrency p →
  h ∈ inflight p → queue p = it :: rest →
  handle it ∈ started_handles (log (on_settled h o p)).
Proof.
  intros [Hi Hidle] Hle Hin Hq. unfold on_settled, _process.
  rewrite bool_decide_eq_true_2 by done. cbn [queue]. rewrite Hq.
  cbn [length]. rewrite process_loop_S. cbn [queue running concurrency].
  assert (¬ running p < concurrency p) as Hfull
    by (intros Hlt; by rewrite (Hidle Hlt) in Hq).
  destruct (Z.ltb_spec (running p - 1) (concurrency p)) as [_|?]; [|lia].
  destruct (task it).
  - cbn [fst log]. rewrite started_handles_snoc. mem.
  - match goal with |- context [process_loop ?f ?x] =>
      destruct (process_loop_log_prefix f x) as [k ->] end.
    cbn [log]. rewrite started_handles_app, started_handles_snoc. mem.
Qed.

(** *** Pools whose tasks return *)

Lemma process_loop_calm fuel p :
  calm p → calm (process_loop fuel p).1 ∧ (process_loop fuel p).2 = None.
Proof.
  revert p. induction fuel as [|fuel IH]; intros p Hc; simpl; [done|].
  destruct (queue p) as [|it rest] eqn:Hq; [done|].
  destruct (running p <? concurrency p); [|done].
  destruct Hc as [Hcq Hcr Hcs]. rewrite Hq in Hcq.
  apply Forall_cons in Hcq as [Hit Hrest]. rewrite Hit.
  apply IH. split; cbn [queue running inflight log].
  - done.
  - rewrite length_app. simpl. lia.
  - intros h. rewrite started_handles_snoc, settled_handles_snoc_started.
    intros [Hh| ->%list_elem_of_singleton]%elem_of_app.
    + destruct (Hcs h Hh); [by left|right; mem].
    + right. mem.
Qed.

Lemma new_calm c : calm (@new V E c).
Proof. split; simpl; [done|done|]. intros h Hh. mem. Qed.

Lemma add_calm p : calm p → calm (add Returns p).
Proof.
  intros [Hcq Hcr Hcs]. unfold add, _process.
  match goal with |- context [process_loop ?f ?x] =>
    destruct (process_loop_calm f x) as [Hc Hn] end.
  { split; cbn [queue running inflight log]; [|done|done].
    apply Forall_app. split; [done|]. by constructor. }
  destruct (process_loop _ _) as [p2 [e|]]; simpl in *; done.
Qed.

Lemma length_filter_remove (h : nat) (l : list nat) :
  NoDup l → h ∈ l → (length (filter (fun x => x ≠ h) l) + 1 = length l)%nat.
Proof.
  induction l as [|x l IH]; intros Hnd Hin; [mem|].
  apply NoDup_cons in Hnd as [Hx Hnd]. destruct (decide (x = h)) as [->|Hne].
  - rewrite filter_cons_False by (intros ?; done).
    assert (filter (fun x => x ≠ h) l = l) as ->; [|simpl; lia].
    clear -Hx. induction l as [|y l IH]; [done|].
    apply not_elem_of_cons in Hx as [Hy Hx].
    rewrite filter_cons_True by done. by rewrite IH.
  - rewrite filter_cons_True by done. simpl.
    apply elem_of_cons in Hin as [->|Hin]; [done|].
    specialize (IH Hnd Hin). lia.
Qed.

Lemma on_settled_calm h o p : linv p → calm p → calm (on_settled h o p).
Proof.
  intros Hi [Hcq Hcr Hcs]. unfold on_settled, _process.
  case_bool_decide as Hin; [|done].
  destruct (inv_pending p Hi h Hin) as [_ Hfresh].
  apply process_loop_calm.
  split; cbn [queue running inflight log].
  - done.
  - pose proof (length_filter_remove h (inflight p) (inv_nodup p Hi) Hin). lia.
  - intros h'. rewrite started_handles_settle, (settle_fresh h o _ Hfresh).
    rewrite settled_handles_app. simpl. intros Hh'.
    destruct (decide (h' = h)) as [->|Hne]; [left; mem|].
    destruct (Hcs h' Hh') as [?|?]; [left; mem|right].
    by apply list_elem_of_filter.
Qed.

Lemma step_calm p ev : linv p → calm p → returns ev → calm (step p ev).
Proof.
  intros Hi Hc Hev. destruct ev as [[e|]|h o]; simpl in *;
    [done|by apply add_calm|by apply on_settled_calm].
Qed.

Lemma run_calm evs p :
  inv p → calm p → Forall returns evs → calm (run p evs).
Proof.
  revert p. induction evs as [|ev evs IH]; intros p Hi Hc Hev; [done|].
  apply Forall_cons in Hev as [Hev Hevs]. simpl.
  apply IH; [by apply step_inv|apply step_calm; [apply Hi|done|done]|done].
Qed.

(** The loop of [_process] settles no handle. *)
Lemma process_loop_keeps_settlements fuel p :
  settlements (log (process_loop fuel p).1) = settlements (log p).
Proof.
  revert p. induction fuel as [|fuel IH]; intros p; simpl; [done|].
  destruct (queue p) as [|it rest]; [done|].
  destruct (running p <? concurrency p); [|done].
  destruct (task it); simpl.
  - apply settlements_snoc_started.
  - rewrite IH. simpl. apply settlements_snoc_started.
Qed.

(** When the promise of a pending task settles with [o], the handle of that
    task settles with [o], and no other handle settles. *)
Lemma on_settled_settlements h o p :
  inv p → h ∈ inflight p →
  settlements (log (on_settled h o p)) = settlements (log p) ++ [(h, o)].
Proof.
  intros [Hi _] Hin. destruct (inv_pending p Hi h Hin) as [_ Hfresh].
  unfold on_settled, _process. rewrite bool_decide_eq_true_2 by done.
  rewrite process_loop_keeps_settlements. cbn [log].
  by rewrite (settle_fresh h o _ Hfresh), settlements_app.
Qed.

(** Settlements delivered one after the other settle their own handles, and
    no other. *)
Lemma deliverable_settlements (l : list (nat * outcome V E)) p :
  inv p → deliverable p l →
  settlements (log (run p (settle_events l))) = settlements (log p) ++ l.
Proof.
  revert p. induction l as [|[h o] l IH]; intros p Hi Hd; simpl.
  { by rewrite app_nil_r. }
  destruct Hd as [Hin Hd]. simpl in *.
  rewrite IH; [|by apply on_settled_inv|done].
  rewrite on_settled_settlements by done. by rewrite <- app_assoc.
Qed.

(** The handles started so far are the first ones, in order. *)
Lemma started_handles_seq p :
  linv p →
  started_handles (log p) = seq 0 (length (started_handles (log p))).
Proof.
  intros Hi. pose proof (inv_order p Hi) as Ho.
  pose proof (f_equal length Ho) as Hl. rewrite length_app, length_seq in Hl.
  remember (length (started_handles (log p))) as k eqn:Hk.
  assert (started_handles (log p) = take k (seq 0 (next_handle p))) as Ht.
  { rewrite <- Ho, Hk. symmetry. apply take_app_length. }
  rewrite take_seq in Ht. by replace (k `min` next_handle p)%nat with k in Ht by lia.
Qed.

(** Once more than [h] handles have settled, the task of handle [h] has
    been called. *)
Lemma settled_count_started p h :
  linv p →
  (h < length (settled_handles (log p)))%nat →
  h ∈ started_handles (log p).
Proof.
  intros Hi Hh. rewrite (started_handles_seq p Hi). apply elem_of_seq.
  assert (settled_handles (log p) ⊆+ started_handles (log p)) as Hsub.
  { apply NoDup_submseteq; [apply Hi|]. intros x. apply (inv_settled p Hi). }
  apply submseteq_length in Hsub. lia.
Qed.

(** When as many handles have settled as [add] was called, every handle
    has settled. *)
Lemma settled_count_all p h :
  linv p →
  length (settled_handles (log p)) = next_handle p →
  (h < next_handle p)%nat → h ∈ settled_handles (log p).
Proof.
  intros Hi Hfull Hh.
  assert (settled_handles (log p) ≡ₚ seq 0 (next_handle p)) as Hperm.
  { apply submseteq_length_Permutation.
    - apply NoDup_submseteq; [apply Hi|]. intros j Hj. apply elem_of_seq.
      pose proof (order_started_lt p j (inv_order p Hi) (inv_settled p Hi j Hj)).
      lia.
    - rewrite length_seq. lia. }
  rewrite Hperm. apply elem_of_seq. lia.
Qed.

(** In a pool with at least one slot whose tasks return, a task is pending
    as long as a handle has not settled: the pool is never stopped with
    work left. *)
Lemma calm_progress p h :
  inv p → calm p → 1 <= concurrency p →
  (h < next_handle p)%nat → h ∉ settled_handles (log p) →
  inflight p ≠ [].
Proof.
  intros [Hi Hidle] [_ Hcr Hcs] Hc Hh Hns Hnil.
  assert (h ∈ started_handles (log p) ++ map handle (queue p)) as Hin.
  { rewrite (inv_order p Hi). apply elem_of_seq. lia. }
  apply elem_of_app in Hin as [Hst|Hq].
  - destruct (Hcs h Hst) as [?|Hin]; [done|]. rewrite Hnil in Hin. mem.
  - rewrite Hnil in Hcr. simpl in Hcr.
    assert (queue p = []) as Hqe by (apply Hidle; lia).
    rewrite Hqe in Hq. by apply elem_of_nil in Hq.
Qed.

(** With a slot, tasks that return and nothing pending, every handle has
    settled. *)
Lemma calm_quiescent p :
  inv p → calm p → 1 <= concurrency p → inflight p = [] →
  length (settled_handles (log p)) = next_handle p.
Proof.
  intros Hinv Hcalm Hc Hnil. pose proof Hinv as [Hi _].
  apply Nat.le_antisymm.
  - apply handles_length; [apply Hi|]. intros j Hj.
    apply (order_started_lt p j (inv_order p Hi)), (inv_settled p Hi j Hj).
  - assert (seq 0 (next_handle p) ⊆+ settled_handles (log p)) as Hsub.
    { apply NoDup_submseteq; [apply NoDup_seq|]. intros h Hh%elem_of_seq.
      destruct (decide (h ∈ settled_handles (log p))) as [|Hns]; [done|].
      by destruct (calm_progress p h Hinv Hcalm Hc ltac:(lia) Hns). }
    apply submseteq_length in Hsub. by rewrite length_seq in Hsub.
Qed.

(** Whatever the outcomes [out] of the promises of the tasks, they can be
    delivered one after the other until every handle has settled. *)
Lemma calm_completion (out : nat → outcome V E) k p :
  inv p → calm p → 1 <= concurrency p →
  (length (settled_handles (log p)) + k = next_handle p)%nat →
  ∃ l, deliverable p l ∧ length l = k ∧ Forall (fun s => s.2 = out s.1) l.
Proof.
  revert p. induction k as [|k IH]; intros p Hinv Hcalm Hc Hk.
  { by exists []. }
  destruct (inflight p) as [|h rest] eqn:Hin.
  { pose proof (calm_quiescent p Hinv Hcalm Hc Hin). lia. }
  assert (h ∈ inflight p) as Hh by (rewrite Hin; by left).
  destruct (IH (on_settled h (out h) p)) as (l & Hd & Hlen & Hout).
  - by apply on_settled_inv.
  - apply on_settled_calm; [apply Hinv|done].
  - pose proof (step_concurrency p (Settle h (out h))) as Hsc.
    simpl in Hsc. by rewrite Hsc.
  - pose proof (step_next_handle p (Settle h (out h))) as Hsn.
    simpl in Hsn. rewrite Hsn.
    rewrite !settled_handles_settlements, !length_fmap in *.
    rewrite on_settled_settlements, length_app by done. simpl. lia.
  - exists ((h, out h) :: l). simpl. split_and!; [done|done|lia|].
    by constructor.
Qed.

Lemma calm_run_to_completion (out : nat → outcome V E) p :
  inv p → calm p → 1 <= concurrency p →
  ∃ l, deliverable p l
       ∧ Forall (fun s => s.2 = out s.1) l
       ∧ ∀ h, (h < next_handle p)%nat →
           h ∈ settled_handles (log (run p (settle_events l))).
Proof.
  intros Hinv Hcalm Hc. pose proof Hinv as [Hi _].
  assert (length (settled_handles (log p)) <= next_handle p)%nat as Hle.
  { apply handles_length; [apply Hi|]. intros j Hj.
    apply (order_started_lt p j (inv_order p Hi)), (inv_settled p Hi j Hj). }
  destruct (calm_completion out
              (next_handle p - length (settled_handles (log p))) p)
    as (l & Hd & Hlen & Hout); [done|done|done|lia|].
  exists l. split_and!; [done|done|]. intros h Hh.
  apply settled_count_all.
  - by apply run_inv.
  - rewrite run_settle_events_next_handle.
    rewrite !settled_handles_settlements, !length_fmap in *.
    rewrite deliverable_settlements, length_app by done. lia.
  - by rewrite run_settle_events_next_handle.
Qed.

(** The slip of [_process]: a waiting task that throws when the callback
    of a settlement calls it has been started, but its exception leaves the
    callback of [finally], where nobody rejects its handle and nothing
    undoes [this.running++]: the slot that the settlement freed is taken
    for good. *)
Lemma on_settled_throwing_head h o p it rest e :
  inv p → running p <= concurrency p →
  h ∈ inflight p → queue p = it :: rest → task it = Throws e →
  queue (on_settled h o p) = rest
  ∧ running (on_settled h o p) = running p
  ∧ handle it ∈ started_handles (log (on_settled h o p))
  ∧ (handle it ∉ settled_handles (log (on_settled h o p)))
  ∧ (handle it ∉ inflight (on_settled h o p)).
Proof.
  intros [Hi Hidle] Hle Hin Hq Hthrow.
  destruct (inv_pending p Hi h Hin) as [Hst Hfresh].
  pose proof (order_head_fresh p it rest (inv_order p Hi) Hq) as Hhead.
  unfold on_settled, _process. rewrite bool_decide_eq_true_2 by done.
  cbn [queue]. rewrite Hq. cbn [length]. rewrite process_loop_S.
  cbn [queue running concurrency]. rewrite Hthrow.
  destruct (Z.ltb_spec (running p - 1) (concurrency p)) as [_|?]; [|lia].
  cbn [fst queue running log inflight]. split_and!.
  - done.
  - lia.
  - rewrite started_handles_snoc. mem.
  - rewrite settled_handles_snoc_started, (settle_fresh h o _ Hfresh).
    rewrite settled_handles_app. simpl.
    intros [Hs|Heq%list_elem_of_singleton]%elem_of_app.
    + by apply Hhead, (inv_settled p Hi).
    + apply Hhead. by rewrite Heq.
  - intros [_ Hp]%list_elem_of_filter.
    by apply Hhead, (inv_pending p Hi).
Qed.

(** With no task pending there is no settlement to deliver: the pool stays
    as it is until [add] is called again. *)
Lemma run_settle_events_no_pending p (l : list (nat * outcome V E)) :
  inflight p = [] → run p (settle_events l) = p.
Proof.
  intros Hnil. induction l as [|[h o] l IH]; [done|]. simpl.
  unfold on_settled. rewrite Hnil, bool_decide_eq_false_2; [done|].
  by intros ?%elem_of_nil.
Qed.

(** C3, as the code has it.  [execute] resolves exactly when every handle
    has been fulfilled, with the values in the order of [tasks]; it rejects
    exactly when some handle has been rejected, with the error of the first
    handle to be rejected, whether or not the other handles have settled.
    Whatever [execute] has become, a pending task that settles settles its
    own handle with its own outcome, and no other.  The remaining tasks
    run to completion when the pool has a slot and the tasks return when
    they are called: as long as a handle has not settled a task is pending,
    so that a settlement is still to come; once more than [h] handles have
    settled the task of handle [h] has been called; a task that has been
    called is pending or its handle has settled; and when no task is
    pending every handle has settled and so has [execute]; and whatever
    the outcomes of the promises of the tasks, they can be delivered one
    after the other until every handle has settled.  Every
    settlement delivered makes one more settled handle: settlements
    delivered one after the other settle their own handles and no other,
    and when they make as many settled handles as there are tasks, every
    handle has settled. *)
Theorem execute_result_spec (tasks : list (call E)) (c : Z)
    (l : list (nat * outcome V E)) :
  (∀ vs, execute_result tasks c l = Some (Fulfilled vs) ↔
     length vs = length tasks
     ∧ ∀ i, (i < length tasks)%nat →
         ∃ v, vs !! i = Some v
           ∧ (i, Fulfilled v) ∈
               settlements (log (run (execute tasks c) (settle_events l))))
  ∧ (∀ e, execute_result tasks c l = Some (Rejected e) ↔
       first_rejection
         (settlements (log (run (execute tasks c) (settle_events l)))) = Some e)
  ∧ (∀ h o, h ∈ inflight (run (execute tasks c) (settle_events l)) →
       settlements
         (log (on_settled h o (run (execute tasks c) (settle_events l))))
       = settlements (log (run (execute tasks c) (settle_events l)))
           ++ [(h, o)])
  ∧ (length (settled_handles
               (log (run (execute tasks c) (settle_events l))))
     <= length tasks)%nat
  ∧ (length (settled_handles
               (log (run (execute tasks c) (settle_events l))))
     = length tasks →
     ∀ h, (h < length tasks)%nat →
       h ∈ settled_handles (log (run (execute tasks c) (settle_events l))))
  ∧ (∀ l', deliverable (run (execute tasks c) (settle_events l)) l' →
       settlements
         (log (run (run (execute tasks c) (settle_events l))
                 (settle_events l')))
       = settlements (log (run (execute tasks c) (settle_events l))) ++ l'
       ∧ ((length (settled_handles
                     (log (run (execute tasks c) (settle_events l))))
           + length l')%nat = length tasks →
          ∀ h, (h < length tasks)%nat →
            h ∈ settled_handles
                  (log (run (run (execute tasks c) (settle_events l))
                          (settle_events l')))))
  ∧ (1 <= c → Forall (fun t => t = Returns) tasks →
     (∀ h, (h < length tasks)%nat →
        h ∉ settled_handles (log (run (execute tasks c) (settle_events l))) →
        inflight (run (execute tasks c) (settle_events l)) ≠ [])
     ∧ (∀ h, (h < length (settled_handles
                            (log (run (execute tasks c) (settle_events l)))))%nat →
          h ∈ started_handles (log (run (execute tasks c) (settle_events l))))
     ∧ (∀ h, h ∈ started_handles
                   (log (run (execute tasks c) (settle_events l))) →
          h ∈ settled_handles (log (run (execute tasks c) (settle_events l)))
          ∨ h ∈ inflight (run (execute tasks c) (settle_events l)))
     ∧ (inflight (run (execute tasks c) (settle_events l)) = [] →
        (∀ h, (h < length tasks)%nat →
           h ∈ settled_handles
                 (log (run (execute tasks c) (settle_events l))))
        ∧ execute_result tasks c l ≠ None)
     ∧ (∀ out : nat → outcome V E,
          ∃ l', deliverable (run (execute tasks c) (settle_events l)) l'
                ∧ Forall (fun s => s.2 = out s.1) l'
                ∧ ∀ h, (h < length tasks)%nat →
                    h ∈ settled_handles
                          (log (run (run (execute tasks c) (settle_events l))
                                  (settle_events l'))))).
Proof.
  pose proof (execute_inv tasks c l) as Hinv.
  assert (1 <= c → Forall (fun t => t = Returns) tasks →
          calm (run (execute tasks c) (settle_events l))) as Hcalm.
  { intros _ Hret. rewrite execute_run, <- run_app.
    apply run_calm; [apply new_inv|apply new_calm|].
    apply Forall_app. split.
    - apply Forall_fmap. eapply Forall_impl; [done|]. by intros t ->.
    - clear. induction l as [|s l IH]; simpl; by constructor. }
  assert (concurrency (run (execute tasks c) (settle_events l)) = c) as Hconc.
  { by rewrite execute_run, !run_concurrency. }
  unfold execute_result.
  set (p := run (execute tasks c) (settle_events l)) in *.
  set (n := length tasks).
  assert (next_handle p = n) as Hn.
  { unfold p. by rewrite run_settle_events_next_handle, execute_next_handle. }
  destruct Hinv as [Hi Hidle].
  set (hist := settlements (log p)).
  assert (NoDup hist.*1) as Hnd.
  { unfold hist. rewrite <- settled_handles_settlements. apply Hi. }
  assert (∀ i, i ∈ hist.*1 → (i < n)%nat) as Hlt.
  { intros i. unfold hist. rewrite <- settled_handles_settlements, <- Hn.
    intros Hs. apply (order_started_lt p); [apply Hi|by apply (inv_settled p Hi)]. }
  destruct (promise_all_spec n hist Hnd Hlt) as (Hlen & Hval & _ & Hres).
  rewrite Hres. split_and!.
  - intros vs. split.
    + destruct (first_rejection hist) as [e|] eqn:Hf; [done|].
      case_decide as Hfull; [|done]. intros [= <-].
      assert (∀ i, (i < n)%nat → ∃ v, (i, Fulfilled v) ∈ hist) as Hall.
      { intros i Hi'.
        assert (hist.*1 ≡ₚ seq 0 n) as Hperm.
        { apply submseteq_length_Permutation.
          - apply NoDup_submseteq; [done|]. intros j Hj. apply elem_of_seq.
            specialize (Hlt j Hj). lia.
          - rewrite length_seq, length_fmap. lia. }
        assert (i ∈ hist.*1) as Hin.
        { rewrite Hperm. apply elem_of_seq. lia. }
        apply list_elem_of_fmap in Hin as [[j [v|e]] [Hj Hin]];
          simpl in Hj; subst j.
        - by exists v.
        - by apply first_rejection_None with (i := i) (e := e) in Hf. }
      assert (Some <$> omap id (values (promise_all n hist))
              = values (promise_all n hist)) as Hsome.
      { apply omap_id_all_Some. intros i Hi'. rewrite Hlen in Hi'.
        destruct (Hall i Hi') as [v Hv]. exists v. by apply Hval. }
      split.
      * rewrite <- Hlen, <- Hsome at 2. by rewrite length_fmap.
      * intros i Hi'. destruct (Hall i Hi') as [v Hv]. exists v.
        split; [|done]. apply Hval in Hv. rewrite <- Hsome in Hv.
        rewrite list_lookup_fmap in Hv.
        destruct (omap id (values (promise_all n hist)) !! i) as [w|];
          simpl in Hv; [|done]. by injection Hv as ->.
    + intros [Hvs Hall].
      destruct (first_rejection hist) as [e|] eqn:Hf.
      { apply first_rejection_Some in Hf as [i Hin]. exfalso.
        assert (i < n)%nat as Hi'.
        { apply Hlt, list_elem_of_fmap. by exists (i, Rejected e). }
        destruct (Hall i Hi') as (v & _ & Hv).
        pose proof (settlement_unique hist i _ _ Hnd Hin Hv). done. }
      assert (length hist = n) as Hfull.
      { apply Nat.le_antisymm.
        - rewrite <- (length_fmap fst). by apply handles_length.
        - assert (seq 0 n ⊆+ hist.*1) as Hsub.
          { apply NoDup_submseteq; [apply NoDup_seq|]. intros i Hi'.
            apply elem_of_seq in Hi'. destruct (Hall i) as (v & _ & Hv); [lia|].
            apply list_elem_of_fmap. by exists (i, Fulfilled v). }
          apply submseteq_length in Hsub.
          by rewrite length_seq, length_fmap in Hsub. }
      rewrite decide_True by done. do 2 f_equal.
      assert (Some <$> omap id (values (promise_all n hist))
              = values (promise_all n hist)) as Hsome.
      { apply omap_id_all_Some. intros i Hi'. rewrite Hlen in Hi'.
        destruct (Hall i Hi') as (v & _ & Hv). exists v. by apply Hval. }
      apply (inj (fmap Some)). rewrite Hsome.
      apply list_eq. intros i. rewrite list_lookup_fmap.
      destruct (decide (i < n)%nat) as [Hi'|Hi'].
      * destruct (Hall i Hi') as (v & -> & Hv). by apply Hval.
      * rewrite !lookup_ge_None_2; [done|lia|lia].
  - intros e. destruct (first_rejection hist) as [e'|].
    + split; intros [= ->]; done.
    + case_decide; split; done.
  - intros h o Hin. apply on_settled_settlements; [by split|done].
  - rewrite settled_handles_settlements. by apply handles_length.
  - intros Hfull h Hh. apply settled_count_all; [done|lia|lia].
  - intros l' Hd.
    pose proof (deliverable_settlements l' p (conj Hi Hidle) Hd) as Hs.
    split; [done|]. intros Hfull h Hh.
    apply settled_count_all.
    + apply run_inv. by split.
    + rewrite run_settle_events_next_handle, Hn.
      rewrite !settled_handles_settlements, !length_fmap in *.
      rewrite Hs, length_app. lia.
    + rewrite run_settle_events_next_handle. lia.
  - intros Hc Hret. specialize (Hcalm Hc Hret). split_and!.
    + intros h Hh Hns.
      apply (calm_progress p h (conj Hi Hidle) Hcalm); [lia|lia|done].
    + intros h. by apply settled_count_started.
    + apply Hcalm.
    + intros Hnil.
      assert (∀ h, (h < n)%nat → h ∈ settled_handles (log p)) as Hall.
      { intros h Hh. destruct (decide (h ∈ settled_handles (log p))) as [|Hns];
          [done|].
        by destruct (calm_progress p h (conj Hi Hidle) Hcalm
                       ltac:(lia) ltac:(lia) Hns). }
      split; [done|].
      destruct (first_rejection hist) as [e|]; [done|].
      rewrite decide_True; [done|].
      apply Nat.le_antisymm.
      * rewrite <- (length_fmap fst). by apply handles_length.
      * assert (seq 0 n ⊆+ hist.*1) as Hsub.
        { apply NoDup_submseteq; [apply NoDup_seq|]. intros i Hi'.
          apply elem_of_seq in Hi'. unfold hist.
          rewrite <- settled_handles_settlements. apply Hall. lia. }
        apply submseteq_length in Hsub.
        by rewrite length_seq, length_fmap in Hsub.
    + intros out.
      destruct (calm_run_to_completion out p (conj Hi Hidle) Hcalm
                  ltac:(lia)) as (l' & Hd & Hout & Hall).
      exists l'. split_and!; [done|done|]. intros h Hh. apply Hall. lia.
Qed.

End PoolFacts.

(** C3, as stated, fails: with two tasks and concurrency 2, once the first
    task has failed the promise of [execute] is rejected although the handle
    of the second task has not settled (its task is still pending). *)
Lemma execute_rejects_before_all_settle :
  execute_result [Returns; Returns] 2 [(0%nat, Rejected 7%nat)]
    = Some (Rejected 7%nat : outcome (list nat) nat)
  ∧ (1%nat ∉ settled_handles
      (log (run (execute [Returns; Returns] 2)
                (settle_events [(0%nat, Rejected 7%nat)]))
       : list (entry nat nat)))
  ∧ inflight (run (execute [Returns; Returns] 2)
                (settle_events [(0%nat, Rejected 7%nat)])
              : pool nat nat) = [1%nat].
Proof.
  split_and!; [reflexivity| |reflexivity].
  vm_compute. by intros ?%list_elem_of_singleton.
Qed.

(** Three tasks on one slot, the first of which fails: [execute] rejects
    at once, the two others still run, and all three handles settle. *)
Lemma execute_result_spec_witness :
  (∀ h, (h < length [Returns; Returns; Returns : call nat])%nat →
     h ∈ settled_handles
           (log (run (execute [Returns; Returns; Returns] 1)
                   (settle_events
                      [(0%nat, Rejected 7%nat : outcome nat nat);
                       (1%nat, Fulfilled 1%nat); (2%nat, Fulfilled 2%nat)]))))
  ∧ execute_result [Returns; Returns; Returns] 1
      [(0%nat, Rejected 7%nat : outcome nat nat);
       (1%nat, Fulfilled 1%nat); (2%nat, Fulfilled 2%nat)] ≠ None.
Proof.
  destruct (execute_result_spec [Returns; Returns; Returns : call nat] 1
              [(0%nat, Rejected 7%nat : outcome nat nat);
               (1%nat, Fulfilled 1%nat); (2%nat, Fulfilled 2%nat)])
    as (_ & _ & _ & _ & _ & _ & Hlive).
  destruct Hlive as (_ & _ & _ & Hdone & _); [lia|repeat constructor|].
  apply Hdone. reflexivity.
Defined.

Lemma running_never_exceeds_concurrency_witness :
  running (run (new 2) [Add Returns; Add Returns; Add (Throws 7%nat);
                        Settle 0 (Fulfilled 1%nat); Add Returns]) <= 2
  ∧ peak (run (new 2) [Add Returns; Add Returns; Add (Throws 7%nat);
                       Settle 0 (Fulfilled 1%nat); Add Returns]) <= 2
  ∧ Z.of_nat (length (inflight
      (run (new 2) [Add Returns; Add Returns; Add (Throws 7%nat);
                    Settle 0 (Fulfilled 1%nat); Add Returns]))) <= 2.
Proof.
  apply (running_never_exceeds_concurrency 2
           [Add Returns; Add Returns; Add (Throws 7%nat);
            Settle 0 (Fulfilled 1%nat); Add Returns]).
  lia.
Defined.

Lemma starts_in_submission_order_witness :
  ∃ j, (j < 1)%nat
    ∧ started_handles
        (log (run (new 1) [Add Returns; Add Returns;
                           Settle 0 (Fulfilled 5%nat)
                           : event nat nat])) !! j = Some 0%nat.
Proof.
  apply (starts_in_submission_order 1
           [Add Returns; Add Returns; Settle 0 (Fulfilled 5%nat)] 0 1 1).
  - lia.
  - reflexivity.
Defined.

End PromisePoolSpec.

(** ** AsyncQueue *)

Module AsyncQueueSpec.
Import AsyncQueue.
Section QueueFacts.
Context {V E : Type}.
Implicit Types q : queue V E.
Implicit Types done : list (nat * outcome V E).

Lemma serial_app done1 done2 :
  serial (done1 ++ done2) = serial done1 ++ serial done2.
Proof. unfold serial. by rewrite flat_map_app. Qed.

Lemma started_handles_serial done : started_handles (serial done) = done.*1.
Proof. induction done as [|[h o] done IH]; simpl; [done|]. by f_equal. Qed.

Lemma settled_handles_serial done : settled_handles (serial done) = done.*1.
Proof. induction done as [|[h o] done IH]; simpl; [done|]. by f_equal. Qed.

Lemma settlements_serial done : settlements (serial done) = done.
Proof. induction done as [|[h o] done IH]; simpl; [done|]. by f_equal. Qed.

Lemma started_handles_fmap (l : list nat) :
  started_handles (Started <$> l : list (entry V E)) = l.
Proof. induction l as [|h l IH]; simpl; [done|]. by f_equal. Qed.

Lemma settled_handles_fmap (l : list nat) :
  settled_handles (Started <$> l : list (entry V E)) = [].
Proof. induction l as [|h l IH]; simpl; done. Qed.

Lemma filter_all (P : nat → Prop) `{!∀ x, Decision (P x)} (l : list nat) :
  Forall P l → filter P l = l.
Proof.
  induction 1 as [|x l Hx _ IH]; [done|].
  by rewrite filter_cons_True, IH.
Qed.

Lemma filter_none (P : nat → Prop) `{!∀ x, Decision (P x)} (l : list nat) :
  Forall (fun x => ¬ P x) l → filter P l = [].
Proof.
  induction 1 as [|x l Hx _ IH]; [done|].
  by rewrite filter_cons_False, IH.
Qed.

Lemma inv_with_NoDup b done q :
  inv_with b done q →
  NoDup (done.*1 ++ executing q ++ map handle (tasks q)).
Proof.
  intros (_ & _ & -> & _). apply NoDup_filter, NoDup_seq.
Qed.

Lemma queue_run_app q evs1 evs2 : run q (evs1 ++ evs2) = run (run q evs1) evs2.
Proof. apply foldl_app. Qed.

(** [_processNext] takes the queue from a state reached inside a callback
    to a state between callbacks; the nesting allowed is enough. *)
Lemma process_next_inv fuel q done :
  (length (tasks q) < fuel)%nat →
  inv_with false done q → inv (process_next fuel q).
Proof.
  revert q done. induction fuel as [|fuel IH]; intros q done Hf Hi; [lia|].
  simpl. pose proof (inv_with_NoDup _ _ _ Hi) as Hnd.
  destruct Hi as (Hlog & Hflag & Hord & Hdrop).
  destruct (processing q) eqn:Hproc.
  { exists done. unfold inv_with. by rewrite Hproc. }
  destruct Hflag as [Hex _].
  destruct (tasks q) as [|it rest] eqn:Htasks.
  { exists done. unfold inv_with. by rewrite Hproc, Htasks. }
  rewrite Hex in *. simpl in *. rewrite app_nil_r in Hlog.
  assert (handle it ∉ done.*1) as Hfresh.
  { apply NoDup_app in Hnd as (_ & Hdis & _). intros Hin.
    apply (Hdis _ Hin). by left. }
  destruct (task it) as [e|].
  - apply (IH _ (done ++ [(handle it, Rejected e)])); simpl; [lia|].
    unfold inv_with. simpl. split_and!; try done.
    + rewrite settle_fresh.
      * rewrite Hlog, serial_app. simpl. by rewrite !app_nil_r, <- app_assoc.
      * by rewrite settled_handles_snoc_started, Hlog, settled_handles_serial.
    + rewrite <- Hord, fmap_app, <- app_assoc. done.
  - exists done. unfold inv_with. simpl. split_and!; try done.
    by rewrite Hlog.
Qed.

Lemma queue_new_inv : inv (@new V E).
Proof. exists []. unfold inv_with. simpl. split_and!; done. Qed.

Lemma queue_add_inv t q : inv q → inv (add t q).
Proof.
  intros (done & Hlog & Hflag & Hord & Hdrop). unfold add, _processNext.
  apply (process_next_inv _ _ done); [simpl; lia|].
  unfold inv_with. cbn [tasks processing next_handle executing dropped log].
  split_and!.
  - done.
  - destruct (processing q); [done|]. by destruct Hflag as [-> _].
  - rewrite seq_S, filter_app, <- Hord, map_app, !app_assoc. simpl.
    f_equal. rewrite filter_cons_True; [done|].
    intros Hin. rewrite Forall_forall in Hdrop. specialize (Hdrop _ Hin). lia.
  - eapply Forall_impl; [done|]. simpl. lia.
Qed.

Lemma queue_clear_inv q : inv q → inv (clear q).
Proof.
  intros (done & Hi). pose proof (inv_with_NoDup _ _ _ Hi) as Hnd.
  destruct Hi as (Hlog & Hflag & Hord & Hdrop).
  exists done. unfold inv_with, clear. simpl. split_and!.
  - done.
  - destruct (processing q); [done|]. by destruct Hflag as [-> _].
  - rewrite app_nil_r.
    transitivity (filter (fun h => h ∉ map handle (tasks q))
                    (filter (fun h => h ∉ dropped q) (seq 0 (next_handle q)))).
    + rewrite <- Hord, app_assoc, filter_app.
      rewrite app_assoc in Hnd. apply NoDup_app in Hnd as (_ & Hdis & _).
      rewrite (filter_none _ (map handle (tasks q))).
      * rewrite app_nil_r. symmetry. apply filter_all.
        apply Forall_forall. intros x Hx. by apply Hdis.
      * apply Forall_forall. intros x Hx Hn. done.
    + rewrite list_filter_filter. apply list_filter_iff. intros x.
      rewrite not_elem_of_app. tauto.
  - apply Forall_app. split; [done|]. apply Forall_forall. intros h Hh.
    assert (h ∈ filter (fun h => h ∉ dropped q) (seq 0 (next_handle q))) as Hin
      by (rewrite <- Hord; mem).
    apply list_elem_of_filter in Hin as [_ Hin]. apply elem_of_seq in Hin. lia.
Qed.

Lemma queue_on_settled_inv h o q : inv q → inv (on_settled h o q).
Proof.
  intros (done & Hi). unfold on_settled. case_bool_decide as Hin; [|by exists done].
  pose proof (inv_with_NoDup _ _ _ Hi) as Hnd.
  destruct Hi as (Hlog & Hflag & Hord & Hdrop).
  destruct (processing q) eqn:Hproc;
    [|destruct Hflag as [Hex _]; rewrite Hex in Hin; by apply elem_of_nil in Hin].
  destruct (executing q) as [|h' [|? ?]] eqn:Hex; simpl in Hflag; try done.
  apply list_elem_of_singleton in Hin as <-.
  unfold _processNext.
  apply (process_next_inv _ _ (done ++ [(h, o)])); [simpl; lia|].
  unfold inv_with. simpl.
  rewrite filter_cons_False, filter_nil by (intros Hn; done).
  split_and!; try done.
  - rewrite settle_fresh.
    + rewrite Hlog, serial_app. simpl. by rewrite app_nil_r, <- app_assoc.
    + rewrite Hlog, settled_handles_app, settled_handles_serial. simpl.
      rewrite app_nil_r. apply NoDup_app in Hnd as (_ & Hdis & _).
      intros Hn. apply (Hdis _ Hn). by left.
  - rewrite <- Hord, fmap_app, <- app_assoc. done.
Qed.

Lemma queue_step_inv q ev : inv q → inv (step q ev).
Proof.
  destruct ev; [apply queue_add_inv|apply queue_clear_inv|apply queue_on_settled_inv].
Qed.

Lemma queue_run_inv evs q : inv q → inv (run q evs).
Proof.
  revert q. induction evs as [|ev evs IH]; intros q Hi; [done|].
  apply IH, queue_step_inv, Hi.
Qed.

Lemma process_next_S fuel q :
  process_next (S fuel) q =
    if processing q then q else
    match tasks q with
    | [] => q
    | it :: rest =>
      match task it with
      | Throws e =>
        process_next fuel
          {| tasks := rest; processing := false;
             next_handle := next_handle q; executing := executing q;
             dropped := dropped q;
             log := settle (handle it) (Rejected e)
                      (log q ++ [Started (handle it)]) |}
      | Returns =>
        {| tasks := rest; processing := true;
           next_handle := next_handle q;
           executing := executing q ++ [handle it];
           dropped := dropped q;
           log := log q ++ [Started (handle it)] |}
      end
    end.
Proof. done. Qed.

(** The nesting that [_processNext] is given is enough: more changes
    nothing. *)
Lemma process_next_more fuel q :
  (length (tasks q) < fuel)%nat → process_next (S fuel) q = process_next fuel q.
Proof.
  revert q. induction fuel as [|fuel IH]; intros q Hf; [lia|].
  rewrite (process_next_S (S fuel)), (process_next_S fuel).
  destruct (processing q); [done|].
  destruct (tasks q) as [|it rest]; [done|].
  destruct (task it); [|done]. apply IH. simpl in *. lia.
Qed.

Lemma process_next_ghost fuel q :
  dropped (process_next fuel q) = dropped q
  ∧ next_handle (process_next fuel q) = next_handle q.
Proof.
  revert q. induction fuel as [|fuel IH]; intros q; simpl; [done|].
  destruct (processing q); [done|].
  destruct (tasks q) as [|it rest]; [done|].
  destruct (task it); [|done]. by destruct (IH
    {| tasks := rest; processing := false; next_handle := next_handle q;
       executing := executing q; dropped := dropped q;
       log := settle (handle it) (Rejected e)
                (log q ++ [Started (handle it)]) |}).
Qed.

Lemma step_ghost q ev :
  dropped (step q ev) =
    (if is_clear ev then dropped q ++ map handle (tasks q) else dropped q)
  ∧ (next_handle q <= next_handle (step q ev))%nat.
Proof.
  destruct ev as [t| |h o]; simpl.
  - unfold add, _processNext.
    match goal with |- context [process_next ?f ?x] =>
      destruct (process_next_ghost f x) as [-> ->] end. simpl. split; [done|lia].
  - done.
  - unfold on_settled, _processNext. case_bool_decide; [|done].
    match goal with |- context [process_next ?f ?x] =>
      destruct (process_next_ghost f x) as [-> ->] end. done.
Qed.

Lemma run_dropped_mono evs q h :
  h ∈ dropped q → h ∈ dropped (run q evs).
Proof.
  revert q. induction evs as [|ev evs IH]; intros q Hh; [done|].
  simpl. apply IH. destruct (step_ghost q ev) as [-> _].
  destruct (is_clear ev); [|done]. apply elem_of_app. by left.
Qed.

Lemma run_not_cleared evs q :
  forallb (fun ev => negb (is_clear ev)) evs = true →
  dropped (run q evs) = dropped q.
Proof.
  revert q. induction evs as [|ev evs IH]; intros q Hc; [done|].
  simpl in Hc. apply andb_prop in Hc as [Hev Hc]. simpl.
  rewrite (IH _ Hc). destruct (step_ghost q ev) as [-> _].
  by destruct (is_clear ev).
Qed.

Lemma started_handles_inv b done q :
  inv_with b done q → started_handles (log q) = done.*1 ++ executing q.
Proof.
  intros (-> & _). rewrite started_handles_app, started_handles_serial.
  by rewrite started_handles_fmap.
Qed.

Lemma settled_handles_inv b done q :
  inv_with b done q → settled_handles (log q) = done.*1.
Proof.
  intros (-> & _). rewrite settled_handles_app, settled_handles_serial.
  by rewrite settled_handles_fmap, app_nil_r.
Qed.

Lemma seq_split_prefix (l1 l2 : list nat) n :
  l1 ++ l2 = seq 0 n →
  l1 = seq 0 (length l1) ∧ l2 = seq (length l1) (n - length l1).
Proof.
  intros Heq.
  assert (length l1 + length l2 = n)%nat as Hlen.
  { rewrite <- length_app, Heq. apply length_seq. }
  replace n with (length l1 + length l2)%nat in Heq by done.
  rewrite seq_app in Heq. apply app_inj_1 in Heq; [|by rewrite length_seq].
  destruct Heq as [H1 H2]. split; [done|].
  rewrite H2. f_equal. lia.
Qed.

(** Whatever is called, [clear()] included, the tasks that run do so one
    after the other. *)
Lemma queue_always_serial (evs : list (event V E)) :
  ∃ done,
    log (run new evs) = serial done ++ (Started <$> executing (run new evs))
    ∧ (length (executing (run new evs)) <= 1)%nat.
Proof.
  destruct (queue_run_inv evs _ queue_new_inv) as (done & Hlog & Hflag & _).
  exists done. split; [done|].
  destruct (processing (run new evs)); [lia|]. destruct Hflag as [-> _].
  simpl. lia.
Qed.

Lemma process_next_log_prefix fuel q :
  log q `prefix_of` log (process_next fuel q).
Proof.
  revert q. induction fuel as [|fuel IH]; intros q; simpl; [done|].
  destruct (processing q); [done|].
  destruct (tasks q) as [|it rest]; [done|].
  destruct (task it); simpl.
  - etrans; [|apply IH]. simpl. etrans; [|apply settle_prefix].
    by apply prefix_app_r.
  - by apply prefix_app_r.
Qed.

(** When the task being executed settles, the head of the waiting queue is
    started in the same callback. *)
Lemma queue_on_settled_starts_head h o q it rest :
  h ∈ executing q → tasks q = it :: rest →
  handle it ∈ started_handles (log (on_settled h o q)).
Proof.
  intros Hin Hq. unfold on_settled, _processNext.
  rewrite bool_decide_eq_true_2 by done. cbn [tasks]. rewrite Hq.
  rewrite process_next_S. cbn [processing tasks].
  destruct (task it).
  - match goal with |- context [process_next ?f ?x] =>
      destruct (process_next_log_prefix f x) as [k ->] end.
    cbn [log]. rewrite started_handles_app, started_handles_settle.
    rewrite started_handles_snoc. mem.
  - cbn [log]. rewrite started_handles_snoc. mem.
Qed.

(** C2. Handles are numbered by the order of the [add] calls.  After any
    sequence of [add] calls and task settlements, the history of the queue
    is: task 0 started, task 0 settled, task 1 started, task 1 settled, and
    so on, ending with the start of the one task being executed, if any.
    So at most one task executes at a time, a task starts only after the
    task added before it has settled, and the handles settle in the order
    of submission; the tasks still waiting are the next ones in that
    order. *)
Theorem tasks_run_one_at_a_time (evs : list (event V E)) :
  forallb (fun ev => negb (is_clear ev)) evs = true →
  ∃ os : list (outcome V E),
    log (run new evs)
      = serial (zip (seq 0 (length os)) os)
          ++ (Started <$> executing (run new evs))
    ∧ (length (executing (run new evs)) <= 1)%nat
    ∧ executing (run new evs) ++ map handle (tasks (run new evs))
        = seq (length os) (next_handle (run new evs) - length os).
Proof.
  intros Hc. destruct (queue_run_inv evs _ queue_new_inv) as (done & Hi).
  pose proof (run_not_cleared evs new Hc) as Hd. simpl in Hd.
  destruct Hi as (Hlog & Hflag & Hord & _). rewrite Hd in Hord.
  rewrite filter_all in Hord by (apply Forall_forall; intros ? _ ?; mem).
  apply seq_split_prefix in Hord as [H1 H2].
  exists done.*2. rewrite !length_fmap in *. split_and!.
  - rewrite Hlog. do 2 f_equal. rewrite <- H1. symmetry. apply zip_fst_snd.
  - destruct (processing (run new evs)); [lia|]. destruct Hflag as [-> _].
    simpl. lia.
  - done.
Qed.

End QueueFacts.

Lemma tasks_run_one_at_a_time_witness :
  ∃ os : list (outcome nat nat),
    log (run new [Add Returns; Add (Throws 3%nat); Add Returns;
                  Settle 0 (Fulfilled 1%nat)])
      = serial (zip (seq 0 (length os)) os)
          ++ (Started <$> executing
                (run new [Add Returns; Add (Throws 3%nat); Add Returns;
                          Settle 0 (Fulfilled 1%nat)]))
    ∧ (length (executing
         (run new [Add Returns; Add (Throws 3%nat); Add Returns;
                   Settle 0 (Fulfilled 1%nat)])) <= 1)%nat
    ∧ executing (run new [Add Returns; Add (Throws 3%nat); Add Returns;
                          Settle 0 (Fulfilled 1%nat)])
        ++ map handle
             (tasks (run new [Add Returns; Add (Throws 3%nat); Add Returns;
                              Settle 0 (Fulfilled 1%nat)]))
        = seq (length os)
            (next_handle
               (run new [Add Returns; Add (Throws 3%nat); Add Returns;
                         Settle 0 (Fulfilled 1%nat)]) - length os).
Proof.
  apply (tasks_run_one_at_a_time
           [Add Returns; Add (Throws 3%nat); Add Returns;
            Settle 0 (Fulfilled 1%nat)]).
  reflexivity.
Defined.

End AsyncQueueSpec.

(** ** Leaving the waiting queue *)

Module RescindSpec.
Section Rescind.
Context {V E : Type}.

Lemma pool_waiting_kept (p : PromisePool.pool V E) ev h :
  PromisePool.inv p →
  h ∈ map handle (PromisePool.queue p) →
  h ∈ map handle (PromisePool.queue (PromisePool.step p ev))
  ∨ h ∈ started_handles (PromisePool.log (PromisePool.step p ev)).
Proof.
  intros Hi Hh.
  pose proof (PromisePoolSpec.step_inv p ev Hi) as [[Ho' _ _ _ _ _] _].
  destruct Hi as [[Ho _ _ _ _ _] _].
  assert (h ∈ seq 0 (PromisePool.next_handle p)) as Hs
    by (rewrite <- Ho; apply elem_of_app; by right).
  assert (h ∈ seq 0 (PromisePool.next_handle (PromisePool.step p ev))) as Hs'.
  { apply elem_of_seq. apply elem_of_seq in Hs.
    rewrite PromisePoolSpec.step_next_handle. destruct ev; lia. }
  rewrite <- Ho' in Hs'. apply elem_of_app in Hs' as [?|?]; [by right|by left].
Qed.

Lemma queue_waiting_kept (q : AsyncQueue.queue V E) ev h :
  AsyncQueue.inv q →
  AsyncQueue.is_clear ev = false →
  h ∈ map handle (AsyncQueue.tasks q) →
  h ∈ map handle (AsyncQueue.tasks (AsyncQueue.step q ev))
  ∨ h ∈ started_handles (AsyncQueue.log (AsyncQueue.step q ev)).
Proof.
  intros Hi Hev Hh.
  destruct (AsyncQueueSpec.queue_step_inv q ev Hi) as (done' & Hi').
  rewrite (AsyncQueueSpec.started_handles_inv _ _ _ Hi').
  destruct Hi' as (_ & _ & Hord' & _). destruct Hi as (done & _ & _ & Hord & _).
  destruct (AsyncQueueSpec.step_ghost q ev) as [Hd Hn]. rewrite Hev in Hd.
  assert (h ∈ filter (fun h => h ∉ AsyncQueue.dropped q)
                (seq 0 (AsyncQueue.next_handle q))) as Hs.
  { rewrite <- Hord, !elem_of_app. by right; right. }
  apply list_elem_of_filter in Hs as [Hnd Hs]. apply elem_of_seq in Hs.
  assert (h ∈ filter (fun h => h ∉ AsyncQueue.dropped (AsyncQueue.step q ev))
                (seq 0 (AsyncQueue.next_handle (AsyncQueue.step q ev)))) as Hs'.
  { apply list_elem_of_filter. rewrite Hd. split; [done|].
    apply elem_of_seq. lia. }
  rewrite <- Hord', !elem_of_app in Hs'. rewrite elem_of_app. tauto.
Qed.

Lemma queue_dropped_gone (q : AsyncQueue.queue V E) h :
  AsyncQueue.inv q →
  h ∈ AsyncQueue.dropped q →
  (h ∉ map handle (AsyncQueue.tasks q))
  ∧ (h ∉ started_handles (AsyncQueue.log q))
  ∧ (h ∉ settled_handles (AsyncQueue.log q)).
Proof.
  intros (done & Hi) Hd.
  rewrite (AsyncQueueSpec.started_handles_inv _ _ _ Hi).
  rewrite (AsyncQueueSpec.settled_handles_inv _ _ _ Hi).
  destruct Hi as (_ & _ & Hord & _).
  assert (h ∉ done.*1 ++ AsyncQueue.executing q
                ++ map handle (AsyncQueue.tasks q)) as Hn.
  { rewrite Hord. intros [Hn _]%list_elem_of_filter. done. }
  rewrite !elem_of_app in Hn. rewrite elem_of_app. tauto.
Qed.

(** *** A task that is not rescinded runs *)

(** In the handles that are left of [a, a+1, ...] the one at index [i] is
    at least [a + i]. *)
Lemma filter_seq_lookup (P : nat → Prop) `{!∀ x, Decision (P x)} a n i x :
  filter P (seq a n) !! i = Some x → (a + i <= x)%nat.
Proof.
  revert a i. induction n as [|n IH]; intros a i; simpl; [done|].
  destruct (decide (P a)).
  - rewrite filter_cons_True by done. destruct i as [|i]; simpl.
    + intros [= ->]. lia.
    + intros Hx%IH. lia.
  - rewrite filter_cons_False by done. intros Hx%IH. lia.
Qed.

(** The queue serves the handles in the order of submission: once more
    than [h] handles have settled, the handle [h] has settled, unless
    [clear()] discarded it. *)
Lemma queue_settled_in_order (q : AsyncQueue.queue V E) h :
  AsyncQueue.inv q →
  h ∉ AsyncQueue.dropped q →
  (h < length (settled_handles (AsyncQueue.log q)))%nat →
  h ∈ settled_handles (AsyncQueue.log q).
Proof.
  intros (done & Hi) Hnd Hh.
  rewrite (AsyncQueueSpec.settled_handles_inv _ _ _ Hi) in *.
  destruct Hi as (_ & _ & Hord & _).
  assert (length done.*1 <= AsyncQueue.next_handle q)%nat as Hlen.
  { pose proof (f_equal length Hord) as Hl. rewrite length_app in Hl.
    pose proof (length_filter (fun h => h ∉ AsyncQueue.dropped q)
                  (seq 0 (AsyncQueue.next_handle q))) as Hf.
    rewrite length_seq in Hf. lia. }
  assert (h ∈ filter (fun h => h ∉ AsyncQueue.dropped q)
                (seq 0 (AsyncQueue.next_handle q))) as Hin.
  { apply list_elem_of_filter. split; [done|]. apply elem_of_seq. lia. }
  apply list_elem_of_lookup_1 in Hin as [i Hi].
  pose proof (filter_seq_lookup _ _ _ _ _ Hi) as Hle.
  rewrite <- Hord, lookup_app_l in Hi by lia.
  by apply list_elem_of_lookup_2 in Hi.
Qed.

(** The queue is never stopped with work left: as long as a handle that
    [clear()] has not discarded has not settled, a task is pending. *)
Lemma queue_progress (q : AsyncQueue.queue V E) h :
  AsyncQueue.inv q →
  (h < AsyncQueue.next_handle q)%nat →
  h ∉ AsyncQueue.dropped q →
  h ∉ settled_handles (AsyncQueue.log q) →
  AsyncQueue.executing q ≠ [].
Proof.
  intros (done & Hi) Hh Hnd Hns.
  rewrite (AsyncQueueSpec.settled_handles_inv _ _ _ Hi) in Hns.
  destruct Hi as (_ & Hflag & Hord & _).
  assert (h ∈ done.*1 ++ AsyncQueue.executing q
                ++ map handle (AsyncQueue.tasks q)) as Hin.
  { rewrite Hord. apply list_elem_of_filter. split; [done|].
    apply elem_of_seq. lia. }
  intros Hnil. rewrite Hnil in *. simpl in Hin.
  apply elem_of_app in Hin as [?|Hin]; [done|].
  destruct (AsyncQueue.processing q); [done|].
  destruct Hflag as [_ Htasks]. rewrite Htasks in Hin by done.
  by apply elem_of_nil in Hin.
Qed.

Lemma queue_step_log_prefix (q : AsyncQueue.queue V E) ev :
  AsyncQueue.log q `prefix_of` AsyncQueue.log (AsyncQueue.step q ev).
Proof.
  destruct ev as [t| |h o]; simpl.
  - unfold AsyncQueue.add, AsyncQueue._processNext.
    etrans; [|apply AsyncQueueSpec.process_next_log_prefix]. done.
  - done.
  - unfold AsyncQueue.on_settled, AsyncQueue._processNext.
    case_bool_decide; [|done].
    etrans; [|apply AsyncQueueSpec.process_next_log_prefix].
    apply settle_prefix.
Qed.

Lemma queue_run_log_prefix (q : AsyncQueue.queue V E) evs :
  AsyncQueue.log q `prefix_of` AsyncQueue.log (AsyncQueue.run q evs).
Proof.
  revert q. induction evs as [|ev evs IH]; intros q; [done|].
  simpl. etrans; [apply (queue_step_log_prefix q ev)|apply IH].
Qed.

(** When the promise of the task being executed settles with [o], the
    handle of that task is the next one to settle, with [o]. *)
Lemma queue_on_settled_settlements (q : AsyncQueue.queue V E) h o :
  AsyncQueue.inv q →
  h ∈ AsyncQueue.executing q →
  settlements (AsyncQueue.log q) ++ [(h, o)]
    `prefix_of` settlements (AsyncQueue.log (AsyncQueue.on_settled h o q)).
Proof.
  intros (done & Hi) Hin.
  pose proof (AsyncQueueSpec.settled_handles_inv _ _ _ Hi) as Hs.
  pose proof (AsyncQueueSpec.inv_with_NoDup _ _ _ Hi) as Hnd.
  unfold AsyncQueue.on_settled, AsyncQueue._processNext.
  rewrite bool_decide_eq_true_2 by done.
  match goal with |- context [AsyncQueue.process_next ?f ?x] =>
    destruct (AsyncQueueSpec.process_next_log_prefix f x) as [k ->] end.
  cbn [AsyncQueue.log]. rewrite settle_fresh.
  - rewrite !settlements_app. simpl. by apply prefix_app_r.
  - rewrite Hs. apply NoDup_app in Hnd as (_ & Hdis & _).
    intros Hd. apply (Hdis _ Hd). apply elem_of_app. by left.
Qed.

Lemma queue_on_settled_next_handle (q : AsyncQueue.queue V E) h o :
  AsyncQueue.next_handle (AsyncQueue.on_settled h o q)
  = AsyncQueue.next_handle q.
Proof.
  unfold AsyncQueue.on_settled, AsyncQueue._processNext.
  case_bool_decide; [|done].
  match goal with |- context [AsyncQueue.process_next ?f ?x] =>
    by destruct (AsyncQueueSpec.process_next_ghost f x) as [_ ->] end.
Qed.

Lemma queue_run_settle_next_handle (q : AsyncQueue.queue V E)
    (l : list (nat * outcome V E)) :
  AsyncQueue.next_handle (AsyncQueue.run q (AsyncQueue.settle_events l))
  = AsyncQueue.next_handle q.
Proof.
  revert q. induction l as [|[h o] l IH]; intros q; [done|].
  simpl. by rewrite IH, queue_on_settled_next_handle.
Qed.

(** Whatever the outcomes [out] of the promises of the tasks, they can be
    delivered one after the other until no task is being executed. *)
Lemma queue_completion (out : nat → outcome V E) k
    (q : AsyncQueue.queue V E) :
  AsyncQueue.inv q →
  (AsyncQueue.next_handle q
   <= length (settled_handles (AsyncQueue.log q)) + k)%nat →
  ∃ l, AsyncQueue.deliverable q l
       ∧ Forall (fun s => s.2 = out s.1) l
       ∧ AsyncQueue.executing
           (AsyncQueue.run q (AsyncQueue.settle_events l)) = [].
Proof.
  revert q. induction k as [|k IH]; intros q Hinv Hk;
    (destruct (AsyncQueue.executing q) as [|h rest] eqn:Hex;
       [by exists []|]).
  - exfalso. destruct Hinv as (done & Hi).
    rewrite (AsyncQueueSpec.settled_handles_inv _ _ _ Hi) in Hk.
    destruct Hi as (_ & _ & Hord & _).
    pose proof (f_equal length Hord) as Hl.
    rewrite !length_app, Hex in Hl. simpl in Hl.
    pose proof (length_filter (fun h => h ∉ AsyncQueue.dropped q)
                  (seq 0 (AsyncQueue.next_handle q))) as Hf.
    rewrite length_seq in Hf. lia.
  - assert (h ∈ AsyncQueue.executing q) as Hh by (rewrite Hex; by left).
    pose proof (queue_on_settled_settlements q h (out h) Hinv Hh) as Hpre.
    apply prefix_length in Hpre. rewrite length_app in Hpre. simpl in Hpre.
    destruct (IH (AsyncQueue.on_settled h (out h) q)) as (l & Hd & Hout & Hq).
    + by apply AsyncQueueSpec.queue_on_settled_inv.
    + rewrite queue_on_settled_next_handle.
      rewrite !settled_handles_settlements, !length_fmap in *. lia.
    + exists ((h, out h) :: l). simpl. split_and!; [done|done| |done].
      by constructor.
Qed.

(** Settlements delivered to the queue one after the other: each settles
    the handle of its task, so that at least as many more handles have
    settled, and [clear()] is not part of them. *)
Lemma queue_deliverable_settlements (l : list (nat * outcome V E))
    (q : AsyncQueue.queue V E) :
  AsyncQueue.inv q → AsyncQueue.deliverable q l →
  (length (settled_handles (AsyncQueue.log q)) + length l
   <= length (settled_handles
                (AsyncQueue.log
                   (AsyncQueue.run q (AsyncQueue.settle_events l)))))%nat
  ∧ (∀ s, s ∈ l →
       s ∈ settlements
             (AsyncQueue.log (AsyncQueue.run q (AsyncQueue.settle_events l))))
  ∧ AsyncQueue.dropped (AsyncQueue.run q (AsyncQueue.settle_events l))
    = AsyncQueue.dropped q.
Proof.
  revert q. induction l as [|[h o] l IH]; intros q Hi Hd; simpl.
  { split_and!; [lia| |done]. intros s Hs. by apply elem_of_nil in Hs. }
  destruct Hd as [Hin Hd]. simpl in *.
  pose proof (queue_on_settled_settlements q h o Hi Hin) as Hpre.
  destruct (IH (AsyncQueue.on_settled h o q)) as (Hlen & Hall & Hdrop);
    [by apply AsyncQueueSpec.queue_on_settled_inv|done|].
  split_and!.
  - apply prefix_length in Hpre. rewrite length_app in Hpre. simpl in Hpre.
    rewrite !settled_handles_settlements, !length_fmap in *. lia.
  - intros s [->|Hs]%elem_of_cons; [|by apply Hall].
    destruct Hpre as [k Hk].
    destruct (queue_run_log_prefix (AsyncQueue.on_settled h o q)
                (AsyncQueue.settle_events l)) as [k' ->].
    rewrite settlements_app, Hk, !elem_of_app. left. left. right.
    by apply list_elem_of_singleton.
  - rewrite Hdrop.
    by destruct (AsyncQueueSpec.step_ghost q (AsyncQueue.Settle h o)) as [Hg _].
Qed.

(** C9, as the code has it.  A task waiting in the pool is, after any
    further step of the pool, still waiting or has been started.  The same
    holds for a task waiting in the queue after any step other than
    [clear()].  A call of [clear()] removes every waiting task: whatever
    happens afterwards, such a task is not waiting, has not been started and
    its handle has not settled.

    A task that is not rescinded runs and its handle settles, as the tasks
    before it settle.  In the queue, whatever has been called: as long as a
    handle that [clear()] has not discarded has not settled a task is
    pending, so that a settlement is still to come; the settlement of the
    pending task settles its handle, which makes one more settled handle;
    and once more than [h] handles have settled the handle [h] has
    settled: it has after any [h + 1] settlements delivered one after the
    other; and whatever the outcomes of the promises of the tasks, they can
    be delivered one after the other until every handle that [clear()] has
    not discarded has settled.  In a pool that has a slot and whose tasks return when they
    are called the same holds, with "has been called" for "has settled" in
    the last part, a task that has been called being pending until its own
    promise settles its handle. *)
Theorem waiting_task_leaves_by_start_or_clear :
  (∀ (c : Z) (evs : list (PromisePool.event V E)) ev h,
     h ∈ map handle (PromisePool.queue (PromisePool.run (PromisePool.new c) evs)) →
     h ∈ map handle
           (PromisePool.queue
              (PromisePool.step (PromisePool.run (PromisePool.new c) evs) ev))
     ∨ h ∈ started_handles
             (PromisePool.log
                (PromisePool.step (PromisePool.run (PromisePool.new c) evs) ev)))
  ∧ (∀ (evs : list (AsyncQueue.event V E)) ev h,
     AsyncQueue.is_clear ev = false →
     h ∈ map handle (AsyncQueue.tasks (AsyncQueue.run AsyncQueue.new evs)) →
     h ∈ map handle
           (AsyncQueue.tasks
              (AsyncQueue.step (AsyncQueue.run AsyncQueue.new evs) ev))
     ∨ h ∈ started_handles
             (AsyncQueue.log
                (AsyncQueue.step (AsyncQueue.run AsyncQueue.new evs) ev)))
  ∧ (∀ (evs evs' : list (AsyncQueue.event V E)) h,
     h ∈ map handle (AsyncQueue.tasks (AsyncQueue.run AsyncQueue.new evs)) →
     (h ∉ map handle
           (AsyncQueue.tasks
              (AsyncQueue.run AsyncQueue.new (evs ++ AsyncQueue.Clear :: evs'))))
     ∧ (h ∉ started_handles
             (AsyncQueue.log
                (AsyncQueue.run AsyncQueue.new (evs ++ AsyncQueue.Clear :: evs'))))
     ∧ (h ∉ settled_handles
             (AsyncQueue.log
                (AsyncQueue.run AsyncQueue.new (evs ++ AsyncQueue.Clear :: evs')))))
  ∧ (∀ (evs : list (AsyncQueue.event V E)),
     (∀ h, (h < AsyncQueue.next_handle (AsyncQueue.run AsyncQueue.new evs))%nat →
        h ∉ AsyncQueue.dropped (AsyncQueue.run AsyncQueue.new evs) →
        h ∉ settled_handles (AsyncQueue.log (AsyncQueue.run AsyncQueue.new evs)) →
        AsyncQueue.executing (AsyncQueue.run AsyncQueue.new evs) ≠ [])
     ∧ (∀ h o, h ∈ AsyncQueue.executing (AsyncQueue.run AsyncQueue.new evs) →
          settlements (AsyncQueue.log (AsyncQueue.run AsyncQueue.new evs))
              ++ [(h, o)]
            `prefix_of`
          settlements
            (AsyncQueue.log
               (AsyncQueue.on_settled h o (AsyncQueue.run AsyncQueue.new evs))))
     ∧ (∀ h, h ∉ AsyncQueue.dropped (AsyncQueue.run AsyncQueue.new evs) →
          (h < length (settled_handles
                         (AsyncQueue.log (AsyncQueue.run AsyncQueue.new evs))))%nat →
          h ∈ settled_handles
                (AsyncQueue.log (AsyncQueue.run AsyncQueue.new evs)))
     ∧ (∀ l h,
          AsyncQueue.deliverable (AsyncQueue.run AsyncQueue.new evs) l →
          h ∉ AsyncQueue.dropped (AsyncQueue.run AsyncQueue.new evs) →
          (h < length l)%nat →
          h ∈ settled_handles
                (AsyncQueue.log
                   (AsyncQueue.run (AsyncQueue.run AsyncQueue.new evs)
                      (AsyncQueue.settle_events l))))
     ∧ (∀ out : nat → outcome V E,
          ∃ l, AsyncQueue.deliverable (AsyncQueue.run AsyncQueue.new evs) l
               ∧ Forall (fun s => s.2 = out s.1) l
               ∧ ∀ h,
                   (h < AsyncQueue.next_handle
                          (AsyncQueue.run AsyncQueue.new evs))%nat →
                   h ∉ AsyncQueue.dropped (AsyncQueue.run AsyncQueue.new evs) →
                   h ∈ settled_handles
                         (AsyncQueue.log
                            (AsyncQueue.run (AsyncQueue.run AsyncQueue.new evs)
                               (AsyncQueue.settle_events l)))))
  ∧ (∀ (c : Z) (evs : list (PromisePool.event V E)),
     1 <= c → Forall PromisePool.returns evs →
     (∀ h, (h < PromisePool.next_handle
                  (PromisePool.run (PromisePool.new c) evs))%nat →
        h ∉ settled_handles
              (PromisePool.log (PromisePool.run (PromisePool.new c) evs)) →
        PromisePool.inflight (PromisePool.run (PromisePool.new c) evs) ≠ [])
     ∧ (∀ h o,
          h ∈ PromisePool.inflight (PromisePool.run (PromisePool.new c) evs) →
          settlements
            (PromisePool.log
               (PromisePool.on_settled h o
                  (PromisePool.run (PromisePool.new c) evs)))
          = settlements
              (PromisePool.log (PromisePool.run (PromisePool.new c) evs))
              ++ [(h, o)])
     ∧ (∀ h,
          (h < length (settled_handles
                         (PromisePool.log
                            (PromisePool.run (PromisePool.new c) evs))))%nat →
          h ∈ started_handles
                (PromisePool.log (PromisePool.run (PromisePool.new c) evs)))
     ∧ (∀ h,
          h ∈ started_handles
                (PromisePool.log (PromisePool.run (PromisePool.new c) evs)) →
          h ∈ settled_handles
                (PromisePool.log (PromisePool.run (PromisePool.new c) evs))
          ∨ h ∈ PromisePool.inflight
                  (PromisePool.run (PromisePool.new c) evs))
     ∧ (∀ l h,
          PromisePool.deliverable (PromisePool.run (PromisePool.new c) evs) l →
          (h < length l)%nat →
          h ∈ started_handles
                (PromisePool.log
                   (PromisePool.run (PromisePool.run (PromisePool.new c) evs)
                      (PromisePool.settle_events l))))
     ∧ (∀ out : nat → outcome V E,
          ∃ l, PromisePool.deliverable
                 (PromisePool.run (PromisePool.new c) evs) l
               ∧ Forall (fun s => s.2 = out s.1) l
               ∧ ∀ h,
                   (h < PromisePool.next_handle
                          (PromisePool.run (PromisePool.new c) evs))%nat →
                   h ∈ settled_handles
                         (PromisePool.log
                            (PromisePool.run
                               (PromisePool.run (PromisePool.new c) evs)
                               (PromisePool.settle_events l))))).
Proof.
  split_and!.
  - intros c evs ev h. apply pool_waiting_kept.
    apply PromisePoolSpec.run_inv, PromisePoolSpec.new_inv.
  - intros evs ev h. apply queue_waiting_kept.
    apply AsyncQueueSpec.queue_run_inv, AsyncQueueSpec.queue_new_inv.
  - intros evs evs' h Hh. apply queue_dropped_gone.
    + apply AsyncQueueSpec.queue_run_inv, AsyncQueueSpec.queue_new_inv.
    + rewrite AsyncQueueSpec.queue_run_app. simpl.
      apply AsyncQueueSpec.run_dropped_mono. simpl.
      apply elem_of_app. by right.
  - intros evs.
    pose proof (AsyncQueueSpec.queue_run_inv evs _
                  (AsyncQueueSpec.queue_new_inv (V:=V) (E:=E))) as Hi.
    split_and!.
    + intros h. by apply queue_progress.
    + intros h o. by apply queue_on_settled_settlements.
    + intros h. by apply queue_settled_in_order.
    + intros l h Hd Hnd Hh.
      destruct (queue_deliverable_settlements l _ Hi Hd) as (Hlen & _ & Hdrop).
      apply queue_settled_in_order;
        [by apply AsyncQueueSpec.queue_run_inv|by rewrite Hdrop|lia].
    + intros out.
      destruct (queue_completion out
                  (AsyncQueue.next_handle (AsyncQueue.run AsyncQueue.new evs))
                  _ Hi) as (l & Hd & Hout & Hq); [lia|].
      exists l. split_and!; [done|done|]. intros h Hh Hnd.
      destruct (queue_deliverable_settlements l _ Hi Hd) as (_ & _ & Hdrop).
      destruct (decide (h ∈ settled_handles
                  (AsyncQueue.log
                     (AsyncQueue.run (AsyncQueue.run AsyncQueue.new evs)
                        (AsyncQueue.settle_events l))))) as [|Hns]; [done|].
      exfalso. eapply queue_progress; [| | |exact Hns|exact Hq].
      * by apply AsyncQueueSpec.queue_run_inv.
      * by rewrite queue_run_settle_next_handle.
      * by rewrite Hdrop.
  - intros c evs Hc Hret.
    pose proof (PromisePoolSpec.run_inv evs _
                  (PromisePoolSpec.new_inv (V:=V) (E:=E) c)) as Hi.
    pose proof (PromisePoolSpec.run_calm evs _
                  (PromisePoolSpec.new_inv c) (PromisePoolSpec.new_calm c) Hret)
      as Hcalm.
    split_and!.
    + intros h Hh Hns.
      apply (PromisePoolSpec.calm_progress _ h Hi Hcalm); [|done|done].
      by rewrite PromisePoolSpec.run_concurrency.
    + intros h o. by apply PromisePoolSpec.on_settled_settlements.
    + intros h. apply PromisePoolSpec.settled_count_started, Hi.
    + apply Hcalm.
    + intros l h Hd Hh. apply PromisePoolSpec.settled_count_started.
      * by apply PromisePoolSpec.run_inv.
      * rewrite settled_handles_settlements, length_fmap.
        rewrite PromisePoolSpec.deliverable_settlements by done.
        rewrite length_app. lia.
    + intros out. apply PromisePoolSpec.calm_run_to_completion; [done|done|].
      by rewrite PromisePoolSpec.run_concurrency.
Qed.

End Rescind.

(** C9, as stated, fails for the queue: after two [add] calls the second
    task waits; [clear()] removes it without starting it, and when the first
    task has settled the queue is idle and the second task has neither been
    started nor settled. *)
Lemma clear_rescinds_waiting_task :
  1%nat ∈ map handle
    (AsyncQueue.tasks
       (AsyncQueue.run AsyncQueue.new
          [AsyncQueue.Add Returns; AsyncQueue.Add Returns]
        : AsyncQueue.queue nat nat))
  ∧ AsyncQueue.run AsyncQueue.new
      [AsyncQueue.Add Returns; AsyncQueue.Add Returns; AsyncQueue.Clear;
       AsyncQueue.Settle 0 (Fulfilled 5%nat)]
    = ({| AsyncQueue.tasks := []; AsyncQueue.processing := false;
          AsyncQueue.next_handle := 2; AsyncQueue.executing := [];
          AsyncQueue.dropped := [1%nat];
          AsyncQueue.log := [Started 0; Settled 0 (Fulfilled 5%nat)] |}
       : AsyncQueue.queue nat nat).
Proof.
  split; [|reflexivity]. vm_compute. by apply list_elem_of_singleton.
Qed.

(** Two tasks on one slot: while the second one has not settled, a task is
    pending. *)
Lemma waiting_task_leaves_by_start_or_clear_witness :
  PromisePool.inflight
    (PromisePool.run (PromisePool.new 1)
       [PromisePool.Add Returns; PromisePool.Add Returns;
        PromisePool.Settle 0 (Fulfilled 5%nat)]
     : PromisePool.pool nat nat) ≠ [].
Proof.
  destruct (waiting_task_leaves_by_start_or_clear (V:=nat) (E:=nat))
    as (_ & _ & _ & _ & Hpool).
  destruct (Hpool 1
              [PromisePool.Add Returns; PromisePool.Add Returns;
               PromisePool.Settle 0 (Fulfilled 5%nat)])
    as (Hprogress & _); [lia|repeat constructor|].
  apply (Hprogress 1%nat).
  - vm_compute. lia.
  - apply (bool_decide_unpack _). vm_compute. exact I.
Defined.

End RescindSpec.

(** ** RetryPolicy *)

Module RetryPolicySpec.
Import RetryPolicy.
Section RetryFacts.
Context {V E D : Type} (mul : D -> D -> D).

(** The loop on a task that always fails, from any iteration on. *)
Lemma execute_from_always_fails (p : policy D) (fn : nat -> outcome V E)
    (err : nat -> E) i lastError currentDelay n sl :
  (∀ k, fn k = Rejected (err k)) →
  0 <= i <= maxRetries p →
  execute_from mul p fn i lastError currentDelay n sl =
    {| settled := Rejected (Some (err (n + Z.to_nat (maxRetries p - i))%nat));
       attempts := (n + Z.to_nat (maxRetries p + 1 - i))%nat;
       sleeps := sl ++ backoff_delays mul currentDelay (backoff p)
                         (Z.to_nat (maxRetries p - i)) |}.
Proof.
  intros Hfn.
  funelim (execute_from mul p fn i lastError currentDelay n sl);
    intros Hi; try lia.
  - rewrite Hfn in *. discriminate.
  - rewrite (H err Hfn) by lia.
    replace (Z.to_nat (maxRetries p - i))
      with (S (Z.to_nat (maxRetries p - (i + 1)))) by lia.
    replace (Z.to_nat (maxRetries p + 1 - i))
      with (S (Z.to_nat (maxRetries p + 1 - (i + 1)))) by lia.
    simpl. rewrite <- app_assoc. simpl. f_equal; [do 3 f_equal; lia|lia].
  - assert (i = maxRetries p) as -> by lia.
    simp execute_from.
    destruct (Z_le_dec (maxRetries p + 1) (maxRetries p)) as [?|?]; [lia|].
    simpl. rewrite Hfn in *.
    replace (maxRetries p - maxRetries p) with 0 by lia.
    replace (maxRetries p + 1 - maxRetries p) with 1 by lia.
    simpl. rewrite app_nil_r, Nat.add_0_r, Nat.add_1_r.
    by injection Heq0 as ->.
Qed.

(** C4. With [maxRetries = m >= 0] and a task whose every call fails (call
    number [k], counted from 0, with error [err k]), [execute] calls the
    task exactly [m + 1] times and rejects with [err m], the error of the
    last call; it sleeps [m] times, for the delay, the delay times the
    backoff, and so on.  With [m = 0] there is one call and no sleep. *)
Theorem execute_always_failing (p : policy D) (fn : nat -> outcome V E)
    (err : nat -> E) :
  0 <= maxRetries p →
  (∀ k, fn k = Rejected (err k)) →
  attempts (execute mul p fn) = Z.to_nat (maxRetries p + 1)
  ∧ settled (execute mul p fn) = Rejected (Some (err (Z.to_nat (maxRetries p))))
  ∧ sleeps (execute mul p fn)
      = backoff_delays mul (delay p) (backoff p) (Z.to_nat (maxRetries p))
  ∧ (maxRetries p = 0 →
       attempts (execute mul p fn) = 1%nat ∧ sleeps (execute mul p fn) = []).
Proof.
  intros Hm Hfn. unfold execute.
  rewrite (execute_from_always_fails p fn err) by (done || lia).
  simpl. rewrite !Z.sub_0_r. split_and!; try done.
  intros ->. done.
Qed.

End RetryFacts.

Lemma execute_always_failing_witness :
  attempts (execute Z.mul (Policy 1 10 2) (fun k => Rejected k : outcome nat nat))
    = Z.to_nat (1 + 1)
  ∧ settled (execute Z.mul (Policy 1 10 2) (fun k => Rejected k : outcome nat nat))
    = Rejected (Some (Z.to_nat 1))
  ∧ sleeps (execute Z.mul (Policy 1 10 2) (fun k => Rejected k : outcome nat nat))
    = backoff_delays Z.mul 10 2 (Z.to_nat 1)
  ∧ (1 = 0 →
       attempts (execute Z.mul (Policy 1 10 2)
                   (fun k => Rejected k : outcome nat nat)) = 1%nat
       ∧ sleeps (execute Z.mul (Policy 1 10 2)
                   (fun k => Rejected k : outcome nat nat)) = []).
Proof.
  apply (execute_always_failing Z.mul (Policy 1 10 2)
           (fun k => Rejected k : outcome nat nat) (fun k => k)).
  - simpl. lia.
  - reflexivity.
Defined.

End RetryPolicySpec.

(** ** Timeout *)

Module TimeoutSpec.
Import Timeout.
Section RaceFacts.
Context {V E : Type}.
Implicit Types turns pre post : list (turn V E).

Lemma race_settled due (r : outcome V (failure E)) turns :
  foldl (race_step due) (Some r) turns = Some r.
Proof. induction turns as [|tn turns IH]; simpl; done. Qed.

(** As long as the promise passed in has not settled and no timers phase
    has come at or after [due], the guard is pending. *)
Lemma race_pending due pre :
  Forall (fun tn => is_timers tn ∧ clock tn < due) pre →
  foldl (race_step due) None pre = None.
Proof.
  induction 1 as [|tn pre [Ht Hc] _ IH]; simpl; [done|].
  destruct tn as [now o|now]; [done|]. simpl in Hc.
  by rewrite (proj2 (Z.leb_gt due now)) by done.
Qed.

(** Timers phases alone can only reject the guard with the timeout. *)
Lemma race_timers due pre :
  Forall is_timers pre →
  foldl (race_step due) None pre = None
  ∨ foldl (race_step due) None pre = Some (Rejected TimedOut).
Proof.
  induction 1 as [|tn pre Ht _ IH]; simpl; [by left|].
  destruct tn as [now o|now]; [done|].
  destruct (due <=? now); [|done]. right. apply race_settled.
Qed.

Lemma chronological_app pre tn post :
  chronological (pre ++ tn :: post) →
  Forall (fun x => clock x <= clock tn) pre.
Proof.
  induction pre as [|x pre IH]; simpl; [done|].
  intros [Hx Hc]. constructor; [|by apply IH].
  rewrite Forall_app, Forall_cons in Hx. by destruct Hx as (_ & ? & _).
Qed.


End RaceFacts.


End TimeoutSpec.

(** ** CachePromise *)

Module CachePromiseSpec.
Import CachePromise.
Section MemoFacts.
Context {K : Type} `{Countable K} {V E : Type}.
Implicit Types s : state K V.

Lemma truthy_expiry_for ttl now :
  (if truthy ttl then (fun t => now + t) <$> ttl else None) = expiry_for ttl now.
Proof. destruct ttl as [t|]; simpl; [|done]. by destruct (t =? 0). Qed.

Lemma fresh_unexpired now (c : cached V) :
  expiry c ≠ Some 0 → fresh now c = unexpired now c.
Proof.
  unfold fresh, unexpired. destruct (expiry c) as [x|]; simpl; [|done].
  intros Hx. destruct (Z.eqb_spec x 0) as [->|_]; done.
Qed.

Lemma unexpired_fresh now (c : cached V) :
  unexpired now c = true → fresh now c = true.
Proof.
  unfold fresh, unexpired. destruct (expiry c) as [x|]; simpl; [|done].
  intros ->. apply orb_true_r.
Qed.

(** A call that finds a usable entry. *)
Lemma memoize_hit key (fn : outcome V E) ttl now now' s c :
  cache s !! key = Some c → unexpired now c = true →
  memoize key fn ttl now now' s = (s, Fulfilled (value c)).
Proof.
  intros Hc Hu. unfold memoize. rewrite Hc. by rewrite unexpired_fresh.
Qed.

(** A call that finds no usable entry. *)
Lemma memoize_miss key (fn : outcome V E) ttl now now' s :
  (∀ c, cache s !! key = Some c →
        unexpired now c = false ∧ expiry c ≠ Some 0) →
  memoize key fn ttl now now' s =
    match fn with
    | Fulfilled v =>
      ({| cache := <[key := Cached v (expiry_for ttl now')]> (cache s);
          invocations := S (invocations s) |}, Fulfilled v)
    | Rejected e =>
      ({| cache := delete key (cache s);
          invocations := S (invocations s) |}, Rejected e)
    end.
Proof.
  intros Hm. unfold memoize. rewrite truthy_expiry_for.
  destruct (cache s !! key) as [c|] eqn:Hc.
  - destruct (Hm c eq_refl) as [Hu Hx]. rewrite fresh_unexpired, Hu by done.
    destruct fn; [|done]. by rewrite insert_delete_eq.
  - destruct fn; [done|]. by rewrite delete_id.
Qed.

(** On a clock that shows positive times, with durations that are not
    negative, no stored expiry is 0. *)
Lemma memoize_expiry_nonzero key (fn : outcome V E) ttl now now' s :
  0 < now' → (∀ t, ttl = Some t → 0 <= t) →
  (∀ k c, cache s !! k = Some c → expiry c ≠ Some 0) →
  ∀ k c, cache (memoize key fn ttl now now' s).1 !! k = Some c →
         expiry c ≠ Some 0.
Proof.
  intros Hnow Httl Hwf k c. unfold memoize. rewrite truthy_expiry_for.
  assert (expiry_for ttl now' ≠ Some 0) as Hnew.
  { destruct ttl as [t|]; simpl; [|done]. specialize (Httl t eq_refl).
    destruct (Z.eqb_spec t 0); [done|]. intros [=]. lia. }
  destruct (cache s !! key) as [c0|] eqn:Hc0;
    [destruct (fresh now c0); [apply Hwf|]|]; destruct fn; simpl;
    rewrite ?lookup_insert, ?lookup_delete; repeat case_decide;
    try done; try apply Hwf; intros [= <-]; done.
Qed.

(** C6. Let the entry stored for [key], if any, have an expiry other than
    0 (on a clock that shows positive times no stored expiry is 0).  A call
    that finds an entry without expiry, or whose expiry is later than the
    current time, returns the stored value, calls no task and changes
    nothing.  Any other call calls the task and, when the task succeeds
    with [v], stores [v] with expiry "time after the task plus ttl" (none
    when ttl is absent or 0) and returns [v].  So after a first call that
    stored [v] at time [now'] with a positive [t] as ttl, a call at a time
    before [now' + t] returns [v] and calls no task, and a call at
    [now' + t] or later calls its task. *)
Theorem memoize_spec (key : K) (ttl : option Z) (now now' : Z) (s : state K V) :
  (∀ c, cache s !! key = Some c → expiry c ≠ Some 0) →
  (∀ (fn : outcome V E) c,
      cache s !! key = Some c → unexpired now c = true →
      memoize key fn ttl now now' s = (s, Fulfilled (value c)))
  ∧ (∀ v,
      (∀ c, cache s !! key = Some c → unexpired now c = false) →
      memoize key (Fulfilled v : outcome V E) ttl now now' s =
        ({| cache := <[key := Cached v (expiry_for ttl now')]> (cache s);
            invocations := S (invocations s) |}, Fulfilled v))
  ∧ (∀ v t (fn2 : outcome V E) ttl2 now2 now2',
      (∀ c, cache s !! key = Some c → unexpired now c = false) →
      ttl = Some t → 0 < t → 0 <= now' →
      invocations (memoize key (Fulfilled v : outcome V E) ttl now now' s).1
        = S (invocations s)
      ∧ (now2 < now' + t →
         memoize key fn2 ttl2 now2 now2'
           (memoize key (Fulfilled v : outcome V E) ttl now now' s).1
         = ((memoize key (Fulfilled v : outcome V E) ttl now now' s).1,
            Fulfilled v))
      ∧ (now' + t <= now2 →
         invocations
           (memoize key fn2 ttl2 now2 now2'
              (memoize key (Fulfilled v : outcome V E) ttl now now' s).1).1
         = S (invocations
                (memoize key (Fulfilled v : outcome V E) ttl now now' s).1))).
Proof.
  intros Hwf. split_and!.
  - intros fn c. apply memoize_hit.
  - intros v Hm. rewrite memoize_miss; [done|]. intros c Hc. split; eauto.
  - intros v t fn2 ttl2 now2 now2' Hm -> Ht Hnow.
    rewrite (memoize_miss key (Fulfilled v)) by (intros c Hc; split; eauto).
    simpl. destruct (Z.eqb_spec t 0) as [?|_]; [lia|]. split_and!.
    + done.
    + intros Hlt. apply memoize_hit with (c := Cached v (Some (now' + t))).
      * simpl. apply lookup_insert_eq.
      * unfold unexpired. simpl. by apply Z.ltb_lt.
    + intros Hge. rewrite memoize_miss; [by destruct fn2|].
      simpl. intros c. rewrite lookup_insert_eq. intros [= <-].
      unfold unexpired. simpl. split; [apply Z.ltb_ge; lia|].
      intros [=]. lia.
Qed.

(** C10, as the code has it.  When the call finds no usable entry (so that
    the task is called) and the task fails with [e], [memoize] rejects with
    [e]; afterwards there is no entry for [key] and every other key is as
    before: the only change to the cache is that the expired entry for
    [key], if there was one, is gone.  The next call for [key] calls its
    task again. *)
Theorem memoize_failure (key : K) (e : E) (ttl : option Z) (now now' : Z)
    (s : state K V) :
  (∀ c, cache s !! key = Some c →
        unexpired now c = false ∧ expiry c ≠ Some 0) →
  (memoize key (Rejected e : outcome V E) ttl now now' s).2 = Rejected e
  ∧ cache (memoize key (Rejected e : outcome V E) ttl now now' s).1
      = delete key (cache s)
  ∧ (cache s !! key = None →
     cache (memoize key (Rejected e : outcome V E) ttl now now' s).1 = cache s)
  ∧ (∀ (fn2 : outcome V E) ttl2 now2 now2',
       invocations
         (memoize key fn2 ttl2 now2 now2'
            (memoize key (Rejected e : outcome V E) ttl now now' s).1).1
       = S (invocations
              (memoize key (Rejected e : outcome V E) ttl now now' s).1)).
Proof.
  intros Hm. rewrite (memoize_miss key (Rejected e)) by done. simpl.
  split_and!; try done.
  - intros Hn. by apply delete_id.
  - intros fn2 ttl2 now2 now2'. rewrite memoize_miss; [by destruct fn2|].
    simpl. intros c. by rewrite lookup_delete_eq.
Qed.

End MemoFacts.

Lemma memoize_spec_witness :
  (∀ (fn : outcome nat nat) c,
      cache (new : state nat nat) !! 7%nat = Some c → unexpired 1000 c = true →
      memoize 7%nat fn (Some 100) 1000 1030 new = (new, Fulfilled (value c)))
  ∧ (∀ v,
      (∀ c, cache (new : state nat nat) !! 7%nat = Some c →
            unexpired 1000 c = false) →
      memoize 7%nat (Fulfilled v : outcome nat nat) (Some 100) 1000 1030 new =
        ({| cache := <[7%nat := Cached v (expiry_for (Some 100) 1030)]>
                       (cache (new : state nat nat));
            invocations := S (invocations (new : state nat nat)) |},
         Fulfilled v))
  ∧ (∀ v t (fn2 : outcome nat nat) ttl2 now2 now2',
      (∀ c, cache (new : state nat nat) !! 7%nat = Some c →
            unexpired 1000 c = false) →
      Some 100 = Some t → 0 < t → 0 <= 1030 →
      invocations
        (memoize 7%nat (Fulfilled v : outcome nat nat) (Some 100) 1000 1030
           new).1
        = S (invocations (new : state nat nat))
      ∧ (now2 < 1030 + t →
         memoize 7%nat fn2 ttl2 now2 now2'
           (memoize 7%nat (Fulfilled v : outcome nat nat) (Some 100) 1000 1030
              new).1
         = ((memoize 7%nat (Fulfilled v : outcome nat nat) (Some 100) 1000 1030
               new).1,
            Fulfilled v))
      ∧ (1030 + t <= now2 →
         invocations
           (memoize 7%nat fn2 ttl2 now2 now2'
              (memoize 7%nat (Fulfilled v : outcome nat nat) (Some 100) 1000
                 1030 new).1).1
         = S (invocations
                (memoize 7%nat (Fulfilled v : outcome nat nat) (Some 100) 1000
                   1030 new).1))).
Proof.
  apply (memoize_spec 7%nat (Some 100) 1000 1030 (new : state nat nat)).
  intros c Hc. simpl in Hc. rewrite lookup_empty in Hc. discriminate.
Defined.

Lemma memoize_failure_witness :
  (memoize 7%nat (Rejected 3%nat : outcome nat nat) None 10 12
       ({| cache := {[ 7%nat := Cached 1%nat (Some 5) ]}; invocations := 1 |} : state nat nat)).2
    = Rejected 3%nat
  ∧ cache (memoize 7%nat (Rejected 3%nat : outcome nat nat) None 10 12
       ({| cache := {[ 7%nat := Cached 1%nat (Some 5) ]}; invocations := 1 |} : state nat nat)).1
    = delete 7%nat (cache ({| cache := {[ 7%nat := Cached 1%nat (Some 5) ]}; invocations := 1 |} : state nat nat))
  ∧ (cache ({| cache := {[ 7%nat := Cached 1%nat (Some 5) ]}; invocations := 1 |} : state nat nat) !! 7%nat = None →
     cache (memoize 7%nat (Rejected 3%nat : outcome nat nat) None 10 12
       ({| cache := {[ 7%nat := Cached 1%nat (Some 5) ]}; invocations := 1 |} : state nat nat)).1
     = cache ({| cache := {[ 7%nat := Cached 1%nat (Some 5) ]}; invocations := 1 |} : state nat nat))
  ∧ (∀ (fn2 : outcome nat nat) ttl2 now2 now2',
       invocations
         (memoize 7%nat fn2 ttl2 now2 now2'
            (memoize 7%nat (Rejected 3%nat : outcome nat nat) None 10 12
       ({| cache := {[ 7%nat := Cached 1%nat (Some 5) ]}; invocations := 1 |} : state nat nat)).1).1
       = S (invocations
              (memoize 7%nat (Rejected 3%nat : outcome nat nat) None 10 12
       ({| cache := {[ 7%nat := Cached 1%nat (Some 5) ]}; invocations := 1 |} : state nat nat)).1)).
Proof.
  apply (memoize_failure 7%nat 3%nat None 10 12
           ({| cache := {[ 7%nat := Cached 1%nat (Some 5) ]}; invocations := 1 |} : state nat nat)).
  intros c Hc. cbn [cache] in Hc. rewrite lookup_singleton_eq in Hc.
  injection Hc as <-. split; [reflexivity|discriminate].
Defined.

(** C10, as stated, fails: an expired entry for the key is removed before
    the task is called, so a failing task leaves a cache that differs from
    the one before the call. *)
Lemma memoize_failure_evicts :
  (memoize 7%nat (Rejected 3%nat : outcome nat nat) None 10 12
     {| cache := {[ 7%nat := Cached 1%nat (Some 5) ]}; invocations := 0 |})
  = ({| cache := ∅; invocations := 1 |}, Rejected 3%nat)
  ∧ (∅ : gmap nat (cached nat)) ≠ {[ 7%nat := Cached 1%nat (Some 5) ]}.
Proof.
  split.
  - unfold memoize. cbn [cache invocations]. rewrite lookup_singleton_eq.
    cbn [fresh truthy expiry negb orb Z.eqb Z.ltb Z.compare Pos.compare
         Pos.compare_cont]. by rewrite delete_singleton_eq.
  - intros Heq. apply (f_equal (fun m => m !! 7%nat)) in Heq.
    rewrite lookup_empty, lookup_singleton_eq in Heq. discriminate.
Qed.

End CachePromiseSpec.

(** ** AsyncIterator *)

Module AsyncIteratorSpec.
Import AsyncIterator.
Section IterFacts.
Context {A : Type}.

(** The loop of [batch], entered with a current array shorter than the
    batch size. *)
Lemma batch_from_spec (source : list A) (k : Z) (acc : list A) :
  1 <= k → (length acc < Z.to_nat k)%nat →
  ∃ full last,
    batch_from source k acc = full ++ last
    ∧ Forall (fun g => length g = Z.to_nat k) full
    ∧ length full = ((length acc + length source) / Z.to_nat k)%nat
    ∧ concat (full ++ last) = acc ++ source
    ∧ (((length acc + length source) mod Z.to_nat k = 0)%nat → last = [])
    ∧ (((length acc + length source) mod Z.to_nat k ≠ 0)%nat →
       ∃ g, last = [g]
         ∧ length g = ((length acc + length source) mod Z.to_nat k)%nat).
Proof.
  intros Hk. revert acc.
  induction source as [|item rest IH]; intros acc Hacc; simpl.
  - rewrite Nat.add_0_r, Nat.div_small, Nat.mod_small by done.
    case_bool_decide as Hpos.
    + exists [], [acc]. simpl. rewrite !app_nil_r.
      split_and!; try done; [lia|]. intros _. by exists acc.
    + exists [], []. simpl. split_and!; try done.
      * destruct acc; [done|simpl in Hpos; lia].
      * lia.
  - destruct (Z.eqb_spec (Z.of_nat (length (acc ++ [item]))) k) as [Heq|Hne].
    + destruct (IH []) as (full & last & Hb & Hfull & Hlen & Hcat & Hz & Hnz);
        [simpl; lia|].
      rewrite length_app in Heq. simpl in *.
      assert (length acc + S (length rest)
              = length rest + 1 * Z.to_nat k)%nat as Hm by lia.
      exists ((acc ++ [item]) :: full), last.
      rewrite Hm, Nat.div_add, Nat.Div0.mod_add by lia.
      split_and!; try done.
      * by rewrite Hb.
      * constructor; [|done]. rewrite length_app. simpl. lia.
      * simpl. lia.
      * simpl. rewrite Hcat, <- app_assoc. done.
    + destruct (IH (acc ++ [item]))
        as (full & last & Hb & Hfull & Hlen & Hcat & Hz & Hnz).
      { rewrite length_app in *. simpl in *. lia. }
      rewrite length_app in Hlen, Hz, Hnz. simpl in Hlen, Hz, Hnz.
      rewrite <- app_assoc in Hcat. simpl in Hcat.
      replace (length acc + 1 + length rest)%nat
        with (length acc + S (length rest))%nat in * by lia.
      exists full, last. split_and!; done.
Qed.

(** C7. For a batch size [k >= 1], [batch] yields the items of the source
    in arrival order, cut into [length source / k] consecutive groups of
    exactly [k] items, followed by one more group, of
    [length source mod k] items, exactly when that remainder is not 0;
    an empty source yields nothing. *)
Theorem batch_groups (source : list A) (k : Z) :
  1 <= k →
  ∃ full last,
    batch source k = full ++ last
    ∧ concat (batch source k) = source
    ∧ Forall (fun g => length g = Z.to_nat k) full
    ∧ length full = (length source / Z.to_nat k)%nat
    ∧ ((length source mod Z.to_nat k = 0)%nat → last = [])
    ∧ ((length source mod Z.to_nat k ≠ 0)%nat →
       ∃ g, last = [g]
         ∧ length g = (length source mod Z.to_nat k)%nat
         ∧ (0 < length g < Z.to_nat k)%nat)
    ∧ (source = [] → batch source k = []).
Proof.
  intros Hk.
  destruct (batch_from_spec source k [] Hk)
    as (full & last & Hb & Hfull & Hlen & Hcat & Hz & Hnz); [simpl; lia|].
  simpl in *. exists full, last. unfold batch. rewrite Hb.
  split_and!; try done.
  - intros Hm. destruct (Hnz Hm) as (g & -> & Hg). exists g.
    split_and!; [done|done|lia|].
    rewrite Hg. apply Nat.mod_upper_bound. lia.
  - intros ->. simpl in *. rewrite Nat.Div0.mod_0_l in Hz.
    rewrite Nat.Div0.div_0_l in Hlen. destruct full; [|done].
    by rewrite Hz.
Qed.

End IterFacts.

Lemma batch_groups_witness :
  ∃ full last,
    batch [1; 2; 3; 4; 5] 2 = full ++ last
    ∧ concat (batch [1; 2; 3; 4; 5] 2) = [1; 2; 3; 4; 5]
    ∧ Forall (fun g => length g = Z.to_nat 2) full
    ∧ length full = (length [1; 2; 3; 4; 5] / Z.to_nat 2)%nat
    ∧ ((length [1; 2; 3; 4; 5] mod Z.to_nat 2 = 0)%nat → last = [])
    ∧ ((length [1; 2; 3; 4; 5] mod Z.to_nat 2 ≠ 0)%nat →
       ∃ g, last = [g]
         ∧ length g = (length [1; 2; 3; 4; 5] mod Z.to_nat 2)%nat
         ∧ (0 < length g < Z.to_nat 2)%nat)
    ∧ ([1; 2; 3; 4; 5] = [] → batch [1; 2; 3; 4; 5] 2 = []).
Proof. apply (batch_groups [1; 2; 3; 4; 5] 2). lia. Defined.

(** The example of the specification. *)
Example batch_five_by_two :
  batch [1; 2; 3; 4; 5] 2 = [[1; 2]; [3; 4]; [5]]
  ∧ batch ([] : list Z) 2 = [].
Proof. split; reflexivity. Qed.

End AsyncIteratorSpec.

(** * Further properties of the code *)

(** ** PromisePool: dispatch, failures, slots *)

Module PromisePoolMore.
Import PromisePool PoolTrace.
Section PoolMore.
Context {V E : Type}.
Implicit Types p : pool V E.

(** X1. In a pool, no item waits while a slot is free: whenever the running
    count is below the concurrency, the waiting queue is empty. *)
Theorem no_waiting_while_slot_free (c : Z) (evs : list (event V E)) :
  running (run (new c) evs) < c →
  queue (run (new c) evs) = [].
Proof.
  intros Hlt. destruct (PromisePoolSpec.run_inv evs _ (PromisePoolSpec.new_inv c))
    as [_ Hidle].
  apply Hidle. by rewrite PromisePoolSpec.run_concurrency.
Qed.

Lemma process_loop_settlements fuel p :
  settlements (log (process_loop fuel p).1) = settlements (log p).
Proof.
  revert p. induction fuel as [|fuel IH]; intros p; simpl; [done|].
  destruct (queue p) as [|it rest]; [done|].
  destruct (running p <? concurrency p); [|done].
  destruct (task it); simpl.
  - apply settlements_snoc_started.
  - rewrite IH. simpl. apply settlements_snoc_started.
Qed.

(** X2. When the promise of a pending task settles with [o], the history of
    settlements grows by exactly the settlement of that task's handle with
    [o]: a failure reaches the handle of the failing task and no other. *)
Theorem settlement_reaches_own_handle (c : Z) (evs : list (event V E))
    (h : nat) (o : outcome V E) :
  h ∈ inflight (run (new c) evs) →
  settlements (log (on_settled h o (run (new c) evs)))
    = settlements (log (run (new c) evs)) ++ [(h, o)].
Proof.
  intros Hin.
  destruct (PromisePoolSpec.run_inv evs _ (PromisePoolSpec.new_inv c)) as [Hi _].
  destruct (PromisePool.inv_pending _ Hi h Hin) as [_ Hnot].
  unfold on_settled, _process. rewrite bool_decide_eq_true_2 by done.
  rewrite process_loop_settlements. simpl.
  by rewrite (settle_fresh h o _ Hnot), settlements_app.
Qed.

(** X3. When a task that throws is added while a slot is free, the promise
    returned by [add] is rejected with the thrown error in the same call;
    the running count stays incremented although no task is pending, and
    the queue stays empty. *)
Theorem add_throwing_task (c : Z) (evs : list (event V E)) (e : E) :
  running (run (new c) evs) < c →
  settlements (log (add (Throws e) (run (new c) evs)))
    = settlements (log (run (new c) evs))
        ++ [(next_handle (run (new c) evs), Rejected e)]
  ∧ running (add (Throws e) (run (new c) evs)) = running (run (new c) evs) + 1
  ∧ inflight (add (Throws e) (run (new c) evs)) = inflight (run (new c) evs)
  ∧ queue (add (Throws e) (run (new c) evs)) = [].
Proof.
  intros Hlt.
  destruct (PromisePoolSpec.run_inv evs _ (PromisePoolSpec.new_inv c))
    as [Hi Hidle].
  assert (running (run (new c) evs) < concurrency (run (new c) evs)) as Hlt'
    by (by rewrite PromisePoolSpec.run_concurrency).
  pose proof (Hidle Hlt') as Hq.
  rewrite (PromisePoolSpec.add_free (Throws e) _ Hlt' Hq). simpl.
  split_and!; try done.
  rewrite settle_fresh.
  - rewrite settlements_app, settlements_snoc_started. done.
  - rewrite settled_handles_snoc_started. intros Hs.
    apply (PromisePool.inv_settled _ Hi) in Hs.
    apply (PromisePoolSpec.order_started_lt _ _ (PromisePool.inv_order _ Hi)) in Hs.
    lia.
Qed.

Lemma run_not_positive (c : Z) (evs : list (event V E)) :
  c <= 0 →
  running (run (new c) evs) = 0
  ∧ inflight (run (new c) evs) = []
  ∧ log (run (new c) evs) = []
  ∧ concurrency (run (new c) evs) = c.
Proof.
  intros Hc. induction evs as [|ev evs IH] using rev_ind; [done|].
  rewrite PromisePoolSpec.run_snoc. destruct IH as (Hr & Hi & Hl & Hcc).
  destruct ev as [t|h o]; simpl.
  - rewrite PromisePoolSpec.add_busy by lia. done.
  - unfold on_settled. rewrite Hi. by rewrite bool_decide_eq_false_2 by mem.
Qed.

(** X4. A pool whose concurrency is 0 or negative never calls a task: every
    added task stays in the waiting queue and no handle settles; so the
    promise of [execute] on a non-empty list of tasks stays pending. *)
Theorem pool_without_slots (c : Z) (evs : list (event V E))
    (tasks : list (call E)) (l : list (nat * outcome V E)) :
  c <= 0 →
  started_handles (log (run (new c) evs)) = []
  ∧ settlements (log (run (new c) evs)) = []
  ∧ map handle (queue (run (new c) evs)) = seq 0 (next_handle (run (new c) evs))
  ∧ (tasks ≠ [] → execute_result tasks c l = None).
Proof.
  intros Hc. destruct (run_not_positive c evs Hc) as (_ & _ & Hl & _).
  destruct (PromisePoolSpec.run_inv evs _ (PromisePoolSpec.new_inv c))
    as [[Ho _ _ _ _ _] _].
  rewrite Hl in *. split_and!; try done.
  intros Ht. unfold execute_result. rewrite PromisePoolSpec.execute_run.
  rewrite <- PromisePoolSpec.run_app.
  destruct (run_not_positive c ((Add <$> tasks) ++ settle_events l) Hc)
    as (_ & _ & -> & _).
  simpl. unfold promise_all. simpl. destruct tasks; [done|]. done.
Qed.

(** X5. When the promise of a pending task settles, with success or with
    failure, while items wait, the head of the waiting queue is called in
    the same callback: a failure does not stop the dispatch. *)
Theorem settlement_starts_next (c : Z) (evs : list (event V E))
    (h : nat) (o : outcome V E) (it : item E) (rest : list (item E)) :
  h ∈ inflight (run (new c) evs) →
  queue (run (new c) evs) = it :: rest →
  handle it ∈ started_handles (log (on_settled h o (run (new c) evs))).
Proof.
  intros Hin Hq. destruct (decide (0 <= c)) as [Hc|Hc].
  - apply PromisePoolSpec.on_settled_starts_head with (rest := rest); try done.
    + apply PromisePoolSpec.run_inv, PromisePoolSpec.new_inv.
    + assert (bounded (@new V E c)) as Hb by (split; simpl; lia).
      by apply (PromisePoolSpec.run_bounded evs) in Hb as [Hr _ _].
  - destruct (run_not_positive c evs) as (_ & Hi & _); [lia|].
    rewrite Hi in Hin. by apply elem_of_nil in Hin.
Qed.

(** *** Slots taken by tasks that throw *)

Lemma length_filter_ne (l : list nat) h :
  NoDup l → h ∈ l → (length (filter (fun x => x ≠ h) l) + 1 = length l)%nat.
Proof.
  induction 1 as [|x l Hx Hnd IH]; intros Hin; [by apply elem_of_nil in Hin|].
  destruct (decide (x = h)) as [->|Hne].
  - rewrite filter_cons_False by (intros ?; done).
    rewrite AsyncQueueSpec.filter_all; [simpl; lia|].
    apply Forall_forall. intros y Hy ->. done.
  - rewrite filter_cons_True by done. simpl.
    apply elem_of_cons in Hin as [?|Hin]; [done|]. specialize (IH Hin). lia.
Qed.

Lemma thrown_app (tasks : list (call E)) hs1 hs2 :
  thrown tasks (hs1 ++ hs2) = (thrown tasks hs1 + thrown tasks hs2)%nat.
Proof. unfold thrown. by rewrite filter_app, length_app. Qed.

Lemma thrown_extend (tasks more : list (call E)) hs :
  Forall (fun h => (h < length tasks)%nat) hs →
  thrown (tasks ++ more) hs = thrown tasks hs.
Proof.
  induction 1 as [|h hs Hh _ IH]; [done|]. unfold thrown in *.
  assert (throws_at (tasks ++ more) h = throws_at tasks h) as Heq
    by (unfold throws_at; by rewrite lookup_app_l).
  destruct (throws_at tasks h) eqn:Ht.
  - rewrite !filter_cons_True by congruence. simpl. by rewrite IH.
  - rewrite !filter_cons_False by congruence. done.
Qed.

Lemma process_loop_accounted fuel tasks p :
  accounted tasks p → accounted tasks (process_loop fuel p).1.
Proof.
  revert p. induction fuel as [|fuel IH]; intros p Ha; simpl; [done|].
  destruct (queue p) as [|it rest] eqn:Hq; [done|].
  destruct (running p <? concurrency p); [|done].
  destruct Ha as [Hq' Hr]. rewrite Hq in Hq'.
  assert (tasks !! handle it = Some (task it)) as Hit by (apply Hq'; by left).
  assert (∀ it', it' ∈ rest → tasks !! handle it' = Some (task it')) as Hrest
    by (intros it' Hit'; apply Hq'; by right).
  destruct (task it) eqn:Ht.
  - split; simpl; [done|]. rewrite started_handles_snoc, thrown_app.
    unfold thrown at 2. rewrite filter_cons_True, filter_nil
      by (unfold throws_at; by rewrite Hit).
    simpl. lia.
  - apply IH. split; simpl; [done|].
    rewrite started_handles_snoc, thrown_app, length_app.
    unfold thrown at 2. rewrite filter_cons_False, filter_nil
      by (unfold throws_at; by rewrite Hit).
    simpl. lia.
Qed.

Lemma run_accounted (c : Z) (evs : list (event V E)) :
  accounted (added evs) (run (new c) evs)
  ∧ next_handle (run (new c) evs) = length (added evs).
Proof.
  induction evs as [|ev evs IH] using rev_ind.
  { split; [split|done]; simpl; [|done]. intros it Hit.
    by apply elem_of_nil in Hit. }
  destruct IH as [[Hq Hr] Hn]. rewrite PromisePoolSpec.run_snoc.
  destruct (PromisePoolSpec.run_inv evs _ (PromisePoolSpec.new_inv c))
    as [Hi _].
  set (p := run (new c) evs) in *.
  assert (Forall (fun h => (h < length (added evs))%nat)
            (started_handles (log p))) as Hst.
  { apply Forall_forall. intros h Hh. rewrite <- Hn.
    by apply (PromisePoolSpec.order_started_lt p _ (PromisePool.inv_order _ Hi)). }
  unfold added in *. rewrite omap_app. simpl.
  pose proof (PromisePoolSpec.step_next_handle p ev) as Hnext.
  destruct ev as [t|h o]; simpl in *.
  - rewrite Hnext, length_app, Hn.
    split; [|simpl; lia].
    unfold add, _process.
    match goal with |- context [process_loop ?f ?x] =>
      pose proof (process_loop_accounted f
        (omap (fun ev => match ev with Add t => Some t | Settle _ _ => None end)
           evs ++ [t]) x) as Hl;
      destruct (process_loop f x) as [p2 [e|]] end; simpl in Hl.
    + destruct Hl as [Hq2 Hr2].
      * split; simpl.
        -- intros it [Hit| ->%list_elem_of_singleton]%elem_of_app.
           ++ rewrite lookup_app_l; [by apply Hq|].
              apply lookup_lt_is_Some. rewrite (Hq it Hit). by eexists.
           ++ simpl. rewrite Hn. by rewrite lookup_app_r, Nat.sub_diag.
        -- by rewrite thrown_extend.
      * split; simpl; [done|]. by rewrite started_handles_settle.
    + apply Hl. split; simpl.
      * intros it [Hit| ->%list_elem_of_singleton]%elem_of_app.
        -- rewrite lookup_app_l; [by apply Hq|].
           apply lookup_lt_is_Some. rewrite (Hq it Hit). by eexists.
        -- simpl. rewrite Hn. by rewrite lookup_app_r, Nat.sub_diag.
      * by rewrite thrown_extend.
  - rewrite app_nil_r, Hnext.
    split; [|done]. unfold on_settled, _process.
    case_bool_decide as Hin; [|done].
    apply process_loop_accounted. split; simpl; [done|].
    rewrite started_handles_settle.
    pose proof (length_filter_ne (inflight p) h (PromisePool.inv_nodup _ Hi) Hin).
    lia.
Qed.

(** X6. At any time the running count of a pool is the number of pending
    tasks plus the number of tasks called so far that threw instead of
    returning: [this.running++] is never undone for such a task.  When no
    added task throws, the running count is the number of pending tasks. *)
Theorem running_counts_pending_and_thrown (c : Z) (evs : list (event V E)) :
  running (run (new c) evs)
    = Z.of_nat (length (inflight (run (new c) evs)))
      + Z.of_nat (thrown (added evs) (started_handles (log (run (new c) evs))))
  ∧ (Forall (fun t => t = Returns) (added evs) →
     running (run (new c) evs)
       = Z.of_nat (length (inflight (run (new c) evs)))).
Proof.
  destruct (run_accounted c evs) as [[_ Hr] _]. split; [done|].
  intros Hall. rewrite Hr.
  assert (thrown (added evs) (started_handles (log (run (new c) evs))) = 0%nat)
    as ->; [|lia].
  unfold thrown. rewrite AsyncQueueSpec.filter_none; [done|].
  apply Forall_forall. intros h _. unfold throws_at.
  destruct (added evs !! h) as [t|] eqn:Ht; [|done].
  rewrite Forall_forall in Hall. rewrite (Hall t); [done|].
  by apply list_elem_of_lookup_2 in Ht.
Qed.

End PoolMore.

Lemma pool_without_slots_witness :
  started_handles (log (run (new 0) [Add Returns; Add Returns] : pool nat nat)) = []
  ∧ settlements (log (run (new 0) [Add Returns; Add Returns] : pool nat nat)) = []
  ∧ map handle (queue (run (new 0) [Add Returns; Add Returns] : pool nat nat))
    = seq 0 (next_handle (run (new 0) [Add Returns; Add Returns] : pool nat nat))
  ∧ (([Returns] : list (call nat)) ≠ [] →
     execute_result [Returns] 0 [(0%nat, Fulfilled 1%nat)]
       = (None : option (outcome (list nat) nat))).
Proof.
  apply (pool_without_slots 0 [Add Returns; Add Returns] [Returns]
           [(0%nat, Fulfilled 1%nat)]).
  lia.
Defined.

Lemma settlement_starts_next_witness :
  handle (Item 1 (Throws 3%nat))
    ∈ started_handles
        (log (on_settled 0 (Rejected 4%nat)
                (run (new 1) [Add Returns; Add (Throws 3%nat)] : pool nat nat))).
Proof.
  apply (settlement_starts_next 1 [Add Returns; Add (Throws 3%nat)] 0
           (Rejected 4%nat) (Item 1 (Throws 3%nat)) []).
  - vm_compute. by left.
  - reflexivity.
Defined.

Lemma no_waiting_while_slot_free_witness :
  queue (run (new 2) [Add Returns] : pool nat nat) = [].
Proof.
  apply (no_waiting_while_slot_free 2 [Add Returns]). vm_compute. reflexivity.
Defined.

Lemma settlement_reaches_own_handle_witness :
  settlements (log (on_settled 0 (Rejected 4%nat)
                      (run (new 1) [Add Returns; Add Returns] : pool nat nat)))
    = settlements (log (run (new 1) [Add Returns; Add Returns] : pool nat nat))
        ++ [(0%nat, Rejected 4%nat)].
Proof.
  apply (settlement_reaches_own_handle 1 [Add Returns; Add Returns]).
  vm_compute. by left.
Defined.

Lemma add_throwing_task_witness :
  settlements (log (add (Throws 9%nat) (run (new 2) [Add Returns] : pool nat nat)))
    = settlements (log (run (new 2) [Add Returns] : pool nat nat))
        ++ [(next_handle (run (new 2) [Add Returns] : pool nat nat), Rejected 9%nat)]
  ∧ running (add (Throws 9%nat) (run (new 2) [Add Returns] : pool nat nat))
    = running (run (new 2) [Add Returns] : pool nat nat) + 1
  ∧ inflight (add (Throws 9%nat) (run (new 2) [Add Returns] : pool nat nat))
    = inflight (run (new 2) [Add Returns] : pool nat nat)
  ∧ queue (add (Throws 9%nat) (run (new 2) [Add Returns] : pool nat nat)) = [].
Proof.
  apply (add_throwing_task 2 [Add Returns] 9%nat). vm_compute. reflexivity.
Defined.

End PromisePoolMore.

(** ** AsyncQueue: waiting, failures *)

Module AsyncQueueMore.
Import AsyncQueue.
Section QueueMore.
Context {V E : Type}.
Implicit Types q : queue V E.

(** X7. [waitAll] goes on polling exactly while the flag [processing] is
    set, which is exactly while one task is being executed; while the flag
    is clear nothing waits in the queue. *)
Theorem waitAll_waits_while_executing (evs : list (event V E)) :
  waitAll_waits (run new evs) = processing (run new evs)
  ∧ (processing (run new evs) = true → ∃ h, executing (run new evs) = [h])
  ∧ (processing (run new evs) = false →
     tasks (run new evs) = [] ∧ executing (run new evs) = []).
Proof.
  destruct (AsyncQueueSpec.queue_run_inv evs _ AsyncQueueSpec.queue_new_inv)
    as (done & _ & Hflag & _).
  unfold waitAll_waits. destruct (processing (run new evs)).
  - split_and!; [apply orb_true_r| |done]. intros _.
    destruct (executing (run new evs)) as [|h [|? ?]]; try done. by exists h.
  - destruct Hflag as [Hex Ht]. rewrite (Ht eq_refl), Hex. done.
Qed.

(** X8. A task that throws when the idle queue calls it: the promise
    returned by [add] is rejected with the thrown error in the same call,
    and the queue is idle again. *)
Theorem add_throwing_task_to_idle_queue (evs : list (event V E)) (e : E) :
  processing (run new evs) = false →
  log (add (Throws e) (run new evs))
    = log (run new evs)
        ++ [Started (next_handle (run new evs));
            Settled (next_handle (run new evs)) (Rejected e)]
  ∧ processing (add (Throws e) (run new evs)) = false
  ∧ tasks (add (Throws e) (run new evs)) = [].
Proof.
  intros Hp.
  destruct (AsyncQueueSpec.queue_run_inv evs _ AsyncQueueSpec.queue_new_inv)
    as (done & Hi).
  pose proof (AsyncQueueSpec.settled_handles_inv _ _ _ Hi) as Hs.
  destruct Hi as (_ & Hflag & Hord & _). rewrite Hp in Hflag.
  destruct Hflag as [Hex Ht]. specialize (Ht eq_refl).
  unfold add, _processNext. simpl. rewrite Ht, Hp. simpl.
  rewrite settle_fresh.
  - rewrite <- app_assoc. done.
  - rewrite settled_handles_snoc_started, Hs. intros Hin.
    assert (next_handle (run new evs)
            ∈ filter (fun h => h ∉ dropped (run new evs))
                (seq 0 (next_handle (run new evs)))) as Hf
      by (rewrite <- Hord; mem).
    apply list_elem_of_filter in Hf as [_ Hf]. apply elem_of_seq in Hf. lia.
Qed.

Lemma settlements_prefix (l1 l2 : list (entry V E)) :
  l1 `prefix_of` l2 → settlements l1 `prefix_of` settlements l2.
Proof. intros [k ->]. rewrite settlements_app. by apply prefix_app_r. Qed.

(** X9. When the promise of the task being executed settles with [o], its
    handle is the next one to settle, with [o]; this holds also after
    [clear()], which leaves the task being executed alone. *)
Theorem queue_settlement_reaches_own_handle (evs : list (event V E))
    (h : nat) (o : outcome V E) :
  h ∈ executing (run new evs) →
  settlements (log (run new evs)) ++ [(h, o)]
    `prefix_of` settlements (log (on_settled h o (run new evs))).
Proof.
  intros Hin.
  destruct (AsyncQueueSpec.queue_run_inv evs _ AsyncQueueSpec.queue_new_inv)
    as (done & Hi).
  pose proof (AsyncQueueSpec.settled_handles_inv _ _ _ Hi) as Hs.
  pose proof (AsyncQueueSpec.inv_with_NoDup _ _ _ Hi) as Hnd.
  unfold on_settled, _processNext. rewrite bool_decide_eq_true_2 by done.
  etrans; [|apply settlements_prefix, AsyncQueueSpec.process_next_log_prefix].
  simpl. rewrite settle_fresh.
  - by rewrite settlements_app.
  - rewrite Hs. apply NoDup_app in Hnd as (_ & Hdis & _).
    intros Hd. apply (Hdis _ Hd). mem.
Qed.

(** X10. When the promise of the task being executed settles, with success
    or with failure, the head of the waiting queue is called in the same
    callback: a failing task does not stop the queue. *)
Theorem queue_settlement_starts_next (evs : list (event V E))
    (h : nat) (o : outcome V E) (it : item E) (rest : list (item E)) :
  h ∈ executing (run new evs) →
  tasks (run new evs) = it :: rest →
  handle it ∈ started_handles (log (on_settled h o (run new evs))).
Proof.
  intros Hin Hq. unfold on_settled, _processNext.
  rewrite bool_decide_eq_true_2 by done. cbn [tasks]. rewrite Hq.
  rewrite AsyncQueueSpec.process_next_S. cbn [processing tasks].
  destruct (task it).
  - match goal with |- context [process_next ?f ?x] =>
      destruct (AsyncQueueSpec.process_next_log_prefix f x) as [k ->] end.
    cbn [log]. rewrite started_handles_app, started_handles_settle.
    rewrite started_handles_snoc. mem.
  - cbn [log]. rewrite started_handles_snoc. mem.
Qed.

End QueueMore.

Lemma add_throwing_task_to_idle_queue_witness :
  log (add (Throws 2%nat) (run new [Add (Throws 1%nat)] : queue nat nat))
    = log (run new [Add (Throws 1%nat)] : queue nat nat)
        ++ [Started (next_handle (run new [Add (Throws 1%nat)] : queue nat nat));
            Settled (next_handle (run new [Add (Throws 1%nat)] : queue nat nat))
              (Rejected 2%nat)]
  ∧ processing (add (Throws 2%nat) (run new [Add (Throws 1%nat)] : queue nat nat))
    = false
  ∧ tasks (add (Throws 2%nat) (run new [Add (Throws 1%nat)] : queue nat nat)) = [].
Proof.
  apply (add_throwing_task_to_idle_queue [Add (Throws 1%nat)] 2%nat).
  reflexivity.
Defined.

Lemma queue_settlement_reaches_own_handle_witness :
  settlements (log (run new [Add Returns; Add Returns; Clear] : queue nat nat))
      ++ [(0%nat, Rejected 4%nat)]
    `prefix_of`
  settlements (log (on_settled 0 (Rejected 4%nat)
                      (run new [Add Returns; Add Returns; Clear] : queue nat nat))).
Proof.
  apply (queue_settlement_reaches_own_handle [Add Returns; Add Returns; Clear] 0
           (Rejected 4%nat)).
  vm_compute. by left.
Defined.

Lemma queue_settlement_starts_next_witness :
  handle (Item 1 (Throws 3%nat))
    ∈ started_handles
        (log (on_settled 0 (Rejected 4%nat)
                (run new [Add Returns; Add (Throws 3%nat)] : queue nat nat))).
Proof.
  apply (queue_settlement_starts_next [Add Returns; Add (Throws 3%nat)] 0
           (Rejected 4%nat) (Item 1 (Throws 3%nat)) []).
  - vm_compute. by left.
  - reflexivity.
Defined.

End AsyncQueueMore.

(** ** RetryPolicy: success, bounds *)

Module RetryPolicyMore.
Import RetryPolicy.
Section RetryMore.
Context {V E D : Type} (mul : D -> D -> D).

(** What one run of the loop from iteration [i] on does, for any task. *)
Lemma execute_from_shape (p : policy D) (fn : nat -> outcome V E)
    i lastError currentDelay n sl :
  (i <= maxRetries p →
     (n < attempts (execute_from mul p fn i lastError currentDelay n sl))%nat)
  ∧ (maxRetries p < i →
     execute_from mul p fn i lastError currentDelay n sl
       = Report (Rejected lastError) n sl)
  ∧ (attempts (execute_from mul p fn i lastError currentDelay n sl)
       <= n + Z.to_nat (maxRetries p + 1 - i))%nat
  ∧ sleeps (execute_from mul p fn i lastError currentDelay n sl)
      = sl ++ backoff_delays mul currentDelay (backoff p)
                (attempts (execute_from mul p fn i lastError currentDelay n sl)
                 - n - 1)
  ∧ (∀ v, settled (execute_from mul p fn i lastError currentDelay n sl)
            = Fulfilled v →
          fn (attempts (execute_from mul p fn i lastError currentDelay n sl) - 1)%nat
            = Fulfilled v)
  ∧ (∀ e, i <= maxRetries p →
          settled (execute_from mul p fn i lastError currentDelay n sl)
            = Rejected e →
          attempts (execute_from mul p fn i lastError currentDelay n sl)
            = (n + Z.to_nat (maxRetries p + 1 - i))%nat
          ∧ ∃ e', e = Some e'
              ∧ fn (attempts (execute_from mul p fn i lastError currentDelay n sl)
                    - 1)%nat = Rejected e').
Proof.
  funelim (execute_from mul p fn i lastError currentDelay n sl).
  - simpl. split_and!; try done; try lia.
    replace (attempts0 - attempts0 - 1)%nat with 0%nat by lia.
    simpl. by rewrite app_nil_r.
  - simpl. split_and!; try done; try lia.
    + replace (S attempts0 - attempts0 - 1)%nat with 0%nat by lia.
      simpl. by rewrite app_nil_r.
    + intros w [= <-]. by rewrite Nat.sub_0_r.
  - destruct H as (Hlt & _ & Hle & Hsl & Hful & Hrej).
    specialize (Hlt ltac:(lia)). split_and!.
    + lia.
    + lia.
    + lia.
    + rewrite Hsl, <- app_assoc. simpl. do 2 f_equal.
      match goal with |- context [(?a - attempts0 - 1)%nat] =>
        replace (a - attempts0 - 1)%nat with (S (a - S attempts0 - 1)) by lia end.
      done.
    + done.
    + intros e _ He. destruct (Hrej e ltac:(lia) He) as [Ha He'].
      split; [|done]. rewrite Ha. lia.
  - destruct H as (_ & Hgt & _).
    rewrite Hgt by lia. simpl. split_and!; try done; try lia.
    + replace (S attempts0 - attempts0 - 1)%nat with 0%nat by lia.
      simpl. by rewrite app_nil_r.
    + intros e _ [= <-]. split; [lia|]. exists error.
      by rewrite Nat.sub_0_r.
Qed.

(** X11. Whatever the task does, [execute] calls it at most
    [maxRetries + 1] times and sleeps once between two calls, for the
    delay, the delay times the backoff, and so on; a fulfilled result is
    the value of its last call, and a rejection (for [maxRetries >= 0])
    comes after exactly [maxRetries + 1] calls with the error of the last
    call. *)
Theorem execute_attempts_and_sleeps (p : policy D) (fn : nat -> outcome V E) :
  (attempts (execute mul p fn) <= Z.to_nat (maxRetries p + 1))%nat
  ∧ sleeps (execute mul p fn)
      = backoff_delays mul (delay p) (backoff p) (attempts (execute mul p fn) - 1)
  ∧ (∀ v, settled (execute mul p fn) = Fulfilled v →
          fn (attempts (execute mul p fn) - 1)%nat = Fulfilled v)
  ∧ (∀ e, 0 <= maxRetries p → settled (execute mul p fn) = Rejected e →
          attempts (execute mul p fn) = Z.to_nat (maxRetries p + 1)
          ∧ ∃ e', e = Some e'
              ∧ fn (attempts (execute mul p fn) - 1)%nat = Rejected e').
Proof.
  unfold execute.
  destruct (execute_from_shape p fn 0 None (delay p) 0%nat [])
    as (_ & _ & Hle & Hsl & Hful & Hrej).
  rewrite Z.sub_0_r, Nat.add_0_l in *. simpl in Hsl.
  rewrite Nat.sub_0_r in Hsl. split_and!; done.
Qed.

(** X12. With a negative [maxRetries] the loop body never runs: the task is
    not called, nothing is slept, and the promise of [execute] is rejected
    with [undefined], the initial value of [lastError]. *)
Theorem execute_negative_maxRetries (p : policy D) (fn : nat -> outcome V E) :
  maxRetries p < 0 →
  execute mul p fn = Report (Rejected None) 0 [].
Proof.
  intros Hm. unfold execute.
  by destruct (execute_from_shape p fn 0 None (delay p) 0%nat [])
    as (_ & -> & _).
Qed.

(** The loop on a task that fails [k] more times and then succeeds. *)
Lemma execute_from_succeeds (p : policy D) (fn : nat -> outcome V E)
    (v : V) (k : nat) i lastError currentDelay n sl :
  0 <= i → i + Z.of_nat k <= maxRetries p →
  (∀ j, (j < k)%nat → ∃ e, fn (n + j)%nat = Rejected e) →
  fn (n + k)%nat = Fulfilled v →
  execute_from mul p fn i lastError currentDelay n sl
    = Report (Fulfilled v) (S (n + k))
        (sl ++ backoff_delays mul currentDelay (backoff p) k).
Proof.
  revert i lastError currentDelay n sl.
  induction k as [|k IH]; intros i lastError currentDelay n sl Hi Hk Hfail Hok.
  - simp execute_from. destruct (Z_le_dec i (maxRetries p)); [|lia]. simpl.
    rewrite Nat.add_0_r in *. rewrite Hok. simpl. by rewrite app_nil_r.
  - simp execute_from. destruct (Z_le_dec i (maxRetries p)); [|lia]. simpl.
    destruct (Hfail 0%nat ltac:(lia)) as [e He]. rewrite Nat.add_0_r in He.
    rewrite He. simpl. destruct (Z_lt_dec i (maxRetries p)); [|lia]. simpl.
    rewrite (IH (i + 1)); [| lia | lia | |].
    + f_equal; [lia|]. by rewrite <- app_assoc.
    + intros j Hj. destruct (Hfail (S j) ltac:(lia)) as [e' He'].
      exists e'. by replace (S n + j)%nat with (n + S j)%nat by lia.
    + by replace (S n + k)%nat with (n + S k)%nat by lia.
Qed.

(** X13. If the task fails on its first [k] calls and succeeds on the next
    one, and [k <= maxRetries], then [execute] resolves with the value of
    that call after [k + 1] calls and [k] sleeps: the delay, the delay
    times the backoff, and so on. *)
Theorem execute_succeeds_after_failures (p : policy D)
    (fn : nat -> outcome V E) (v : V) (k : nat) :
  Z.of_nat k <= maxRetries p →
  (∀ j, (j < k)%nat → ∃ e, fn j = Rejected e) →
  fn k = Fulfilled v →
  execute mul p fn
    = Report (Fulfilled v) (S k) (backoff_delays mul (delay p) (backoff p) k).
Proof.
  intros Hk Hfail Hok. unfold execute.
  by rewrite (execute_from_succeeds p fn v k) by (done || lia).
Qed.

End RetryMore.

Lemma execute_negative_maxRetries_witness :
  execute Z.mul (Policy (-1) 10 2) (fun _ => Fulfilled 5%nat : outcome nat nat)
    = Report (Rejected None) 0 [].
Proof.
  apply (execute_negative_maxRetries Z.mul (Policy (-1) 10 2)). simpl. lia.
Defined.

Lemma execute_succeeds_after_failures_witness :
  execute Z.mul (Policy 2 10 2)
    (fun j => if (j <? 2)%nat then Rejected j else Fulfilled 7%nat
              : outcome nat nat)
    = Report (Fulfilled 7%nat) (S 2) (backoff_delays Z.mul 10 2 2).
Proof.
  apply (execute_succeeds_after_failures Z.mul (Policy 2 10 2)
           (fun j => if (j <? 2)%nat then Rejected j else Fulfilled 7%nat) 7%nat 2).
  - simpl. lia.
  - intros j Hj. exists j. destruct j as [|[|j]]; [reflexivity|reflexivity|lia].
  - reflexivity.
Defined.

End RetryPolicyMore.

(** ** CachePromise: other keys, entries without expiry, clear *)

Module CachePromiseMore.
Import CachePromise.
Section MemoMore.
Context {K : Type} `{Countable K} {V E : Type}.
Implicit Types s : state K V.

(** X14. A call of [memoize] for [key] leaves the entries of all other keys
    as they are, and the cache grows by at most one entry. *)
Theorem memoize_touches_only_its_key (key : K) (fn : outcome V E)
    (ttl : option Z) (now now' : Z) (s : state K V) :
  (∀ k, k ≠ key →
        cache (memoize key fn ttl now now' s).1 !! k = cache s !! k)
  ∧ (size (memoize key fn ttl now now' s).1 <= S (size s))%nat.
Proof.
  unfold memoize, size.
  destruct (cache s !! key) as [c|] eqn:Hc; [destruct (fresh now c)|];
    destruct fn as [v|e]; simpl; split;
    try (intros k Hk; by rewrite ?lookup_insert_ne, ?lookup_delete_ne by done);
    try lia.
  - rewrite map_size_insert, lookup_delete_eq, map_size_delete, Hc.
    simpl. lia.
  - rewrite map_size_delete, Hc. simpl. lia.
  - rewrite map_size_insert, Hc. done.
Qed.

(** X15. An entry stored with an absent [ttl] or with [ttl = 0] never
    expires: every later call for the key, at any time, returns the stored
    value and calls no task. *)
Theorem memoize_without_ttl_is_forever (key : K) (v : V) (ttl : option Z)
    (now now' : Z) (s : state K V)
    (fn2 : outcome V E) (ttl2 : option Z) (now2 now2' : Z) :
  ttl = None ∨ ttl = Some 0 →
  (∀ c, cache s !! key = Some c → fresh now c = false) →
  memoize key fn2 ttl2 now2 now2'
    (memoize key (Fulfilled v : outcome V E) ttl now now' s).1
  = ((memoize key (Fulfilled v : outcome V E) ttl now now' s).1, Fulfilled v).
Proof.
  intros Httl Hmiss.
  assert ((if truthy ttl then (fun t => now' + t) <$> ttl else None) = None)
    as Hexp by (destruct Httl as [->| ->]; done).
  assert (cache (memoize key (Fulfilled v : outcome V E) ttl now now' s).1 !! key
          = Some (Cached v None)) as Hstored.
  { unfold memoize. rewrite Hexp.
    destruct (cache s !! key) as [c|] eqn:Hc; [rewrite (Hmiss c eq_refl)|];
      simpl; apply lookup_insert_eq. }
  unfold memoize at 1. by rewrite Hstored.
Qed.

(** X16. After [clear(key)] the next call of [memoize] for [key] calls its
    task, whatever was stored.  When [key] is truthy the other keys keep
    their entries; when [key] is falsy ([0], the empty string, ...) or
    [clear()] is called without a key, the whole cache is emptied. *)
Theorem clear_forgets (truthy_key : K → bool) (key : K) (fn : outcome V E)
    (ttl : option Z) (now now' : Z) (s : state K V) :
  invocations (memoize key fn ttl now now' (clear truthy_key (Some key) s)).1
    = S (invocations s)
  ∧ (memoize key fn ttl now now' (clear truthy_key (Some key) s)).2 = fn
  ∧ (truthy_key key = true →
     ∀ k, k ≠ key → cache (clear truthy_key (Some key) s) !! k = cache s !! k)
  ∧ (truthy_key key = false → size (clear truthy_key (Some key) s) = 0%nat)
  ∧ size (clear truthy_key None s) = 0%nat.
Proof.
  split_and!.
  - unfold memoize, clear. destruct (truthy_key key); simpl.
    + rewrite lookup_delete_eq. by destruct fn.
    + rewrite lookup_empty. by destruct fn.
  - unfold memoize, clear. destruct (truthy_key key); simpl.
    + rewrite lookup_delete_eq. by destruct fn.
    + rewrite lookup_empty. by destruct fn.
  - intros Ht k Hk. unfold clear. rewrite Ht. simpl. by rewrite lookup_delete_ne.
  - intros Ht. unfold clear, size. rewrite Ht. simpl. apply map_size_empty.
  - unfold size. simpl. apply map_size_empty.
Qed.

End MemoMore.

Lemma memoize_without_ttl_is_forever_witness :
  memoize 7%nat (Rejected 1%nat : outcome nat nat) (Some 5) 999999 999999
    (memoize 7%nat (Fulfilled 3%nat : outcome nat nat) (Some 0) 10 12
       (new : state nat nat)).1
  = ((memoize 7%nat (Fulfilled 3%nat : outcome nat nat) (Some 0) 10 12
        (new : state nat nat)).1, Fulfilled 3%nat).
Proof.
  apply (memoize_without_ttl_is_forever 7%nat 3%nat (Some 0) 10 12
           (new : state nat nat) (Rejected 1%nat) (Some 5) 999999 999999).
  - by right.
  - intros c Hc. cbn [cache new] in Hc. rewrite lookup_empty in Hc. discriminate.
Defined.

(** Keys that are numbers: [0] is the falsy one. *)
Lemma clear_forgets_witness :
  (∀ k, k ≠ 7%nat →
     cache (clear (fun k => negb (k =? 0)%nat) (Some 7%nat)
              (memoize 8%nat (Fulfilled 2%nat : outcome nat nat) None 1 2
                 (memoize 7%nat (Fulfilled 1%nat : outcome nat nat) None 1 2
                    (new : state nat nat)).1).1) !! k
     = cache (memoize 8%nat (Fulfilled 2%nat : outcome nat nat) None 1 2
                (memoize 7%nat (Fulfilled 1%nat : outcome nat nat) None 1 2
                   (new : state nat nat)).1).1 !! k)
  ∧ size (clear (fun k => negb (k =? 0)%nat) (Some 0%nat)
            (memoize 8%nat (Fulfilled 2%nat : outcome nat nat) None 1 2
               (memoize 7%nat (Fulfilled 1%nat : outcome nat nat) None 1 2
                  (new : state nat nat)).1).1) = 0%nat.
Proof.
  split.
  - apply (clear_forgets (fun k => negb (k =? 0)%nat) 7%nat
             (Fulfilled 1%nat : outcome nat nat) None 1 2
             (memoize 8%nat (Fulfilled 2%nat : outcome nat nat) None 1 2
                (memoize 7%nat (Fulfilled 1%nat : outcome nat nat) None 1 2
                   (new : state nat nat)).1).1);
      reflexivity.
  - apply (clear_forgets (fun k => negb (k =? 0)%nat) 0%nat
             (Fulfilled 1%nat : outcome nat nat) None 1 2
             (memoize 8%nat (Fulfilled 2%nat : outcome nat nat) None 1 2
                (memoize 7%nat (Fulfilled 1%nat : outcome nat nat) None 1 2
                   (new : state nat nat)).1).1);
      reflexivity.
Defined.

End CachePromiseMore.

(** ** AsyncIterator: any batch size *)

Module AsyncIteratorMore.
Import AsyncIterator.
Section IterMore.
Context {A : Type}.

Lemma batch_from_concat (source : list A) (k : Z) (acc : list A) :
  concat (batch_from source k acc) = acc ++ source
  ∧ Forall (fun g => g ≠ []) (batch_from source k acc).
Proof.
  revert acc. induction source as [|item rest IH]; intros acc; simpl.
  - case_bool_decide as Hlen.
    + simpl. rewrite !app_nil_r. split; [done|].
      constructor; [|done]. intros ->. simpl in Hlen. lia.
    + destruct acc; [done|simpl in Hlen; lia].
  - destruct (Z.of_nat (length (acc ++ [item])) =? k).
    + destruct (IH []) as [Hc Hne]. simpl. rewrite Hc, <- app_assoc.
      split; [done|]. constructor; [|done]. by destruct acc.
    + destruct (IH (acc ++ [item])) as [Hc Hne]. rewrite Hc, <- app_assoc. done.
Qed.

(** X17. Whatever the batch size (zero, negative or not an exact divisor
    included), the groups that [batch] yields, put end to end, are the
    items of the source in order, and no group is empty. *)
Theorem batch_partitions_source (source : list A) (k : Z) :
  concat (batch source k) = source
  ∧ Forall (fun g => g ≠ []) (batch source k).
Proof. unfold batch. by destruct (batch_from_concat source k []). Qed.

Lemma batch_from_one_group (source : list A) (k : Z) (acc : list A) :
  k <= 0 ∨ Z.of_nat (length acc + length source) < k →
  batch_from source k acc
    = if bool_decide (0 < length (acc ++ source))%nat then [acc ++ source] else [].
Proof.
  revert acc. induction source as [|item rest IH]; intros acc Hk; simpl.
  - by rewrite app_nil_r.
  - destruct (Z.eqb_spec (Z.of_nat (length (acc ++ [item]))) k) as [Heq|Hne].
    + rewrite length_app in Heq. simpl in *. lia.
    + rewrite IH.
      * by rewrite <- app_assoc.
      * rewrite length_app. simpl in *. lia.
Qed.

(** X18. When the batch size is zero or negative, or larger than the number
    of items, [batch] yields all the items of a non-empty source as one
    single group. *)
Theorem batch_single_group (source : list A) (k : Z) :
  source ≠ [] →
  k <= 0 ∨ Z.of_nat (length source) < k →
  batch source k = [source].
Proof.
  intros Hne Hk. unfold batch. rewrite batch_from_one_group by done.
  simpl. rewrite bool_decide_eq_true_2; [done|].
  destruct source; [done|simpl; lia].
Qed.

End IterMore.

Lemma batch_single_group_witness :
  batch [1; 2; 3] 0 = [[1; 2; 3]].
Proof. apply (batch_single_group [1; 2; 3] 0); [discriminate|lia]. Defined.

End AsyncIteratorMore.

(** ** TaskQueue *)

Module TaskQueueSpec.
Import TaskQueue.
Section TaskQueueFacts.
Context {V E : Type} (nullish : E -> bool).
Implicit Types tq : taskqueue E.
Implicit Types it : item E.

Lemma process_S fuel tq :
  process nullish (S fuel) tq =
    if (concurrency tq <=? running tq) then tq else
    match queue tq with
    | [] => tq
    | it :: rest =>
      match task it with
      | Returns =>
        {| queue := rest; running := running tq + 1;
           concurrency := concurrency tq; completed := completed tq;
           failed := failed tq; next_handle := next_handle tq;
           executing := executing tq ++ [with_status running_ None it];
           lost := lost tq |}
      | Throws e =>
        if nullish e then
          {| queue := rest; running := running tq + 1;
             concurrency := concurrency tq; completed := completed tq;
             failed := failed tq; next_handle := next_handle tq;
             executing := executing tq;
             lost := lost tq
                     ++ [with_status failed_ None (with_status running_ None it)] |}
        else
          process nullish fuel
            {| queue := rest; running := running tq + 1 - 1;
               concurrency := concurrency tq; completed := completed tq;
               failed := failed tq
                         ++ [with_status failed_ (Some e)
                               (with_status running_ None it)];
               next_handle := next_handle tq;
               executing := executing tq; lost := lost tq |}
      end
    end.
Proof. done. Qed.

(** The nesting that [process_all] allows is enough. *)
Lemma process_more fuel tq :
  (length (queue tq) < fuel)%nat →
  process nullish (S fuel) tq = process nullish fuel tq.
Proof.
  revert tq. induction fuel as [|fuel IH]; intros tq Hf; [lia|].
  rewrite (process_S (S fuel)), (process_S fuel).
  destruct (concurrency tq <=? running tq); [done|].
  destruct (queue tq) as [|it rest]; [done|].
  destruct (task it) as [e|]; [|done].
  destruct (nullish e); [done|]. apply IH. simpl in *. lia.
Qed.

(** *** The sort *)

Lemma insert_by_priority_elem (x : item E) l y :
  y ∈ insert_by_priority x l ↔ y = x ∨ y ∈ l.
Proof.
  induction l as [|z l IH]; simpl; [mem|].
  destruct (priority z <=? priority x); [mem|].
  rewrite elem_of_cons, IH, elem_of_cons. tauto.
Qed.

Lemma insert_by_priority_perm (x : item E) l :
  insert_by_priority x l ≡ₚ x :: l.
Proof.
  induction l as [|z l IH]; simpl; [done|].
  destruct (priority z <=? priority x); [done|].
  rewrite IH. apply Permutation_swap.
Qed.

Lemma sort_by_priority_perm (l : list (item E)) : sort_by_priority l ≡ₚ l.
Proof.
  induction l as [|x l IH]; simpl; [done|].
  by rewrite insert_by_priority_perm, IH.
Qed.

(** Inserting an item that is earlier than every item of its priority. *)
Lemma insert_by_priority_order (x : item E) l :
  in_service_order l →
  (∀ z, z ∈ l → priority z = priority x → (handle x < handle z)%nat) →
  in_service_order (insert_by_priority x l).
Proof.
  induction l as [|y l IH]; simpl; intros Hs Hx; [done|].
  destruct Hs as [Hy Hs]. destruct (Z.leb_spec (priority y) (priority x)) as [Hle|Hgt].
  - simpl. split_and!; [|done|done].
    constructor.
    + unfold before. destruct (decide (priority y = priority x)) as [Heq|Hne].
      * right. split; [done|]. apply Hx; [by left|done].
      * left. lia.
    + rewrite Forall_forall in Hy |- *. intros z Hz.
      specialize (Hy z Hz). unfold before in *.
      destruct (decide (priority z = priority x)) as [Heq|Hne].
      * right. split; [done|]. apply Hx; [by right|done].
      * left. lia.
  - simpl. split.
    + rewrite Forall_forall in Hy |- *. intros z Hz.
      apply insert_by_priority_elem in Hz as [->|Hz]; [|by apply Hy].
      left. lia.
    + apply IH; [done|]. intros z Hz. apply Hx. by right.
Qed.

(** Sorting an ordered queue to which a later item was pushed. *)
Lemma sort_pushed_order (l : list (item E)) (x : item E) :
  in_service_order l →
  (∀ z, z ∈ l → (handle z < handle x)%nat) →
  in_service_order (sort_by_priority (l ++ [x])).
Proof.
  unfold sort_by_priority. rewrite foldr_app. simpl.
  induction l as [|y l IH]; simpl; intros Hs Hx; [done|].
  destruct Hs as [Hy Hs].
  apply insert_by_priority_order.
  - apply IH; [done|]. intros z Hz. apply Hx. by right.
  - intros z Hz Hp.
    assert (z ∈ foldr insert_by_priority [] (l ++ [x])) as Hz'
      by (by rewrite foldr_app).
    fold (sort_by_priority (l ++ [x])) in Hz'.
    rewrite sort_by_priority_perm in Hz'.
    apply elem_of_app in Hz' as [Hz'| ->%list_elem_of_singleton].
    + rewrite Forall_forall in Hy. destruct (Hy z Hz') as [?|[_ ?]]; [lia|done].
    + apply Hx. by left.
Qed.

(** *** The invariant *)

Lemma in_service_order_tail (x : item E) l :
  in_service_order (x :: l) → in_service_order l.
Proof. by intros [_ ?]. Qed.

Lemma process_linv fuel tq : linv tq → linv (process nullish fuel tq).
Proof.
  revert tq. induction fuel as [|fuel IH]; intros tq Hi; [done|].
  rewrite process_S. destruct (concurrency tq <=? running tq); [done|].
  destruct (queue tq) as [|it rest] eqn:Hq; [done|].
  destruct Hi as [Hs Hnd Hf Hr]. rewrite Hq in *.
  assert (NoDup (map handle (rest ++ executing tq))) as Hnd'
    by (simpl in Hnd; by apply NoDup_cons in Hnd as [_ ?]).
  destruct (task it) as [e|] eqn:Ht; [destruct (nullish e)|].
  - split; simpl; [by destruct Hs|done| |].
    + intros z Hz. apply Hf. by right.
    + rewrite length_app. simpl. lia.
  - apply IH. split; simpl; [by destruct Hs|done| |lia].
    intros z Hz. apply Hf. by right.
  - split; simpl; [by destruct Hs| | |].
    + rewrite !map_app in *. simpl in *.
      rewrite app_assoc, <- Permutation_cons_append. done.
    + intros z. rewrite app_assoc, elem_of_app, list_elem_of_singleton.
      intros [Hz| ->]; [apply Hf; by right|]. simpl. apply Hf. by left.
    + rewrite length_app. simpl. lia.
Qed.

Lemma process_idle fuel tq :
  (length (queue tq) < fuel)%nat →
  (running tq + 1 < concurrency tq → (length (queue tq) <= 1)%nat) →
  idle (process nullish fuel tq).
Proof.
  revert tq. induction fuel as [|fuel IH]; intros tq Hf Hquasi; [lia|].
  rewrite process_S.
  destruct (Z.leb_spec (concurrency tq) (running tq)) as [Hle|Hlt];
    [intros ?; lia|].
  destruct (queue tq) as [|it rest] eqn:Hq; [by intros _|].
  simpl in Hf, Hquasi.
  destruct (task it) as [e|]; [destruct (nullish e)|].
  - intros Hlt'. simpl in *. destruct rest; [done|simpl in *; lia].
  - apply IH; simpl; [lia|]. intros Hlt'. destruct rest; simpl in *; lia.
  - intros Hlt'. simpl in *. destruct rest; [done|simpl in *; lia].
Qed.

Lemma process_ghost fuel tq :
  next_handle (process nullish fuel tq) = next_handle tq
  ∧ concurrency (process nullish fuel tq) = concurrency tq
  ∧ held (process nullish fuel tq) = held tq.
Proof.
  revert tq. induction fuel as [|fuel IH]; intros tq; [done|].
  rewrite process_S. destruct (concurrency tq <=? running tq); [done|].
  destruct (queue tq) as [|it rest] eqn:Hq; [done|].
  destruct (task it) as [e|]; [destruct (nullish e)|].
  - unfold held. simpl. rewrite Hq, length_app. simpl. split_and!; [done|done|lia].
  - match goal with |- context [process nullish fuel ?x] =>
      destruct (IH x) as (-> & -> & ->) end.
    unfold held. simpl. rewrite Hq, length_app. simpl. split_and!; [done|done|lia].
  - unfold held. simpl. rewrite Hq, length_app. simpl. split_and!; [done|done|lia].
Qed.

Lemma tq_new_inv c : inv (@new E c).
Proof.
  split; [split; simpl; try done|done].
  - apply NoDup_nil_2.
  - intros it Hit. by apply elem_of_nil in Hit.
Qed.

Lemma tq_enqueue_inv t prio tq : inv tq → inv (enqueue nullish t prio tq).
Proof.
  intros [[Hs Hnd Hf Hr] Hidle]. unfold enqueue, process_all.
  set (x := Item (next_handle tq) t prio pending None).
  assert (length (sort_by_priority (queue tq ++ [x])) = S (length (queue tq)))
    as Hlen.
  { rewrite sort_by_priority_perm, length_app. simpl. lia. }
  split.
  - apply process_linv. split; simpl.
    + apply sort_pushed_order; [done|]. intros z Hz. simpl.
      apply Hf. apply elem_of_app. by left.
    + eapply NoDup_Permutation_proper.
      { apply Permutation_map, Permutation_app_tail, sort_by_priority_perm. }
      rewrite <- app_assoc, map_app, map_app. simpl.
      rewrite <- Permutation_middle, <- map_app. apply NoDup_cons. split; [|done].
      intros Hin. apply list_elem_of_In, in_map_iff in Hin as (z & Hz1 & Hz2).
      apply list_elem_of_In, Hf in Hz2. lia.
    + intros z. rewrite elem_of_app, sort_by_priority_perm, elem_of_app.
      rewrite list_elem_of_singleton. intros [[Hz| ->]|Hz].
      * specialize (Hf z ltac:(mem)). lia.
      * simpl. lia.
      * specialize (Hf z ltac:(mem)). lia.
    + done.
  - apply process_idle; simpl; [lia|]. rewrite Hlen. intros Hlt.
    rewrite Hidle; [simpl; lia|lia].
Qed.

Lemma length_filter_handle (l : list (item E)) h it :
  NoDup (map handle l) → it ∈ l → handle it = h →
  (length (filter (fun x => handle x ≠ h) l) + 1 = length l)%nat.
Proof.
  induction l as [|x l IH]; simpl; intros Hnd Hin Hh;
    [by apply elem_of_nil in Hin|].
  apply NoDup_cons in Hnd as [Hx Hnd].
  destruct (decide (handle x = h)) as [Heq|Hne].
  - rewrite filter_cons_False by (intros ?; done).
    assert (filter (fun y => handle y ≠ h) l = l) as ->; [|lia].
    clear IH Hin. induction l as [|y l IHl]; [done|].
    simpl in *. apply NoDup_cons in Hnd as [Hy Hnd].
    rewrite filter_cons_True.
    + f_equal. apply IHl; [|done]. intros Hin. apply Hx. by right.
    + intros Hy'. apply Hx. apply elem_of_cons. left. congruence.
  - rewrite filter_cons_True by done. simpl.
    apply elem_of_cons in Hin as [->|Hin]; [done|].
    specialize (IH Hnd Hin Hh). lia.
Qed.

Lemma filter_handles_NoDup (q l : list (item E)) h :
  NoDup (map handle (q ++ l)) →
  NoDup (map handle (q ++ filter (fun x => handle x ≠ h) l)).
Proof.
  rewrite !map_app. intros Hnd. apply NoDup_app in Hnd as (Hq & Hdis & Hl).
  apply NoDup_app. split_and!; [done| |].
  - intros x Hx Hin. apply (Hdis x Hx).
    apply list_elem_of_In, in_map_iff in Hin as (z & <- & Hz).
    apply list_elem_of_In, list_elem_of_filter in Hz as [_ Hz].
    apply list_elem_of_In, in_map, list_elem_of_In. done.
  - clear Hdis Hq. induction l as [|y l IH]; [done|]. simpl in *.
    apply NoDup_cons in Hl as [Hy Hl].
    destruct (decide (handle y ≠ h)).
    + rewrite filter_cons_True by done. simpl. apply NoDup_cons.
      split; [|by apply IH]. intros Hin. apply Hy.
      apply list_elem_of_In, in_map_iff in Hin as (z & <- & Hz).
      apply list_elem_of_In, list_elem_of_filter in Hz as [_ Hz].
      apply list_elem_of_In, in_map, list_elem_of_In. done.
    + rewrite filter_cons_False by done. by apply IH.
Qed.

Lemma tq_on_settled_inv h (o : outcome V E) tq :
  inv tq → inv (on_settled nullish h o tq).
Proof.
  intros [[Hs Hnd Hf Hr] Hidle]. unfold on_settled.
  destruct (list_find _ (executing tq)) as [[i it]|] eqn:Hfind; [|by split].
  apply list_find_Some in Hfind as (Hit & Hh & _).
  apply list_elem_of_lookup_2 in Hit.
  assert (NoDup (map handle (executing tq))) as Hnd'
    by (rewrite map_app in Hnd; by apply NoDup_app in Hnd as (_ & _ & ?)).
  pose proof (length_filter_handle _ h it Hnd' Hit Hh) as Hlen.
  pose proof (filter_handles_NoDup (queue tq) (executing tq) h Hnd) as Hnd2.
  assert (∀ z, z ∈ queue tq ++ filter (fun x => handle x ≠ h) (executing tq)
               → (handle z < next_handle tq)%nat) as Hf2.
  { intros z [Hz|[_ Hz]%list_elem_of_filter]%elem_of_app; apply Hf; mem. }
  destruct o as [v|e]; [|destruct (nullish e)].
  - unfold process_all. split.
    + apply process_linv. split; simpl; [done|done|done|lia].
    + apply process_idle; simpl; [lia|]. intros Hlt.
      rewrite Hidle; [simpl; lia|lia].
  - split; [split; simpl; [done|done|done|]|done].
    rewrite length_app. simpl. lia.
  - unfold process_all. split.
    + apply process_linv. split; simpl; [done|done|done|lia].
    + apply process_idle; simpl; [lia|]. intros Hlt.
      rewrite Hidle; [simpl; lia|lia].
Qed.

Lemma tq_clear_inv tq : inv tq → inv (clear tq).
Proof.
  intros [[Hs Hnd Hf Hr] Hidle]. split; [split; simpl; try done|done].
  - rewrite map_app in Hnd. by apply NoDup_app in Hnd as (_ & _ & ?).
  - intros it Hit. apply Hf. apply elem_of_app. by right.
Qed.

Lemma tq_step_inv tq (ev : event V E) : inv tq → inv (step nullish tq ev).
Proof.
  destruct ev; [apply tq_enqueue_inv|apply tq_on_settled_inv|apply tq_clear_inv].
Qed.

Lemma tq_run_inv (evs : list (event V E)) tq : inv tq → inv (run nullish tq evs).
Proof.
  revert tq. induction evs as [|ev evs IH]; intros tq Hi; [done|].
  apply IH, tq_step_inv, Hi.
Qed.

Lemma tq_run_snoc (evs : list (event V E)) ev tq :
  run nullish tq (evs ++ [ev]) = step nullish (run nullish tq evs) ev.
Proof. unfold run. by rewrite foldl_app. Qed.

Lemma process_bounded fuel tq :
  running tq <= concurrency tq →
  running (process nullish fuel tq) <= concurrency (process nullish fuel tq).
Proof.
  revert tq. induction fuel as [|fuel IH]; intros tq Hb; [done|].
  rewrite process_S.
  destruct (Z.leb_spec (concurrency tq) (running tq)); [done|].
  destruct (queue tq) as [|it rest]; [done|].
  destruct (task it) as [e|]; [destruct (nullish e)|]; simpl; try lia.
  apply IH. simpl. lia.
Qed.

Lemma tq_step_bounded tq (ev : event V E) :
  inv tq → running tq <= concurrency tq →
  running (step nullish tq ev) <= concurrency (step nullish tq ev).
Proof.
  intros [[_ _ _ Hr] _] Hb. destruct ev as [t prio|h o|]; simpl; [| |done].
  - apply process_bounded. simpl. done.
  - unfold on_settled.
    destruct (list_find _ (executing tq)) as [[i it]|] eqn:Hfind; [|done].
    destruct o as [v|e]; [|destruct (nullish e)]; [|done|];
      apply process_bounded; simpl; lia.
Qed.

Lemma tq_step_concurrency tq (ev : event V E) :
  concurrency (step nullish tq ev) = concurrency tq.
Proof.
  destruct ev as [t prio|h o|]; simpl; [| |done].
  - unfold enqueue, process_all.
    match goal with |- context [process nullish ?f ?x] =>
      by destruct (process_ghost f x) as (_ & -> & _) end.
  - unfold on_settled, process_all.
    destruct (list_find _ (executing tq)) as [[i it]|]; [|done].
    destruct o as [v|e]; [|destruct (nullish e); [done|]];
      match goal with |- context [process nullish ?f ?x] =>
        by destruct (process_ghost f x) as (_ & -> & _) end.
Qed.

Lemma tq_run_concurrency (evs : list (event V E)) tq :
  concurrency (run nullish tq evs) = concurrency tq.
Proof.
  revert tq. induction evs as [|ev evs IH]; intros tq; [done|].
  simpl. by rewrite IH, tq_step_concurrency.
Qed.

Lemma tq_run_bounded (evs : list (event V E)) tq :
  inv tq → running tq <= concurrency tq →
  running (run nullish tq evs) <= concurrency (run nullish tq evs).
Proof.
  revert tq. induction evs as [|ev evs IH]; intros tq Hi Hb; [done|].
  simpl. apply IH; [by apply tq_step_inv|by apply tq_step_bounded].
Qed.

(** X19. For a concurrency that is not negative, the running count of a
    task queue never exceeds it.  The count is the number of awaited tasks
    plus the number of tasks that failed with [null] or [undefined]: for
    these the [catch] block throws at [error.message], so that
    [this.running--] is never reached. *)
Theorem taskqueue_running_bounded (c : Z) (evs : list (event V E)) :
  0 <= c →
  running (run nullish (new c) evs) <= c
  ∧ running (run nullish (new c) evs)
    = Z.of_nat (length (executing (run nullish (new c) evs)))
      + Z.of_nat (length (lost (run nullish (new c) evs))).
Proof.
  intros Hc. split.
  - pose proof (tq_run_bounded evs (new c) (tq_new_inv c)) as Hb.
    rewrite tq_run_concurrency in Hb. apply Hb. simpl. lia.
  - by destruct (tq_run_inv evs _ (tq_new_inv c)) as [[_ _ _ Hr] _].
Qed.

(** X20. The waiting items of a task queue are always in service order:
    every item has a priority at least as high as all the items behind it,
    and among items of equal priority the one enqueued first comes first.
    So the item that [process] shifts is, of the waiting items with the
    highest priority, the one enqueued first. *)
Theorem taskqueue_serves_by_priority (c : Z) (evs : list (event V E)) :
  in_service_order (queue (run nullish (new c) evs))
  ∧ ∀ it rest z,
      queue (run nullish (new c) evs) = it :: rest → z ∈ rest →
      priority z < priority it
      ∨ (priority it = priority z ∧ (handle it < handle z)%nat).
Proof.
  destruct (tq_run_inv evs _ (tq_new_inv c)) as [[Hs _ _ _] _].
  split; [done|]. intros it rest z Hq Hz. rewrite Hq in Hs.
  destruct Hs as [Hall _]. rewrite Forall_forall in Hall. by apply Hall.
Qed.

(** X21. In a task queue no item waits while a slot is free. *)
Theorem taskqueue_no_waiting_while_slot_free (c : Z) (evs : list (event V E)) :
  running (run nullish (new c) evs) < c →
  queue (run nullish (new c) evs) = [].
Proof.
  intros Hlt. destruct (tq_run_inv evs _ (tq_new_inv c)) as [_ Hidle].
  apply Hidle. by rewrite tq_run_concurrency.
Qed.

Lemma tq_step_held tq (ev : event V E) :
  inv tq → is_clear ev = false →
  held (step nullish tq ev)
    = (held tq + match ev with Enqueue _ _ => 1 | _ => 0 end)%nat.
Proof.
  intros [[_ Hnd _ _] _] Hev. destruct ev as [t prio|h o|]; simpl; [| |done].
  - unfold enqueue, process_all.
    match goal with |- context [process nullish ?f ?x] =>
      destruct (process_ghost f x) as (_ & _ & ->) end.
    unfold held. simpl. rewrite sort_by_priority_perm, length_app. simpl. lia.
  - unfold on_settled, process_all.
    destruct (list_find _ (executing tq)) as [[i it]|] eqn:Hfind; [|lia].
    apply list_find_Some in Hfind as (Hit & Hh & _).
    apply list_elem_of_lookup_2 in Hit.
    assert (NoDup (map handle (executing tq))) as Hnd'
      by (rewrite map_app in Hnd; by apply NoDup_app in Hnd as (_ & _ & ?)).
    pose proof (length_filter_handle _ h it Hnd' Hit Hh) as Hlen.
    destruct o as [v|e]; [|destruct (nullish e)];
      try match goal with |- context [process nullish ?f ?x] =>
        destruct (process_ghost f x) as (_ & _ & ->) end;
      unfold held; simpl; rewrite length_app; simpl; lia.
Qed.

Lemma enqueues_snoc (evs : list (event V E)) ev :
  enqueues (evs ++ [ev])
    = (enqueues evs + match ev with Enqueue _ _ => 1 | _ => 0 end)%nat.
Proof.
  induction evs as [|ev' evs IH]; simpl; [by destruct ev|].
  destruct ev'; rewrite IH; lia.
Qed.

(** X22. As long as [clear()] is not called, no item is lost from the
    books: the numbers that [getStats] reports as pending, running,
    completed and failed add up to the number of [enqueue] calls.  (An item
    whose error was [null] or [undefined] is counted as running for
    good.) *)
Theorem taskqueue_stats_add_up (c : Z) (evs : list (event V E)) :
  forallb (fun ev => negb (is_clear ev)) evs = true →
  Z.of_nat (getStats (run nullish (new c) evs)).1.1.1
  + (getStats (run nullish (new c) evs)).1.1.2
  + Z.of_nat (getStats (run nullish (new c) evs)).1.2
  + Z.of_nat (getStats (run nullish (new c) evs)).2
  = Z.of_nat (enqueues evs).
Proof.
  intros Hc.
  assert (held (run nullish (new c) evs) = enqueues evs) as Hheld.
  { induction evs as [|ev evs IH] using rev_ind; [done|].
    rewrite forallb_app in Hc. apply andb_prop in Hc as [Hc Hev].
    simpl in Hev. rewrite andb_true_r in Hev. apply negb_true_iff in Hev.
    rewrite tq_run_snoc, enqueues_snoc, tq_step_held, (IH Hc); [done| |done].
    apply tq_run_inv, tq_new_inv. }
  destruct (tq_run_inv evs _ (tq_new_inv c)) as [[_ _ _ Hr] _].
  unfold getStats. simpl. rewrite Hr, <- Hheld. unfold held. lia.
Qed.

End TaskQueueFacts.

Lemma taskqueue_running_bounded_witness :
  running (run (fun e : option nat => bool_decide (e = None)) (new 1)
             [Enqueue (Throws None) 0; Enqueue Returns 0;
              Settle 1 (Fulfilled 0%nat)]) <= 1
  ∧ running (run (fun e : option nat => bool_decide (e = None)) (new 1)
               [Enqueue (Throws None) 0; Enqueue Returns 0;
                Settle 1 (Fulfilled 0%nat)])
    = Z.of_nat (length (executing
        (run (fun e : option nat => bool_decide (e = None)) (new 1)
           [Enqueue (Throws None) 0; Enqueue Returns 0;
            Settle 1 (Fulfilled 0%nat)])))
      + Z.of_nat (length (lost
        (run (fun e : option nat => bool_decide (e = None)) (new 1)
           [Enqueue (Throws None) 0; Enqueue Returns 0;
            Settle 1 (Fulfilled 0%nat)]))).
Proof.
  apply (taskqueue_running_bounded
           (fun e : option nat => bool_decide (e = None)) 1
           [Enqueue (Throws None) 0; Enqueue Returns 0;
            Settle 1 (Fulfilled 0%nat)]).
  lia.
Defined.

Lemma taskqueue_no_waiting_while_slot_free_witness :
  queue (run (fun _ : nat => false) (new 2)
           [Enqueue Returns 5 : event nat nat]) = [].
Proof.
  apply (taskqueue_no_waiting_while_slot_free (fun _ : nat => false) 2
           [Enqueue Returns 5]).
  vm_compute. reflexivity.
Defined.

Lemma taskqueue_stats_add_up_witness :
  Z.of_nat (getStats (run (fun _ : nat => false) (new 1)
      [Enqueue Returns 0; Enqueue (Throws 3%nat) 2; Enqueue Returns 1;
       Settle 0 (Fulfilled 0%nat) : event nat nat])).1.1.1
  + (getStats (run (fun _ : nat => false) (new 1)
      [Enqueue Returns 0; Enqueue (Throws 3%nat) 2; Enqueue Returns 1;
       Settle 0 (Fulfilled 0%nat) : event nat nat])).1.1.2
  + Z.of_nat (getStats (run (fun _ : nat => false) (new 1)
      [Enqueue Returns 0; Enqueue (Throws 3%nat) 2; Enqueue Returns 1;
       Settle 0 (Fulfilled 0%nat) : event nat nat])).1.2
  + Z.of_nat (getStats (run (fun _ : nat => false) (new 1)
      [Enqueue Returns 0; Enqueue (Throws 3%nat) 2; Enqueue Returns 1;
       Settle 0 (Fulfilled 0%nat) : event nat nat])).2
  = Z.of_nat (enqueues
      [Enqueue Returns 0; Enqueue (Throws 3%nat) 2; Enqueue Returns 1;
       Settle 0 (Fulfilled 0%nat) : event nat nat]).
Proof.
  apply (taskqueue_stats_add_up (fun _ : nat => false) 1
           [Enqueue Returns 0; Enqueue (Throws 3%nat) 2; Enqueue Returns 1;
            Settle 0 (Fulfilled 0%nat)]).
  reflexivity.
Defined.

End TaskQueueSpec.

(** ** Cache *)

Module CacheSpec.
Import Cache.
Section CacheFacts.
Context {K V : Type} `{EqDecision K}.
Implicit Types c : cache K V.
Implicit Types m : list (K * CacheEntry.entry K V).

(** *** The map *)

Lemma map_delete_keys k m k' :
  k' ∈ (map_delete k m).*1 ↔ k' ≠ k ∧ k' ∈ m.*1.
Proof.
  unfold map_delete. rewrite !list_elem_of_fmap. split.
  - intros (p & -> & [Hp Hin]%list_elem_of_filter). split; [done|]. by exists p.
  - intros (Hne & p & -> & Hin). exists p. split; [done|].
    by apply list_elem_of_filter.
Qed.

Lemma map_delete_NoDup k m : NoDup m.*1 → NoDup (map_delete k m).*1.
Proof.
  unfold map_delete. induction m as [|p m IH]; simpl; [done|].
  intros [Hp Hnd]%NoDup_cons. destruct (decide (p.1 ≠ k)).
  - rewrite filter_cons_True by done. simpl. apply NoDup_cons.
    split; [|by apply IH]. intros Hin.
    apply (map_delete_keys k m) in Hin as [_ ?]. done.
  - rewrite filter_cons_False by done. by apply IH.
Qed.

Lemma map_delete_absent k m : k ∉ m.*1 → map_delete k m = m.
Proof.
  unfold map_delete. induction m as [|p m IH]; simpl; [done|].
  intros Hk. rewrite filter_cons_True.
  - f_equal. apply IH. intros Hin. apply Hk. by right.
  - intros Heq. apply Hk. rewrite Heq. by left.
Qed.

Lemma map_delete_length k m :
  NoDup m.*1 → k ∈ m.*1 → (length (map_delete k m) + 1 = length m)%nat.
Proof.
  unfold map_delete. induction m as [|p m IH]; simpl; intros Hnd Hk;
    [by apply elem_of_nil in Hk|].
  apply NoDup_cons in Hnd as [Hp Hnd]. destruct (decide (p.1 = k)) as [Heq|Hne].
  - rewrite filter_cons_False by (intros ?; done).
    fold (map_delete k m). rewrite map_delete_absent; [lia|]. by rewrite <- Heq.
  - rewrite filter_cons_True by done. simpl.
    apply elem_of_cons in Hk as [?|Hk]; [done|]. specialize (IH Hnd Hk). lia.
Qed.

Lemma map_delete_length_le k m : (length (map_delete k m) <= length m)%nat.
Proof. apply length_filter. Qed.

Lemma map_delete_middle k e m1 m2 :
  k ∉ m1.*1 → k ∉ m2.*1 →
  map_delete k (m1 ++ (k, e) :: m2) = m1 ++ m2.
Proof.
  intros H1 H2. unfold map_delete. rewrite filter_app, filter_cons_False
    by (simpl; intros ?; done).
  fold (map_delete k m1) (map_delete k m2).
  by rewrite !map_delete_absent.
Qed.

Lemma map_touch_keys k now m : (map_touch k now m).*1 = m.*1.
Proof.
  unfold map_touch. induction m as [|p m IH]; simpl; [done|].
  f_equal; [|done]. by destruct (decide (p.1 = k)).
Qed.

Lemma map_touch_length k now m : length (map_touch k now m) = length m.
Proof. apply length_fmap. Qed.

Lemma map_has_spec k m : map_has k m = true ↔ k ∈ m.*1.
Proof. unfold map_has. apply bool_decide_eq_true. Qed.

Lemma map_get_None k m : map_get k m = None ↔ k ∉ m.*1.
Proof.
  unfold map_get. destruct (list_find _ m) as [[i p]|] eqn:Hf.
  - apply list_find_Some in Hf as (Hp & Hk & _). split; [done|].
    intros Hn. exfalso. apply Hn. apply list_elem_of_fmap. exists p.
    split; [done|]. by apply list_elem_of_lookup_2 in Hp.
  - split; [|done]. intros _ Hin.
    apply list_elem_of_fmap in Hin as (p & -> & Hin).
    apply list_find_None in Hf. rewrite Forall_forall in Hf. by apply (Hf p).
Qed.

Lemma map_get_Some k m e : map_get k m = Some e → (k, e) ∈ m.
Proof.
  unfold map_get. destruct (list_find _ m) as [[i p]|] eqn:Hf; [|done].
  intros [= <-]. apply list_find_Some in Hf as (Hp & <- & _).
  apply list_elem_of_lookup_2 in Hp. by destruct p.
Qed.

Lemma map_get_last k e m : k ∉ m.*1 → map_get k (m ++ [(k, e)]) = Some e.
Proof.
  intros Hk. unfold map_get.
  destruct (list_find _ (m ++ [(k, e)])) as [[i p]|] eqn:Hf.
  - apply list_find_Some in Hf as (Hp & Hpk & _).
    apply list_elem_of_lookup_2 in Hp.
    apply elem_of_app in Hp as [Hp| ->%list_elem_of_singleton]; [|done].
    exfalso. apply Hk. apply list_elem_of_fmap. by exists p.
  - apply list_find_None in Hf. rewrite Forall_app, Forall_singleton in Hf.
    by destruct Hf as [_ Hf].
Qed.

(** *** Capacity *)

Lemma lru_from_elem m lruKey lruTime k :
  lru_from m lruKey lruTime = Some k → lruKey = Some k ∨ k ∈ m.*1.
Proof.
  revert lruKey lruTime. induction m as [|[k' e] m IH]; simpl;
    intros lruKey lruTime Hl; [by left|].
  destruct (match lruTime with
            | Some t => CacheEntry.accessedAt e <? t | None => true end).
  - apply IH in Hl as [[= ->]|?]; right; [by left|by right].
  - apply IH in Hl as [?|?]; [by left|right; by right].
Qed.

(** The loop of [_getLRUKey] entered with a candidate [lk] of access time
    [t0]: it keeps the candidate when no entry was accessed before [t0],
    and otherwise returns the first of the entries accessed earliest. *)
Lemma lru_from_spec m lk t0 :
  (Forall (fun p => t0 <= CacheEntry.accessedAt p.2) m
   ∧ lru_from m (Some lk) (Some t0) = Some lk)
  ∨ (∃ m1 v ev m2,
       m = m1 ++ (v, ev) :: m2
       ∧ CacheEntry.accessedAt ev < t0
       ∧ Forall (fun p => CacheEntry.accessedAt ev < CacheEntry.accessedAt p.2) m1
       ∧ Forall (fun p => CacheEntry.accessedAt ev <= CacheEntry.accessedAt p.2) m2
       ∧ lru_from m (Some lk) (Some t0) = Some v).
Proof.
  revert lk t0. induction m as [|[k e] m IH]; intros lk t0; simpl.
  { left. by split. }
  destruct (Z.ltb_spec (CacheEntry.accessedAt e) t0) as [Hlt|Hge].
  - right. destruct (IH k (CacheEntry.accessedAt e))
      as [[Hall Hl]|(m1 & v & ev & m2 & -> & Hev & H1 & H2 & Hl)].
    + exists [], k, e, m. split_and!; try done.
    + exists ((k, e) :: m1), v, ev, m2. split_and!; try done; [lia|].
      constructor; [done|done].
  - destruct (IH lk t0)
      as [[Hall Hl]|(m1 & v & ev & m2 & -> & Hev & H1 & H2 & Hl)].
    + left. split; [|done]. constructor; [done|done].
    + right. exists ((k, e) :: m1), v, ev, m2. split_and!; try done.
      constructor; [simpl; lia|done].
Qed.

(** [_getLRUKey] on a map that is not empty. *)
Lemma lru_from_start m :
  m ≠ [] →
  ∃ m1 v ev m2,
    m = m1 ++ (v, ev) :: m2
    ∧ Forall (fun p => CacheEntry.accessedAt ev < CacheEntry.accessedAt p.2) m1
    ∧ Forall (fun p => CacheEntry.accessedAt ev <= CacheEntry.accessedAt p.2) m2
    ∧ lru_from m None None = Some v.
Proof.
  destruct m as [|[k e] m]; [done|]. intros _. simpl.
  destruct (lru_from_spec m k (CacheEntry.accessedAt e))
    as [[Hall Hl]|(m1 & v & ev & m2 & -> & Hev & H1 & H2 & Hl)].
  - exists [], k, e, m. by split_and!.
  - exists ((k, e) :: m1), v, ev, m2. split_and!; try done.
    constructor; [done|done].
Qed.

Lemma cache_set_bounded k v ttl created accessed c :
  1 <= maxSize c → bounded c → bounded (set k v ttl created accessed c).
Proof.
  intros Hmax [Hnd Hlen]. unfold set, bounded. simpl.
  set (m1 := if map_has k (entries c) then map_delete k (entries c)
             else entries c).
  assert (NoDup m1.*1 ∧ (k ∉ m1.*1) ∧ (length m1 <= length (entries c))%nat)
    as (Hnd1 & Hk1 & Hlen1).
  { unfold m1. destruct (map_has k (entries c)) eqn:Hhas.
    - split_and!; [by apply map_delete_NoDup| |apply map_delete_length_le].
      intros [? _]%map_delete_keys. done.
    - split_and!; [done| |done]. intros Hin%map_has_spec. congruence. }
  destruct (Z.leb_spec (maxSize c) (Z.of_nat (length m1))) as [Hfull|Hroom].
  - destruct (lru_from_start m1) as (ma & vk & ev & mb & Hm1 & _ & _ & ->).
    { intros Hm. rewrite Hm in Hfull. simpl in Hfull. lia. }
    assert (vk ∈ m1.*1) as Hvk.
    { rewrite Hm1, fmap_app. simpl. mem. }
    pose proof (map_delete_length vk m1 Hnd1 Hvk) as Hdl.
    split.
    + rewrite fmap_app. simpl. apply NoDup_app.
      split_and!; [by apply map_delete_NoDup| |apply NoDup_singleton].
      intros x [_ Hx]%map_delete_keys ->%list_elem_of_singleton. done.
    + rewrite length_app. simpl. lia.
  - split.
    + rewrite fmap_app. simpl. apply NoDup_app.
      split_and!; [done| |apply NoDup_singleton].
      intros x Hx ->%list_elem_of_singleton. done.
    + rewrite length_app. simpl. lia.
Qed.

Lemma cache_get_bounded k now touched c :
  bounded c → bounded (get k now touched c).1.
Proof.
  intros [Hnd Hlen]. unfold get, bounded.
  destruct (map_get k (entries c)) as [e|]; [|done].
  destruct (CacheEntry.isExpired now e); simpl.
  - split; [by apply map_delete_NoDup|].
    pose proof (map_delete_length_le k (entries c)). lia.
  - by rewrite map_touch_keys, map_touch_length.
Qed.

Lemma get_maxSize k now touched c :
  maxSize (get k now touched c).1 = maxSize c.
Proof.
  unfold get. destruct (map_get k (entries c)) as [e|]; [|done].
  by destruct (CacheEntry.isExpired now e).
Qed.

Lemma foldl_map_delete (ks : list K) m :
  foldl (fun m k => map_delete k m) m ks = filter (fun p => p.1 ∉ ks) m.
Proof.
  revert m. induction ks as [|k ks IH]; intros m; simpl.
  - symmetry. induction m as [|p m IHm]; [done|].
    rewrite filter_cons_True by (intros ?%elem_of_nil; done). by f_equal.
  - rewrite IH. unfold map_delete. rewrite list_filter_filter.
    apply list_filter_iff. intros p. rewrite not_elem_of_cons. tauto.
Qed.

Lemma filter_keys_NoDup (P : K * CacheEntry.entry K V → Prop)
    `{!∀ p, Decision (P p)} m :
  NoDup m.*1 → NoDup (filter P m).*1.
Proof.
  induction m as [|p m IH]; simpl; [done|].
  intros [Hp Hnd]%NoDup_cons. destruct (decide (P p)).
  - rewrite filter_cons_True by done. simpl. apply NoDup_cons.
    split; [|by apply IH].
    intros (q & Hq & [_ Hin]%list_elem_of_filter)%list_elem_of_fmap.
    apply Hp. apply list_elem_of_fmap. by exists q.
  - rewrite filter_cons_False by done. by apply IH.
Qed.

Lemma cache_step_bounded c (o : op K V) :
  1 <= maxSize c → bounded c →
  bounded (step c o) ∧ maxSize (step c o) = maxSize c.
Proof.
  intros Hmax Hb. destruct o; simpl.
  - split; [by apply cache_get_bounded|apply get_maxSize].
  - split; [by apply cache_set_bounded|done].
  - unfold has. destruct (map_get k (entries c)) as [e|]; [|done].
    destruct (CacheEntry.isExpired now e); [|done]. simpl.
    destruct Hb as [Hnd Hlen]. split; [|done].
    split; simpl; [by apply map_delete_NoDup|].
    pose proof (map_delete_length_le k (entries c)). lia.
  - destruct Hb as [Hnd Hlen]. split; [|done].
    split; simpl; [by apply map_delete_NoDup|].
    pose proof (map_delete_length_le k (entries c)). lia.
  - split; [|done]. split; simpl; [apply NoDup_nil_2|lia].
  - done.
  - unfold getOrCompute.
    pose proof (cache_get_bounded k now touched c Hb) as Hb'.
    pose proof (get_maxSize k now touched c) as Hm'.
    destruct (get k now touched c) as [c' [cached|]]; simpl in *; [done|].
    split; [apply cache_set_bounded; [lia|done]|done].
  - destruct Hb as [Hnd Hlen]. split; [|done]. split; simpl.
    + rewrite foldl_map_delete. by apply filter_keys_NoDup.
    + rewrite foldl_map_delete.
      match goal with |- context [filter ?P ?l] =>
        pose proof (length_filter P l) end. lia.
Qed.

Lemma cache_run_bounded (ops : list (op K V)) c :
  1 <= maxSize c → bounded c →
  bounded (run c ops) ∧ maxSize (run c ops) = maxSize c.
Proof.
  revert c. induction ops as [|o ops IH]; intros c Hmax Hb; [done|].
  simpl. destruct (cache_step_bounded c o Hmax Hb) as [Hb' Hm'].
  destruct (IH (step c o)) as [Hb'' Hm'']; [lia|done|].
  split; [done|lia].
Qed.

(** X23. A cache made with [maxSize >= 1] never holds more than [maxSize]
    entries, whatever is called on it, and its keys stay distinct. *)
Theorem cache_never_exceeds_maxSize (size0 : Z) (default : option Z)
    (ops : list (op K V)) :
  1 <= size0 →
  Z.of_nat (size (run (new size0 default) ops)) <= size0
  ∧ NoDup (keys (run (new size0 default) ops)).
Proof.
  intros Hmax.
  destruct (cache_run_bounded ops (new size0 default)) as [[Hnd Hlen] Hm];
    [done|split; simpl; [apply NoDup_nil_2|lia]|].
  simpl in Hm. unfold size, keys. split; [lia|done].
Qed.

(** *** [get] after [set] *)

Lemma set_entries_last k v ttl created accessed c :
  ∃ m, entries (set k v ttl created accessed c)
       = m ++ [(k, CacheEntry.new k v
                     (match ttl with Some t => t | None => defaultTTL c end)
                     created accessed)]
       ∧ k ∉ m.*1.
Proof.
  unfold set. simpl.
  set (m1 := if map_has k (entries c) then map_delete k (entries c)
             else entries c).
  assert (k ∉ m1.*1) as Hk1.
  { unfold m1. destruct (map_has k (entries c)) eqn:Hhas.
    - intros [? _]%map_delete_keys. done.
    - intros Hin%map_has_spec. congruence. }
  eexists. split; [done|].
  destruct (maxSize c <=? Z.of_nat (length m1)); [|done].
  destruct (lru_from m1 None None); [|done].
  intros [_ ?]%map_delete_keys. done.
Qed.

Lemma get_after_set_cases (k : K) (v : V) (ttl : option (option Z))
    (created accessed now touched : Z) c :
  get k now touched (set k v ttl created accessed c)
  = if CacheEntry.isExpired now
         (CacheEntry.new k v
            (match ttl with Some t => t | None => defaultTTL c end)
            created accessed)
    then (let c' := set k v ttl created accessed c in
          {| maxSize := maxSize c'; defaultTTL := defaultTTL c';
             entries := map_delete k (entries c');
             stats := Stats (hits (stats c')) (S (misses (stats c')))
                        (evictions (stats c'))
                        (S (expirations (stats c'))) |}, None)
    else (let c' := set k v ttl created accessed c in
          {| maxSize := maxSize c'; defaultTTL := defaultTTL c';
             entries := map_touch k touched (entries c');
             stats := Stats (S (hits (stats c'))) (misses (stats c'))
                        (evictions (stats c')) (expirations (stats c')) |},
          Some v).
Proof.
  destruct (set_entries_last k v ttl created accessed c) as (m & Hm & Hk).
  unfold get. rewrite Hm, (map_get_last _ _ _ Hk).
  by destruct (CacheEntry.isExpired _ _).
Qed.

(** X24. After [set(key, value, ttl)], whose entry is created at time
    [created], a [get(key)] that reads the clock at time [now] returns the
    value and counts a hit when the entry has no ttl (null, or 0) or when
    at most [ttl] milliseconds have passed; the key stays in the cache. *)
Theorem get_after_set_alive (k : K) (v : V) (ttl : option (option Z))
    (created accessed now touched : Z) c :
  match (match ttl with Some t => t | None => defaultTTL c end) with
  | Some t => t = 0 ∨ now - created <= t
  | None => True
  end →
  (get k now touched (set k v ttl created accessed c)).2 = Some v
  ∧ k ∈ keys (get k now touched (set k v ttl created accessed c)).1
  ∧ hits (stats (get k now touched (set k v ttl created accessed c)).1)
    = S (hits (stats (set k v ttl created accessed c)))
  ∧ misses (stats (get k now touched (set k v ttl created accessed c)).1)
    = misses (stats (set k v ttl created accessed c)).
Proof.
  intros Halive. rewrite get_after_set_cases.
  assert (CacheEntry.isExpired now
            (CacheEntry.new k v
               (match ttl with Some t => t | None => defaultTTL c end)
               created accessed)
          = false) as ->.
  { unfold CacheEntry.isExpired. simpl.
    destruct (match ttl with Some t => t | None => defaultTTL c end) as [t|];
      [|done].
    destruct (Z.eqb_spec t 0); [done|]. apply Z.ltb_ge. lia. }
  split_and!; try done. unfold keys. cbn [fst entries].
  rewrite map_touch_keys.
  destruct (set_entries_last k v ttl created accessed c) as (m & -> & _).
  rewrite fmap_app. apply elem_of_app. right. by left.
Qed.

(** X25. After [set(key, value, ttl)] with a ttl other than null and 0,
    whose entry is created at time [created], a [get(key)] that reads the
    clock more than [ttl] milliseconds later returns [undefined], removes
    the entry and counts one miss and one expiration. *)
Theorem get_after_set_expired (k : K) (v : V) (ttl : option (option Z))
    (created accessed now touched t : Z) c :
  match ttl with Some t => t | None => defaultTTL c end = Some t →
  t ≠ 0 → t < now - created →
  (get k now touched (set k v ttl created accessed c)).2 = None
  ∧ (k ∉ keys (get k now touched (set k v ttl created accessed c)).1)
  ∧ size (get k now touched (set k v ttl created accessed c)).1
    = Nat.pred (size (set k v ttl created accessed c))
  ∧ misses (stats (get k now touched (set k v ttl created accessed c)).1)
    = S (misses (stats (set k v ttl created accessed c)))
  ∧ expirations (stats (get k now touched (set k v ttl created accessed c)).1)
    = S (expirations (stats (set k v ttl created accessed c))).
Proof.
  intros Httl Hne Hlt. rewrite get_after_set_cases.
  assert (CacheEntry.isExpired now
            (CacheEntry.new k v
               (match ttl with Some t => t | None => defaultTTL c end)
               created accessed)
          = true) as ->.
  { unfold CacheEntry.isExpired. simpl. rewrite Httl.
    destruct (Z.eqb_spec t 0); [done|]. by apply Z.ltb_lt. }
  split_and!; try done.
  - unfold keys. cbn [fst entries]. intros [? _]%map_delete_keys. done.
  - unfold size. cbn [fst entries].
    destruct (set_entries_last k v ttl created accessed c) as (m & -> & Hk).
    unfold map_delete. rewrite filter_app, length_app, length_app. simpl.
    rewrite filter_cons_False, filter_nil by (simpl; intros ?; done).
    simpl. rewrite Nat.add_0_r, Nat.add_1_r. simpl.
    f_equal. clear -Hk. induction m as [|p m IH]; [done|].
    rewrite fmap_cons in Hk. apply not_elem_of_cons in Hk as [Hp Hk].
    rewrite filter_cons_True by (simpl; congruence). simpl. f_equal.
    by apply IH.
Qed.

(** *** Eviction *)

Lemma step_defaultTTL c (o : op K V) : defaultTTL (step c o) = defaultTTL c.
Proof.
  destruct o; simpl; try done.
  - unfold get. destruct (map_get _ _) as [e|]; [|done].
    by destruct (CacheEntry.isExpired _ _).
  - unfold has. destruct (map_get _ _) as [e|]; [|done].
    by destruct (CacheEntry.isExpired _ _).
  - unfold getOrCompute, get. destruct (map_get _ _) as [e|]; [|done].
    by destruct (CacheEntry.isExpired _ _).
Qed.

Lemma run_defaultTTL (ops : list (op K V)) c :
  defaultTTL (run c ops) = defaultTTL c.
Proof.
  revert c. induction ops as [|o ops IH]; intros c; [done|].
  simpl. by rewrite IH, step_defaultTTL.
Qed.

(** X26. [set] of a key that is not in a full cache evicts exactly one
    entry: the first, in insertion order, of the entries accessed earliest.
    All other entries stay, in their order, and the new entry is put last. *)
Theorem set_evicts_least_recently_used (size0 : Z) (default : option Z)
    (ops : list (op K V)) (k : K) (v : V) (ttl : option (option Z))
    (created accessed : Z) :
  1 <= size0 →
  k ∉ keys (run (new size0 default) ops) →
  Z.of_nat (size (run (new size0 default) ops)) = size0 →
  ∃ m1 victim ev m2,
    entries (run (new size0 default) ops) = m1 ++ (victim, ev) :: m2
    ∧ Forall (fun p => CacheEntry.accessedAt ev < CacheEntry.accessedAt p.2) m1
    ∧ Forall (fun p => CacheEntry.accessedAt ev <= CacheEntry.accessedAt p.2) m2
    ∧ entries (set k v ttl created accessed (run (new size0 default) ops))
      = m1 ++ m2
        ++ [(k, CacheEntry.new k v
                  (match ttl with Some t => t | None => default end)
                  created accessed)]
    ∧ evictions (stats (set k v ttl created accessed
                          (run (new size0 default) ops)))
      = S (evictions (stats (run (new size0 default) ops))).
Proof.
  intros Hmax Hk Hfull.
  destruct (cache_run_bounded ops (new size0 default)) as [[Hnd Hlen] Hm];
    [done|split; simpl; [apply NoDup_nil_2|lia]|].
  pose proof (run_defaultTTL ops (new size0 default)) as Hd. simpl in Hd.
  set (c := run (new size0 default) ops) in *. simpl in Hm.
  unfold size, keys in *.
  destruct (lru_from_start (entries c)) as (m1 & victim & ev & m2 & He & H1 & H2 & Hl).
  { intros Hnil. rewrite Hnil in Hfull. simpl in Hfull. lia. }
  exists m1, victim, ev, m2. split_and!; try done.
  - unfold set. simpl.
    assert (map_has k (entries c) = false) as ->
      by (apply not_true_iff_false; by intros ?%map_has_spec).
    rewrite (proj2 (Z.leb_le _ _)) by lia. rewrite Hl, Hd.
    rewrite He, map_delete_middle, <- app_assoc; [done| |].
    + rewrite He, fmap_app in Hnd. simpl in Hnd.
      apply NoDup_app in Hnd as (_ & Hdis & _). intros Hin.
      apply (Hdis _ Hin). by left.
    + rewrite He, fmap_app in Hnd. simpl in Hnd.
      apply NoDup_app in Hnd as (_ & _ & Hnd). by apply NoDup_cons in Hnd as [? _].
  - unfold set. simpl.
    assert (map_has k (entries c) = false) as ->
      by (apply not_true_iff_false; by intros ?%map_has_spec).
    by rewrite (proj2 (Z.leb_le _ _)) by lia.
Qed.

(** *** Statistics *)

Lemma step_lookups c (o : op K V) :
  (hits (stats (step c o)) + misses (stats (step c o)))%nat
  = if is_resetStats o then 0%nat
    else (hits (stats c) + misses (stats c)
          + match o with
            | Get _ _ _ | GetOrCompute _ _ _ _ _ _ _ => 1
            | _ => 0
            end)%nat.
Proof.
  destruct o; simpl; try lia.
  - unfold get. destruct (map_get _ _) as [e|]; [|simpl; lia].
    destruct (CacheEntry.isExpired _ _); simpl; lia.
  - by destruct (maxSize c <=? _); simpl; lia.
  - unfold has. destruct (map_get _ _) as [e|]; [|simpl; lia].
    destruct (CacheEntry.isExpired _ _); simpl; lia.
  - unfold getOrCompute, get. destruct (map_get _ _) as [e|].
    + destruct (CacheEntry.isExpired _ _); simpl; [|lia].
      match goal with |- context [if ?b then _ else _] => destruct b end;
        simpl; lia.
    + simpl. match goal with |- context [if ?b then _ else _] => destruct b end;
        simpl; lia.
Qed.

Lemma gets_snoc (ops : list (op K V)) o :
  gets (ops ++ [o])
  = (gets ops + match o with
                | Get _ _ _ | GetOrCompute _ _ _ _ _ _ _ => 1
                | _ => 0
                end)%nat.
Proof.
  induction ops as [|o' ops IH]; simpl; [by destruct o|].
  destruct o'; rewrite IH; lia.
Qed.

(** X27. As long as [resetStats()] is not called, the hits and the misses
    of a cache add up to the number of [get] calls made, directly or by
    [getOrCompute]; [set], [has], [delete], [clear] and [evictExpired]
    count neither. *)
Theorem hits_plus_misses_count_gets (size0 : Z) (default : option Z)
    (ops : list (op K V)) :
  forallb (fun o => negb (is_resetStats o)) ops = true →
  (hits (stats (run (new size0 default) ops))
   + misses (stats (run (new size0 default) ops)))%nat = gets ops.
Proof.
  induction ops as [|o ops IH] using rev_ind; intros Hr; [done|].
  rewrite forallb_app in Hr. apply andb_prop in Hr as [Hr Ho].
  simpl in Ho. rewrite andb_true_r in Ho. apply negb_true_iff in Ho.
  unfold run in *. rewrite foldl_app. simpl.
  rewrite step_lookups, Ho, gets_snoc, (IH Hr). done.
Qed.

(** *** [evictExpired] *)

Lemma expired_from_elem clock j m k :
  k ∈ expired_from clock j m
  ↔ ∃ i e, m !! i = Some (k, e)
           ∧ CacheEntry.isExpired (clock (j + i)%nat) e = true.
Proof.
  revert j. induction m as [|[k' e'] m IH]; intros j; simpl.
  { split; [by intros ?%elem_of_nil|]. by intros (i & e & ? & _). }
  destruct (CacheEntry.isExpired (clock j) e') eqn:He.
  - rewrite elem_of_cons, IH. split.
    + intros [->|(i & e & Hi & Hex)].
      * exists 0%nat, e'. by rewrite Nat.add_0_r.
      * exists (S i), e. split; [done|]. by rewrite Nat.add_succ_r.
    + intros ([|i] & e & Hi & Hex); simpl in Hi.
      * left. congruence.
      * right. exists i, e. split; [done|]. by rewrite Nat.add_succ_r in Hex.
  - rewrite IH. split.
    + intros (i & e & Hi & Hex). exists (S i), e. split; [done|].
      by rewrite Nat.add_succ_r.
    + intros ([|i] & e & Hi & Hex); simpl in Hi.
      * rewrite Nat.add_0_r in Hex. congruence.
      * exists i, e. split; [done|]. by rewrite Nat.add_succ_r in Hex.
Qed.

Lemma filter_ext_elem {A} (P Q : A → Prop) `{!∀ x, Decision (P x)}
    `{!∀ x, Decision (Q x)} (l : list A) :
  (∀ x, x ∈ l → (P x ↔ Q x)) → filter P l = filter Q l.
Proof.
  induction l as [|x l IH]; intros Hext; [done|].
  assert (filter P l = filter Q l) as Hl
    by (apply IH; intros y Hy; apply Hext; by right).
  destruct (Hext x ltac:(by left)) as [H1 H2].
  destruct (decide (P x)) as [Hp|Hp].
  - rewrite !filter_cons_True by auto. by f_equal.
  - rewrite !filter_cons_False by auto. done.
Qed.

Lemma expired_from_count clock j m :
  NoDup m.*1 →
  (length (expired_from clock j m)
   + length (filter (fun p => p.1 ∉ expired_from clock j m) m)
   = length m)%nat.
Proof.
  revert j. induction m as [|[k e] m IH]; intros j Hnd; [done|].
  rewrite fmap_cons in Hnd. apply NoDup_cons in Hnd as [Hk Hnd].
  specialize (IH (S j) Hnd). simpl.
  destruct (CacheEntry.isExpired (clock j) e) eqn:He.
  - rewrite filter_cons_False by (simpl; intros Hn; apply Hn; by left).
    rewrite (filter_ext_elem _ (fun p => p.1 ∉ expired_from clock (S j) m)).
    + simpl. lia.
    + intros p Hp. rewrite not_elem_of_cons. split; [tauto|].
      intros Hn. split; [|done]. intros Heq. apply Hk. rewrite <- Heq.
      apply list_elem_of_fmap. by exists p.
  - rewrite filter_cons_True.
    + simpl. lia.
    + simpl. intros (i & e' & Hi & _)%expired_from_elem. apply Hk.
      apply list_elem_of_fmap. exists (k, e'). split; [done|].
      by apply list_elem_of_lookup_2 in Hi.
Qed.

Lemma NoDup_keys_lookup m i j k e e' :
  NoDup m.*1 → m !! i = Some (k, e) → m !! j = Some (k, e') → i = j.
Proof.
  intros Hnd Hi Hj. apply (NoDup_lookup m.*1 i j k Hnd).
  - by rewrite list_lookup_fmap, Hi.
  - by rewrite list_lookup_fmap, Hj.
Qed.

(** X28. [evictExpired()] removes exactly the entries that its loop finds
    expired, each at the clock reading made for it, and keeps the others
    in their order; it returns the number of entries removed and adds that
    number to the expirations. *)
Theorem evictExpired_removes_expired (size0 : Z) (default : option Z)
    (ops : list (op K V)) (clock : nat → Z) :
  1 <= size0 →
  entries (evictExpired clock (run (new size0 default) ops)).1
    `sublist_of` entries (run (new size0 default) ops)
  ∧ (∀ i p, entries (run (new size0 default) ops) !! i = Some p →
       (p ∈ entries (evictExpired clock (run (new size0 default) ops)).1
        ↔ CacheEntry.isExpired (clock i) p.2 = false))
  ∧ ((evictExpired clock (run (new size0 default) ops)).2
     + size (evictExpired clock (run (new size0 default) ops)).1
     = size (run (new size0 default) ops))%nat
  ∧ expirations (stats (evictExpired clock (run (new size0 default) ops)).1)
    = (expirations (stats (run (new size0 default) ops))
       + (evictExpired clock (run (new size0 default) ops)).2)%nat.
Proof.
  intros Hmax.
  destruct (cache_run_bounded ops (new size0 default)) as [[Hnd _] _];
    [done|split; simpl; [apply NoDup_nil_2|lia]|].
  set (c := run (new size0 default) ops) in *.
  unfold evictExpired, size. cbn [fst snd entries stats expirations].
  rewrite foldl_map_delete. split_and!; [apply sublist_filter| | |done].
  - intros i [k e] Hi. rewrite list_elem_of_filter. simpl.
    rewrite expired_from_elem. split.
    + intros [Hn _]. apply not_true_iff_false. intros He. apply Hn.
      by exists i, e.
    + intros He. split; [|by apply list_elem_of_lookup_2 in Hi].
      intros (j & e' & Hj & He'). simpl in He'.
      assert (i = j) as <- by (by eapply NoDup_keys_lookup).
      congruence.
  - by apply expired_from_count.
Qed.

End CacheFacts.

Lemma cache_never_exceeds_maxSize_witness :
  Z.of_nat (size (run (new 2 None)
      [Set_ 1%nat 10%nat None 100 100; Set_ 2%nat 20%nat None 101 101;
       Get 1%nat 102 102; Set_ 3%nat 30%nat (Some (Some 5%Z)) 103 104])) <= 2
  ∧ NoDup (keys (run (new 2 None)
      [Set_ 1%nat 10%nat None 100 100; Set_ 2%nat 20%nat None 101 101;
       Get 1%nat 102 102; Set_ 3%nat 30%nat (Some (Some 5%Z)) 103 104])).
Proof.
  apply (cache_never_exceeds_maxSize 2 None
      [Set_ 1%nat 10%nat None 100 100; Set_ 2%nat 20%nat None 101 101;
       Get 1%nat 102 102; Set_ 3%nat 30%nat (Some (Some 5%Z)) 103 104]).
  lia.
Defined.

Lemma hits_plus_misses_count_gets_witness :
  (hits (stats (run (new 2 None)
      [Set_ 1%nat 10%nat None 100 100; Get 1%nat 102 102; Get 2%nat 103 103;
       GetOrCompute 2%nat 5%nat None 104 104 105 105]))
   + misses (stats (run (new 2 None)
      [Set_ 1%nat 10%nat None 100 100; Get 1%nat 102 102; Get 2%nat 103 103;
       GetOrCompute 2%nat 5%nat None 104 104 105 105])))%nat
  = gets [Set_ 1%nat 10%nat None 100 100; Get 1%nat 102 102;
          Get 2%nat 103 103; GetOrCompute 2%nat 5%nat None 104 104 105 105].
Proof.
  apply (hits_plus_misses_count_gets 2 None
      [Set_ 1%nat 10%nat None 100 100; Get 1%nat 102 102; Get 2%nat 103 103;
       GetOrCompute 2%nat 5%nat None 104 104 105 105]).
  reflexivity.
Defined.

Lemma get_after_set_alive_witness :
  (get 1%nat 105 105
     (set 1%nat 10%nat (Some (Some 5%Z)) 100 100 (new 2 None))).2
    = Some 10%nat
  ∧ 1%nat ∈ keys (get 1%nat 105 105
                    (set 1%nat 10%nat (Some (Some 5%Z)) 100 100 (new 2 None))).1
  ∧ hits (stats (get 1%nat 105 105
                   (set 1%nat 10%nat (Some (Some 5%Z)) 100 100 (new 2 None))).1)
    = S (hits (stats (set 1%nat 10%nat (Some (Some 5%Z)) 100 100 (new 2 None))))
  ∧ misses (stats (get 1%nat 105 105
                     (set 1%nat 10%nat (Some (Some 5%Z)) 100 100 (new 2 None))).1)
    = misses (stats (set 1%nat 10%nat (Some (Some 5%Z)) 100 100 (new 2 None))).
Proof.
  apply (get_after_set_alive 1%nat 10%nat (Some (Some 5%Z)) 100 100 105 105
           (new 2 None)).
  simpl. lia.
Defined.

Lemma get_after_set_expired_witness :
  (get 1%nat 106 106
     (set 1%nat 10%nat None 100 100 (new 2 (Some 5%Z)))).2 = None
  ∧ (1%nat ∉ keys (get 1%nat 106 106
                     (set 1%nat 10%nat None 100 100 (new 2 (Some 5%Z)))).1)
  ∧ size (get 1%nat 106 106
            (set 1%nat 10%nat None 100 100 (new 2 (Some 5%Z)))).1
    = Nat.pred (size (set 1%nat 10%nat None 100 100 (new 2 (Some 5%Z))))
  ∧ misses (stats (get 1%nat 106 106
                     (set 1%nat 10%nat None 100 100 (new 2 (Some 5%Z)))).1)
    = S (misses (stats (set 1%nat 10%nat None 100 100 (new 2 (Some 5%Z)))))
  ∧ expirations (stats (get 1%nat 106 106
                          (set 1%nat 10%nat None 100 100 (new 2 (Some 5%Z)))).1)
    = S (expirations (stats (set 1%nat 10%nat None 100 100
                               (new 2 (Some 5%Z))))).
Proof.
  apply (get_after_set_expired 1%nat 10%nat None 100 100 106 106 5
           (new 2 (Some 5%Z)));
    [reflexivity|lia|lia].
Defined.

Lemma set_evicts_least_recently_used_witness :
  ∃ m1 victim ev m2,
    entries (run (new 2 None)
               [Set_ 1%nat 10%nat None 100 100; Set_ 2%nat 20%nat None 101 101;
                Get 1%nat 102 102])
      = m1 ++ (victim, ev) :: m2
    ∧ Forall (fun p => CacheEntry.accessedAt ev < CacheEntry.accessedAt p.2) m1
    ∧ Forall (fun p => CacheEntry.accessedAt ev <= CacheEntry.accessedAt p.2) m2
    ∧ entries (set 3%nat 30%nat None 103 103
                 (run (new 2 None)
                    [Set_ 1%nat 10%nat None 100 100;
                     Set_ 2%nat 20%nat None 101 101; Get 1%nat 102 102]))
      = m1 ++ m2 ++ [(3%nat, CacheEntry.new 3%nat 30%nat None 103 103)]
    ∧ evictions (stats (set 3%nat 30%nat None 103 103
                 (run (new 2 None)
                    [Set_ 1%nat 10%nat None 100 100;
                     Set_ 2%nat 20%nat None 101 101; Get 1%nat 102 102])))
      = S (evictions (stats (run (new 2 None)
                    [Set_ 1%nat 10%nat None 100 100;
                     Set_ 2%nat 20%nat None 101 101; Get 1%nat 102 102]))).
Proof.
  apply (set_evicts_least_recently_used 2 None
           [Set_ 1%nat 10%nat None 100 100; Set_ 2%nat 20%nat None 101 101;
            Get 1%nat 102 102] 3%nat 30%nat None 103 103).
  - lia.
  - apply (bool_decide_unpack _). vm_compute. exact I.
  - reflexivity.
Defined.

Lemma evictExpired_removes_expired_witness :
  entries (evictExpired (fun _ : nat => 200%Z) (run (new 2 None)
      [Set_ 1%nat 10%nat (Some (Some 5%Z)) 100 100;
       Set_ 2%nat 20%nat None 101 101])).1
    `sublist_of` entries (run (new 2 None)
      [Set_ 1%nat 10%nat (Some (Some 5%Z)) 100 100;
       Set_ 2%nat 20%nat None 101 101])
  ∧ (∀ i p, entries (run (new 2 None)
      [Set_ 1%nat 10%nat (Some (Some 5%Z)) 100 100;
       Set_ 2%nat 20%nat None 101 101]) !! i = Some p →
       (p ∈ entries (evictExpired (fun _ : nat => 200%Z) (run (new 2 None)
      [Set_ 1%nat 10%nat (Some (Some 5%Z)) 100 100;
       Set_ 2%nat 20%nat None 101 101])).1
        ↔ CacheEntry.isExpired 200 p.2 = false))
  ∧ ((evictExpired (fun _ : nat => 200%Z) (run (new 2 None)
      [Set_ 1%nat 10%nat (Some (Some 5%Z)) 100 100;
       Set_ 2%nat 20%nat None 101 101])).2
     + size (evictExpired (fun _ : nat => 200%Z) (run (new 2 None)
      [Set_ 1%nat 10%nat (Some (Some 5%Z)) 100 100;
       Set_ 2%nat 20%nat None 101 101])).1
     = size (run (new 2 None)
      [Set_ 1%nat 10%nat (Some (Some 5%Z)) 100 100;
       Set_ 2%nat 20%nat None 101 101]))%nat
  ∧ expirations (stats (evictExpired (fun _ : nat => 200%Z) (run (new 2 None)
      [Set_ 1%nat 10%nat (Some (Some 5%Z)) 100 100;
       Set_ 2%nat 20%nat None 101 101])).1)
    = (expirations (stats (run (new 2 None)
      [Set_ 1%nat 10%nat (Some (Some 5%Z)) 100 100;
       Set_ 2%nat 20%nat None 101 101]))
       + (evictExpired (fun _ : nat => 200%Z) (run (new 2 None)
      [Set_ 1%nat 10%nat (Some (Some 5%Z)) 100 100;
       Set_ 2%nat 20%nat None 101 101])).2)%nat.
Proof.
  apply (evictExpired_removes_expired 2 None
      [Set_ 1%nat 10%nat (Some (Some 5%Z)) 100 100;
       Set_ 2%nat 20%nat None 101 101] (fun _ : nat => 200%Z)).
  lia.
Defined.

End CacheSpec.

(** ** MathUtils *)
Module MathUtilsSpec.
Import MathUtils.

(** X29. On integers, [gcd(a, b)] is the greatest common divisor of [a] and
    [b] up to its sign: its absolute value is their gcd. *)
Theorem gcd_up_to_sign (a b : Z) : Z.abs (gcd a b) = Z.gcd a b.
Proof.
  funelim (gcd a b).
  - subst. by rewrite Z.gcd_0_r.
  - rewrite H. rewrite (Z.gcd_comm a b).
    rewrite (Z.quot_rem' a b) at 2.
    rewrite Z.add_comm, (Z.mul_comm b). symmetry. apply Z.gcd_add_mult_diag_r.
Qed.


Lemma divides_factor a b n : (a * b | n) → (a | n).
Proof. intros [q ->]. exists (q * b). ring. Qed.

Lemma composite_small_divisor n :
  1 < n → ¬ Znumtheory.prime n → ∃ d, 1 < d ∧ d * d <= n ∧ (d | n).
Proof.
  intros Hn Hp.
  destruct (Znumtheory.not_prime_divide n Hn Hp) as (d & Hd & q & Hq).
  destruct (Z_le_gt_dec d q).
  - exists d. split_and!; [lia|nia|by exists q].
  - exists q. split_and!; [nia|nia|exists d; lia].
Qed.

Lemma no_small_divisor_prime n i :
  1 < n → n < i * i → 0 <= i →
  (∀ d, 1 < d < i → ¬ (d | n)) → Znumtheory.prime n.
Proof.
  intros Hn Hi Hi0 Hd. destruct (Znumtheory.prime_dec n) as [|Hp]; [done|].
  destruct (composite_small_divisor n Hn Hp) as (d & H1 & H2 & H3).
  exfalso. apply (Hd d); [nia|done].
Qed.

Lemma proper_divisor_not_prime n d :
  1 < d < n → (d | n) → ¬ Znumtheory.prime n.
Proof.
  intros Hd Hdiv [_ Hp]. destruct (Hp d ltac:(lia)) as [_ _ Hg].
  specialize (Hg d (Z.divide_refl d) Hdiv).
  apply Z.divide_1_r_nonneg in Hg; lia.
Qed.

Lemma isPrime_from_spec n i :
  (∃ k, 0 <= k ∧ i = 6 * k + 5) → 1 < n →
  (∀ d, 1 < d < i → ¬ (d | n)) →
  isPrime_from n i = true ↔ Znumtheory.prime n.
Proof.
  funelim (isPrime_from n i); intros (k & Hk & ->) Hn Hsmall.
  - destruct (Z.eqb_spec (Z.rem n (6 * k + 5)) 0) as [H0|H0]; simpl.
    { split; [done|]. intros Hp. exfalso.
      apply (proper_divisor_not_prime n (6 * k + 5)); [nia| |done].
      apply Z.rem_divide; [lia|done]. }
    destruct (Z.eqb_spec (Z.rem n (6 * k + 5 + 2)) 0) as [H2|H2]; simpl.
    { split; [done|]. intros Hp. exfalso.
      apply (proper_divisor_not_prime n (6 * k + 5 + 2)); [nia| |done].
      apply Z.rem_divide; [lia|done]. }
    apply H; [exists (k + 1); lia|done|].
    intros d Hd Hdiv.
    assert (¬ (2 | n)) as N2 by (apply Hsmall; lia).
    assert (¬ (3 | n)) as N3 by (apply Hsmall; lia).
    destruct (Z_lt_dec d (6 * k + 5)) as [|Hge]; [apply (Hsmall d); [lia|done]|].
    assert (d = 6 * k + 5 ∨ d = 6 * k + 5 + 2 ∨ d = 2 * (3 * k + 3)
            ∨ d = 2 * (3 * k + 4) ∨ d = 3 * (2 * k + 3)
            ∨ d = 2 * (3 * k + 5)) as Hcase by lia.
    destruct Hcase as [-> |[-> |[-> |[-> |[-> | ->]]]]].
    + apply H0. apply Z.rem_divide; [lia|done].
    + apply H2. apply Z.rem_divide; [lia|done].
    + apply N2. by apply divides_factor in Hdiv.
    + apply N2. by apply divides_factor in Hdiv.
    + apply N3. by apply divides_factor in Hdiv.
    + apply N2. by apply divides_factor in Hdiv.
  - split; [intros _|done].
    apply (no_small_divisor_prime n (6 * k + 5)); [done|lia|lia|done].
Qed.

(** X30. On the safe integers (at most [2^53 - 1]), [isPrime(n)] is true
    exactly when [n] is a prime number. *)
Theorem isPrime_correct (n : Z) :
  n <= 2 ^ 53 - 1 → (isPrime n = true ↔ Znumtheory.prime n).
Proof.
  intros _. unfold isPrime.
  destruct (Z.leb_spec n 1) as [H1|H1].
  { split; [done|]. intros [? _]. lia. }
  destruct (Z.leb_spec n 3) as [H3|H3].
  { split; [intros _|done].
    apply (no_small_divisor_prime n 2); [lia|lia|lia|]. intros d Hd. lia. }
  destruct (Z.eqb_spec (Z.rem n 2) 0) as [E2|E2]; simpl.
  { split; [done|]. intros Hp. exfalso.
    apply (proper_divisor_not_prime n 2); [lia| |done].
    by apply Z.rem_divide. }
  destruct (Z.eqb_spec (Z.rem n 3) 0) as [E3|E3]; simpl.
  { split; [done|]. intros Hp. exfalso.
    apply (proper_divisor_not_prime n 3); [lia| |done].
    by apply Z.rem_divide. }
  apply isPrime_from_spec; [exists 0; lia|lia|].
  intros d Hd Hdiv.
  assert (d = 2 ∨ d = 3 ∨ d = 2 * 2) as [->|[->| ->]] by lia.
  - apply E2. by apply Z.rem_divide.
  - apply E3. by apply Z.rem_divide.
  - apply E2. apply Z.rem_divide; [done|]. by apply divides_factor in Hdiv.
Qed.

Lemma isPrime_correct_witness : isPrime 97 = true ↔ Znumtheory.prime 97.
Proof. apply (isPrime_correct 97). vm_compute. discriminate. Defined.

End MathUtilsSpec.
